(** * GPTiny: a character-level transformer trainer (train.ipynb)

    A shallow embedding of the notebook's tokenizer, batch sampler,
    attention head, transformer block, language model and training loop,
    with the properties of its specification stated over that embedding.

    Conventions.
    - A Python [str] is a list of Unicode code points ([N]); token ids,
      sizes and positions are [nat].
    - A Python [dict] is a [gmap]; a comprehension inserts its items from
      left to right.
    - Tensor entries are real numbers ([R]): the arithmetic of the network
      is read over the reals, shapes are the lengths of nested lists.
    - A raised exception is a value of [exn]; code that can raise returns
      a [result], code that also draws random numbers runs in [M], which
      threads the generator.
    - The mode of a module ([model.train()], [model.eval()]) is the
      argument [training] of its [forward].
    - A constructor or function is named after its class and method:
      [Block_init] is [Block.__init__], [Head_forward] is [Head.forward]. *)

From Stdlib Require Import Reals Lra Lia ZArith QArith Qreals.
From stdpp Require Import gmap list sorting strings.

Set Default Proof Using "Type".

(** ** Exceptions and results *)

(** A dictionary key as it shows up in a [KeyError]. *)
Inductive pykey : Type :=
  | KChr (c : N)
  | KInt (i : nat)
  | KStr (s : string).

(** The exceptions the notebook's code can raise (the first group), and
    the error names of the specification's taxonomy (the second group). *)
Inductive exn : Type :=
  | KeyError (k : pykey)
  | IndexError
  | TypeError
  | ZeroDivisionError
  | RuntimeError
  | UnboundLocalError
  | ValueError
  | AttributeError
  | UnknownCharacter
  | InsufficientData
  | ConfigurationError.

Inductive result (A : Type) : Type :=
  | Ok (a : A)
  | Raise (e : exn).
Arguments Ok {A} a.
Arguments Raise {A} e.

(** Sequencing: an exception skips the rest of the computation. The
    notation [x ← m; k] is the one of the monad classes. *)
#[global] Instance result_ret : MRet result := λ A a, Ok a.
#[global] Instance result_bind : MBind result := λ A B k m,
  match m with
  | Ok a => k a
  | Raise e => Raise e
  end.

(** A list comprehension [[f x for x in l]] whose body can raise: items are
    evaluated from left to right and the first exception discards the list
    built so far. *)
Fixpoint comprehension {A B} (f : A → result B) (l : list A) : result (list B) :=
  match l with
  | [] => Ok []
  | x :: l' => y ← f x; ys ← comprehension f l'; Ok (y :: ys)
  end.

(** ** Vocabulary and tokenizer (cell 6) *)

Module Vocab.

(** [enumerate(l)] *)
Definition enumerate {A} (l : list A) : list (nat * A) := imap pair l.

(** [{ k:v for ... }]: later items overwrite earlier ones. *)
Definition dict_of `{Countable K} {V} (items : list (K * V)) : gmap K V :=
  foldl (λ d kv, <[kv.1 := kv.2]> d) ∅ items.

(** [d[k]] *)
Definition getitem `{Countable K} {V} (key : K → pykey) (d : gmap K V) (k : K)
  : result V :=
  match d !! k with
  | Some v => Ok v
  | None => Raise (KeyError (key k))
  end.

Section Tokenizer.
(** The training corpus, the only text the vocabulary is built from. *)
Variable train_df : list N.

(** [used_chars = sorted(list(set(train_df)))] *)
Definition used_chars : list N :=
  merge_sort N.le (elements (list_to_set train_df : gset N)).

(** [vocab_size = len(used_chars)] *)
Definition vocab_size : nat := length used_chars.

(** [char_to_int = { ch:i for i,ch in enumerate(used_chars) }] *)
Definition char_to_int : gmap N nat :=
  dict_of (prod_swap <$> enumerate used_chars).

(** [int_to_char = { i:ch for i,ch in enumerate(used_chars) }] *)
Definition int_to_char : gmap nat N :=
  dict_of (enumerate used_chars).

(** [encode = lambda s: [char_to_int[c] for c in s]] *)
Definition encode (s : list N) : result (list nat) :=
  comprehension (getitem KChr char_to_int) s.

(** [decode = lambda l: ''.join([int_to_char[i] for i in l])] *)
Definition decode (l : list nat) : result (list N) :=
  comprehension (getitem KInt int_to_char) l.
End Tokenizer.

End Vocab.

(** ** Python calls and integer arithmetic *)

(** A parameter without a default: a call that leaves it out raises
    [TypeError] before the body runs. A parameter with a default is read
    with [default]. *)
Definition required {A} (arg : option A) : result A :=
  match arg with
  | Some a => Ok a
  | None => Raise TypeError
  end.

(** [a // b] and [a % b] on non-negative integers. *)
Definition floordiv (a b : nat) : result nat :=
  if decide (b = 0) then Raise ZeroDivisionError else Ok (a / b).

Definition modulo (a b : nat) : result nat :=
  if decide (b = 0) then Raise ZeroDivisionError else Ok (a mod b).

(** [l[i:j]] for [0 <= i]: the bounds are clamped to the list. *)
Definition slice {A} (l : list A) (i j : nat) : list A := take (j - i) (drop i l).

(** [l[-n:]]: the last [n] items, and the whole list when [n] is [0]
    (Python reads [-0] as [0]). *)
Definition last_items {A} (n : nat) (l : list A) : list A :=
  if decide (n = 0) then l else drop (length l - n) l.

(** ** The random source

    torch's generator is a state that every draw advances. The draws the
    notebook makes are the initial value of a parameter, a Bernoulli
    variable (dropout), a category of a weight vector ([torch.multinomial])
    and an integer below a bound ([torch.randint]). *)
Class Random (rng : Type) : Type := {
  uniform : rng → R * rng;
  bernoulli : Q → rng → bool * rng;
  multinomial : list R → rng → nat * rng;
  randint : nat → rng → nat * rng;
}.

(** What the library promises about the range of the last two. *)
Class RandomRange (rng : Type) `{Random rng} : Prop := {
  multinomial_lt : ∀ probs g, probs ≠ [] → (multinomial probs g).1 < length probs;
  randint_lt : ∀ high g, 0 < high → (randint high g).1 < high;
}.

(** What the library promises about the distribution of [randint]. A
    list of generator states stands for a sample space in which every
    state is equally likely. On [states] the next [n] draws below [high]
    are uniform and independent when one draw pairs every value below
    [high] with every state of a list [states'] exactly once (each value is
    as likely as any other, and the value drawn says nothing about the
    state the draw leaves), and the [n - 1] draws after it are uniform and
    independent on [states']. *)
Inductive uniform_draws `{Random rng} (high : nat) : nat → list rng → Prop :=
  | no_draw states :
      states ≠ [] → uniform_draws high 0 states
  | one_more_draw n states states' :
      randint high <$> states ≡ₚ (g' ← states'; (λ i, (i, g')) <$> seq 0 high) →
      uniform_draws high n states' →
      uniform_draws high (S n) states.

(** Code that draws: the generator is threaded, an exception ends the run. *)
Definition M (rng A : Type) : Type := rng → result (A * rng).

#[global] Instance M_ret {rng} : MRet (M rng) := λ A a g, Ok (a, g).
#[global] Instance M_bind {rng} : MBind (M rng) := λ A B k m g,
  match m g with
  | Ok (a, g') => k a g'
  | Raise e => Raise e
  end.

Definition lift {rng A} (r : result A) : M rng A := λ g,
  match r with
  | Ok a => Ok (a, g)
  | Raise e => Raise e
  end.

Definition draw {rng A} (f : rng → A * rng) : M rng A := λ g, Ok (f g).

(** A comprehension or loop whose body draws. *)
Fixpoint for_each {rng A B} (f : A → M rng B) (l : list A) : M rng (list B) :=
  match l with
  | [] => mret []
  | x :: l' => y ← f x; ys ← for_each f l'; mret (y :: ys)
  end.

(** ** Tensors and the torch operations the notebook calls *)

Module Torch.

Abbreviation vector := (list R).
Abbreviation matrix := (list (list R)).
Abbreviation tensor3 := (list (list (list R))).

(** What [forward] returns as logits has rank 3 or rank 2. *)
Inductive tensor : Type :=
  | T2 (m : matrix)
  | T3 (t : tensor3).

(** A scalar result of a reduction: the mean of no numbers is NaN. *)
Inductive scalar : Type :=
  | NaN
  | Real (r : R).

(** An attention score after masking. *)
Inductive ereal : Type :=
  | NegInf
  | Fin (r : R).

(** [x.shape] of a rank-3 tensor. A tensor without entries does not
    record its trailing sizes, which are read as 0. *)
Definition shape3 (x : tensor3) : nat * nat * nat :=
  (length x, length (hd [] x), length (hd [] (hd [] x))).

(** An entrywise operation. *)
Definition map2 {A B} (f : A → B) (m : list (list A)) : list (list B) :=
  (λ r : list A, f <$> r) <$> m.
Definition map3 {A B} (f : A → B) (x : list (list (list A))) : list (list (list B)) :=
  map2 f <$> x.

Definition sum (v : vector) : R := foldr Rplus 0%R v.

Definition dot (u v : vector) : R := sum (zip_with Rmult u v).

(** [a @ b.transpose(-2,-1)] on one batch element *)
Definition matmul_transposed (a b : matrix) : matrix :=
  (λ r, dot r <$> b) <$> a.

Definition column (b : matrix) (c : nat) : vector := (λ r, nth c r 0%R) <$> b.

(** [a @ b] on one batch element *)
Definition matmul (a b : matrix) : matrix :=
  (λ r, (λ c, dot r (column b c)) <$> seq 0 (length (hd [] b))) <$> a.

(** [C**-0.5] for an integer [C]; Python refuses to raise 0 to a negative
    power. *)
Definition pow_neg_half (C : nat) : result R :=
  if decide (C = 0) then Raise ZeroDivisionError else Ok (/ sqrt (INR C))%R.

(** [torch.tril(torch.ones(n, n))]; the entries are the numbers 0 and 1. *)
Definition tril_ones (n : nat) : list (list nat) :=
  (λ i, (λ j, if decide (j ≤ i) then 1 else 0) <$> seq 0 n) <$> seq 0 n.

(** Broadcasting one axis to size [n]: the sizes agree or the axis has
    size 1. *)
Definition broadcast_to {A} (n : nat) (l : list A) : result (list A) :=
  if decide (length l = n) then Ok l
  else match l with
       | [a] => Ok (replicate n a)
       | _ => Raise RuntimeError
       end.

(** [wei.masked_fill(mask, value)] on one batch element *)
Definition masked_fill (wei : matrix) (mask : list (list bool)) (value : ereal)
  : result (list (list ereal)) :=
  rows ← broadcast_to (length wei) mask;
  comprehension
    (λ '(w, mrow),
       mrow ← broadcast_to (length w) mrow;
       Ok (zip_with (λ x (b : bool), if b then value else Fin x) w mrow))
    (zip wei rows).

Definition eexp (x : ereal) : R :=
  match x with
  | NegInf => 0%R
  | Fin r => exp r
  end.

(** [F.softmax(row, dim=-1)] on one row *)
Definition softmax (row : list ereal) : vector :=
  (λ x, (eexp x / sum (eexp <$> row))%R) <$> row.

(** [F.log_softmax(row)[t]] *)
Definition log_softmax (row : vector) (t : nat) : R :=
  (nth t row 0 - ln (sum (exp <$> row)))%R.

(** The mean of a list of numbers. *)
Definition mean (v : vector) : scalar :=
  match v with
  | [] => NaN
  | _ => Real (sum v / INR (length v))%R
  end.

(** [F.cross_entropy(logits, targets)], logits of shape (N, C), targets of
    shape (N): the mean over the rows of the negative log-probability of
    the row's target. *)
Definition cross_entropy (logits : matrix) (targets : list nat) : result scalar :=
  if decide (length logits = length targets) then
    losses ← comprehension
      (λ '(row, t),
         if decide (t < length row) then Ok (- log_softmax row t)%R
         else Raise IndexError)
      (zip logits targets);
    Ok (mean losses)
  else Raise ValueError.

(** [t.view(n)] of a rank-2 integer tensor *)
Definition view1 (n : nat) (t : list (list nat)) : result (list nat) :=
  if decide (length (concat t) = n) then Ok (concat t) else Raise RuntimeError.

End Torch.

(** ** torch.nn layers *)

Module NN.
Import Torch.

Section Layers.
Context `{Random rng}.

(** *** nn.Linear *)
Record Linear : Type := {
  in_features : nat;
  out_features : nat;
  weight : matrix;          (* (out_features, in_features) *)
  bias : option vector;     (* (out_features) *)
}.

Definition nn_Linear (in_features out_features : nat) (bias : bool) : M rng Linear :=
  w ← for_each (λ _, for_each (λ _, draw uniform) (seq 0 in_features))
               (seq 0 out_features);
  b ← (if bias
       then b ← for_each (λ _, draw uniform) (seq 0 out_features); mret (Some b)
       else mret None);
  mret {| in_features := in_features; out_features := out_features;
          weight := w; bias := b |}.

(** One position: [x @ weight.T + bias]. *)
Definition Linear_row (l : Linear) (x : vector) : result vector :=
  if decide (length x = in_features l) then
    let y := (λ w, dot x w) <$> weight l in
    Ok (match bias l with
        | Some b => zip_with Rplus y b
        | None => y
        end)
  else Raise RuntimeError.

Definition Linear_forward (l : Linear) (x : tensor3) : result tensor3 :=
  comprehension (comprehension (Linear_row l)) x.

(** *** nn.Embedding *)
Record Embedding : Type := {
  num_embeddings : nat;
  embedding_dim : nat;
  table : matrix;           (* (num_embeddings, embedding_dim) *)
}.

Definition nn_Embedding (num_embeddings embedding_dim : nat) : M rng Embedding :=
  w ← for_each (λ _, for_each (λ _, draw uniform) (seq 0 embedding_dim))
               (seq 0 num_embeddings);
  mret {| num_embeddings := num_embeddings; embedding_dim := embedding_dim;
          table := w |}.

(** The row of one index. A table without rows refuses every index with
    [RuntimeError]; a table with rows refuses an index that is not below
    [num_embeddings] with [IndexError]. *)
Definition Embedding_row (e : Embedding) (i : nat) : result vector :=
  match table e with
  | [] => Raise RuntimeError
  | _ :: _ =>
      match table e !! i with
      | Some r => Ok r
      | None => Raise IndexError
      end
  end.

(** *** nn.LayerNorm, over the last axis *)
Record LayerNorm : Type := {
  normalized_shape : nat;
  gamma : vector;
  beta : vector;
  eps : R;
}.

Definition nn_LayerNorm (n : nat) : LayerNorm :=
  {| normalized_shape := n; gamma := replicate n 1%R; beta := replicate n 0%R;
     eps := (1 / 100000)%R |}.

Definition avg (v : vector) : R := (sum v / INR (length v))%R.

Definition LayerNorm_row (ln : LayerNorm) (x : vector) : result vector :=
  if decide (length x = normalized_shape ln) then
    let mu := avg x in
    let var := avg ((λ a, (a - mu) * (a - mu))%R <$> x) in
    let xhat := (λ a, ((a - mu) / sqrt (var + eps ln))%R) <$> x in
    Ok (zip_with Rplus (zip_with Rmult xhat (gamma ln)) (beta ln))
  else Raise RuntimeError.

Definition LayerNorm_forward (ln : LayerNorm) (x : tensor3) : result tensor3 :=
  comprehension (comprehension (LayerNorm_row ln)) x.

(** *** nn.Dropout *)
Record Dropout : Type := { drop_p : Q }.

Definition nn_Dropout (p : Q) : result Dropout :=
  if Qle_bool 0 p && Qle_bool p 1 then Ok {| drop_p := p |}
  else Raise ValueError.

(** One entry: dropped, or kept and scaled by [1/(1-p)]. *)
Definition Dropout_entry (d : Dropout) (x : R) : M rng R :=
  keep ← draw (bernoulli (1 - drop_p d));
  mret (if keep : bool then (x / Q2R (1 - drop_p d))%R else 0%R).

(** Dropout acts only in training mode and only for [p > 0]; [p = 1]
    zeroes every entry. *)
Definition Dropout_forward (training : bool) (d : Dropout) (x : tensor3)
  : M rng tensor3 :=
  if training && negb (Qeq_bool (drop_p d) 0) then
    if Qeq_bool (drop_p d) 1 then mret (map3 (λ _, 0%R) x)
    else for_each (for_each (for_each (Dropout_entry d))) x
  else mret x.

(** *** nn.ReLU *)
Definition ReLU_forward (x : tensor3) : tensor3 :=
  map3 (Rmax 0) x.

End Layers.
End NN.

(** ** The network (cells 9 to 12 and 18) *)

Module Net.
Import Torch NN.

Section Modules.
Context `{Random rng}.

(** *** class Head *)
Record Head : Type := {
  key : Linear;
  query : Linear;
  value : Linear;
  tril : list (list nat);
  head_dropout : Dropout;
}.

Definition Head_init (head_size n_embd block_size : option nat) (dropout : option Q)
  : M rng Head :=
  head_size ← lift (required head_size);
  n_embd ← lift (required n_embd);
  block_size ← lift (required block_size);
  let dropout := default (1 # 10)%Q dropout in
  k ← nn_Linear n_embd head_size false;
  q ← nn_Linear n_embd head_size false;
  v ← nn_Linear n_embd head_size false;
  d ← lift (nn_Dropout dropout);
  mret {| key := k; query := q; value := v; tril := tril_ones block_size;
          head_dropout := d |}.

(** [self.tril[:T, :T] == 0] *)
Definition causal_mask (h : Head) (T : nat) : list (list bool) :=
  (λ row, (λ v, bool_decide (v = 0)) <$> take T row) <$> take T (tril h).

(** The first lines of [Head.forward], up to the scaled scores:
    [wei = q @ k.transpose(-2,-1) * C**-0.5]. An input without positions
    has no score to scale, and its list does not record [C]. *)
Definition Head_scores (h : Head) (x : tensor3) : result tensor3 :=
  let '(B, T, C) := shape3 x in
  k ← Linear_forward (key h) x;
  q ← Linear_forward (query h) x;
  scale ← (if decide (B * T = 0) then Ok 1%R else pow_neg_half C);
  Ok (map3 (λ s, (s * scale)%R) (zip_with matmul_transposed q k)).

(** The scores as the specification words them, scaled by the head
    size (the width of the projections); for the comparison with
    [Head_scores]. *)
Definition Head_scores_by_head_size (h : Head) (x : tensor3) : result tensor3 :=
  let '(B, T, C) := shape3 x in
  k ← Linear_forward (key h) x;
  q ← Linear_forward (query h) x;
  scale ← (if decide (B * T = 0) then Ok 1%R
           else pow_neg_half (out_features (key h)));
  Ok (map3 (λ s, (s * scale)%R) (zip_with matmul_transposed q k)).

(** The next lines: the mask, the softmax over the last axis and the
    dropout. *)
Definition Head_weights (training : bool) (h : Head) (x : tensor3) : M rng tensor3 :=
  let '(B, T, C) := shape3 x in
  wei ← lift (Head_scores h x);
  wei ← lift (comprehension (λ w, masked_fill w (causal_mask h T) NegInf) wei);
  let wei := map2 softmax wei in
  Dropout_forward training (head_dropout h) wei.

(** [Head.forward] *)
Definition Head_forward (training : bool) (h : Head) (x : tensor3) : M rng tensor3 :=
  wei ← Head_weights training h x;
  v ← lift (Linear_forward (value h) x);
  mret (zip_with matmul wei v).

(** *** class MultiHeadAttention *)
Record MultiHeadAttention : Type := {
  heads : list Head;
  proj : Linear;
  multi_dropout : Dropout;
}.

Definition MultiHeadAttention_init
    (num_heads head_size n_embd block_size : option nat)
    (head_dropout multi_dropout : option Q) : M rng MultiHeadAttention :=
  num_heads ← lift (required num_heads);
  head_size ← lift (required head_size);
  n_embd ← lift (required n_embd);
  block_size ← lift (required block_size);
  let head_dropout := default (1 # 10)%Q head_dropout in
  let multi_dropout := default (1 # 10)%Q multi_dropout in
  hs ← for_each
         (λ _, Head_init (Some head_size) (Some n_embd) (Some block_size)
                 (Some head_dropout))
         (seq 0 num_heads);
  pr ← nn_Linear n_embd n_embd true;
  d ← lift (nn_Dropout multi_dropout);
  mret {| heads := hs; proj := pr; multi_dropout := d |}.

(** [torch.cat(ts, dim=-1)]: the tensors agree on the leading axes, being
    the outputs of the heads on one input. *)
Fixpoint cat_last (ts : list tensor3) : result tensor3 :=
  match ts with
  | [] => Raise RuntimeError
  | [t] => Ok t
  | t :: ts' => r ← cat_last ts'; Ok (zip_with (zip_with app) t r)
  end.

Definition MultiHeadAttention_forward (training : bool) (m : MultiHeadAttention)
    (x : tensor3) : M rng tensor3 :=
  outs ← for_each (λ h, Head_forward training h x) (heads m);
  out ← lift (cat_last outs);
  out ← lift (Linear_forward (proj m) out);
  Dropout_forward training (multi_dropout m) out.

(** *** class FeedFoward *)
Record FeedFoward : Type := {
  widening : nat;
  net_0 : Linear;
  net_2 : Linear;
  net_3 : Dropout;
}.

Definition FeedFoward_init (n_embd : option nat) (wide : option nat)
    (dropout : option Q) : M rng FeedFoward :=
  n_embd ← lift (required n_embd);
  let wide := default 4 wide in
  let dropout := default (1 # 10)%Q dropout in
  l0 ← nn_Linear n_embd (wide * n_embd) true;
  l2 ← nn_Linear (wide * n_embd) n_embd true;
  d ← lift (nn_Dropout dropout);
  mret {| widening := wide; net_0 := l0; net_2 := l2; net_3 := d |}.

Definition FeedFoward_forward (training : bool) (f : FeedFoward) (x : tensor3)
  : M rng tensor3 :=
  x ← lift (Linear_forward (net_0 f) x);
  let x := ReLU_forward x in
  x ← lift (Linear_forward (net_2 f) x);
  Dropout_forward training (net_3 f) x.

(** *** class Block *)
Record Block : Type := {
  sa : MultiHeadAttention;
  ffwd : FeedFoward;
  ln1 : LayerNorm;
  ln2 : LayerNorm;
  block_dropout : Dropout;
}.

Definition Block_init (n_embd n_head block_size : option nat) (widen : option nat)
    (head_dropout multi_dropout ff_dropout block_dropout : option Q)
  : M rng Block :=
  n_embd ← lift (required n_embd);
  n_head ← lift (required n_head);
  block_size ← lift (required block_size);
  let widen := default 4 widen in
  let head_dropout := default (1 # 10)%Q head_dropout in
  let multi_dropout := default (1 # 10)%Q multi_dropout in
  let ff_dropout := default (1 # 10)%Q ff_dropout in
  let block_dropout := default (1 # 10)%Q block_dropout in
  head_size ← lift (floordiv n_embd n_head);
  sa ← MultiHeadAttention_init (Some n_head) (Some head_size) (Some n_embd)
         (Some block_size) (Some head_dropout) (Some multi_dropout);
  ffwd ← FeedFoward_init (Some n_embd) (Some widen) (Some ff_dropout);
  let ln1 := nn_LayerNorm n_embd in
  let ln2 := nn_LayerNorm n_embd in
  d ← lift (nn_Dropout block_dropout);
  mret {| sa := sa; ffwd := ffwd; ln1 := ln1; ln2 := ln2; block_dropout := d |}.

(** [a + b] for tensors of one shape *)
Definition add3 (a b : tensor3) : tensor3 :=
  zip_with (zip_with (zip_with Rplus)) a b.

Definition Block_forward (training : bool) (b : Block) (x : tensor3) : M rng tensor3 :=
  y ← lift (LayerNorm_forward (ln1 b) x);
  y ← MultiHeadAttention_forward training (sa b) y;
  let x := add3 x y in
  y ← lift (LayerNorm_forward (ln2 b) x);
  y ← FeedFoward_forward training (ffwd b) y;
  mret (add3 x y).

(** [nn.Sequential] over the blocks *)
Fixpoint Sequential_forward (training : bool) (bs : list Block) (x : tensor3)
  : M rng tensor3 :=
  match bs with
  | [] => mret x
  | b :: bs' => x ← Block_forward training b x; Sequential_forward training bs' x
  end.

(** *** class LanguageModel; the hyperparameters are the notebook's
    global variables *)
Section LanguageModel.
Variables vocab_size n_embd block_size n_head n_layer : nat.

Record LanguageModel : Type := {
  token_embedding_table : Embedding;
  position_embedding_table : Embedding;
  blocks : list Block;
  ln_f : LayerNorm;
  lm_head : Linear;
}.

Definition LanguageModel_init : M rng LanguageModel :=
  tok ← nn_Embedding vocab_size n_embd;
  pos ← nn_Embedding block_size n_embd;
  bs ← for_each
         (λ _, Block_init (Some n_embd) (Some n_head) None None None None None None)
         (seq 0 n_layer);
  let ln := nn_LayerNorm n_embd in
  lm ← nn_Linear n_embd vocab_size true;
  mret {| token_embedding_table := tok; position_embedding_table := pos;
          blocks := bs; ln_f := ln; lm_head := lm |}.

(** The first lines of [forward], up to the logits of shape
    (B, T, vocab_size). *)
Definition forward_logits (training : bool) (m : LanguageModel)
    (idx : list (list nat)) : M rng tensor3 :=
  let T := length (hd [] idx) in
  tok_emb ← lift (comprehension
                    (comprehension (Embedding_row (token_embedding_table m))) idx);
  pos_emb ← lift (comprehension
                    (Embedding_row (position_embedding_table m)) (seq 0 T));
  let x := (λ e, zip_with (zip_with Rplus) e pos_emb) <$> tok_emb in
  x ← Sequential_forward training (blocks m) x;
  x ← lift (LayerNorm_forward (ln_f m) x);
  lift (Linear_forward (lm_head m) x).

(** [LanguageModel.forward] *)
Definition forward (training : bool) (m : LanguageModel)
    (idx : list (list nat)) (targets : option (list (list nat)))
  : M rng (tensor * option scalar) :=
  logits ← forward_logits training m idx;
  match targets with
  | None => mret (T3 logits, None)
  | Some targets =>
      let '(B, T, C) := shape3 logits in
      let logits := concat logits in
      targets ← lift (view1 (B * T) targets);
      loss ← lift (cross_entropy logits targets);
      mret (T2 logits, Some loss)
  end.

(** [logits[:, -1, :]] *)
Definition last_step (logits : tensor) : result matrix :=
  match logits with
  | T3 t => comprehension
              (λ m, match last m with
                    | Some r => Ok r
                    | None => Raise IndexError
                    end) t
  | T2 _ => Raise IndexError
  end.

(** [torch.multinomial(probs, num_samples=1)]: one draw per row; a row
    without categories is refused. *)
Definition torch_multinomial (probs : matrix) : M rng (list nat) :=
  for_each
    (λ row, match row with
            | [] => lift (Raise RuntimeError)
            | _ => draw (multinomial row)
            end) probs.

(** One turn of the loop of [generate]. *)
Definition generate_step (training : bool) (m : LanguageModel)
    (idx : list (list nat)) : M rng (list (list nat)) :=
  let idx_cond := last_items block_size <$> idx in
  '(logits, loss) ← forward training m idx_cond None;
  logits ← lift (last_step logits);
  let probs := (λ row, softmax (Fin <$> row)) <$> logits in
  idx_next ← torch_multinomial probs;
  mret (zip_with (λ row t, row ++ [t]) idx idx_next).

Fixpoint generate (training : bool) (m : LanguageModel)
    (idx : list (list nat)) (max_new_tokens : nat) : M rng (list (list nat)) :=
  match max_new_tokens with
  | 0 => mret idx
  | S n => idx ← generate_step training m idx; generate training m idx n
  end.

(** The steps of [generate] as the specification words them, for the
    comparison with [generate]. One token for each row of probabilities,
    drawn from the row by [multinomial], the generator passing from one
    row to the next. *)
Fixpoint sample_rows (probs : matrix) (g : rng) : list nat * rng :=
  match probs with
  | [] => ([], g)
  | row :: probs' =>
      let '(t, g1) := multinomial row g in
      let '(ts, g2) := sample_rows probs' g1 in
      (t :: ts, g2)
  end.

(** One step takes the running sequences [idx] and the generator [g] to
    [idx'] and [g']: the sequences are cropped to their last [block_size]
    tokens, [forward] is run on them without targets, the logits of the
    final time step are taken, and the next token of each sequence is
    sampled from their softmax and appended to the sequence. *)
Definition sampling_step (training : bool) (m : LanguageModel)
    (idx : list (list nat)) (g : rng) (idx' : list (list nat)) (g' : rng) : Prop :=
  ∃ (logits : tensor3) (g1 : rng) (final : matrix) (next : list nat),
    forward training m (last_items block_size <$> idx) None g
      = Ok ((T3 logits, None), g1) ∧
    Forall2 (λ steps row, last steps = Some row) logits final ∧
    sample_rows ((λ row, softmax (Fin <$> row)) <$> final) g1 = (next, g') ∧
    idx' = zip_with (λ row t, row ++ [t]) idx next.

(** [max_new_tokens] steps, one after another. *)
Inductive sampling_steps (training : bool) (m : LanguageModel)
  : nat → list (list nat) → rng → list (list nat) → rng → Prop :=
  | sampling_done idx g :
      sampling_steps training m 0 idx g idx g
  | sampling_next n idx g idx1 g1 idx' g' :
      sampling_step training m idx g idx1 g1 →
      sampling_steps training m n idx1 g1 idx' g' →
      sampling_steps training m (S n) idx g idx' g'.
End LanguageModel.
End Modules.
End Net.

(** ** Data loading, loss estimation and the training loop
       (cells 7, 14, 16 and 24) *)

Module Train.
Import Torch NN Net.

(** [s.split(sep)] for a separator of one character: the pieces between
    the separators, one more than there are separators. *)
Fixpoint str_split (sep : N) (s : list N) : list (list N) :=
  match s with
  | [] => [[]]
  | c :: s' =>
      if decide (c = sep) then [] :: str_split sep s'
      else match str_split sep s' with
           | piece :: pieces => (c :: piece) :: pieces
           | [] => [[c]]
           end
  end.

(** The loop of cell 14 over [train_df.split('\n')]: the summed length of
    the elements and their number. *)
Definition sentence_lengths (train_df : list N) : nat * nat :=
  foldl (λ '(avg_length, sentence_count) element,
           (avg_length + length element, sentence_count + 1))
        (0, 0) (str_split 10%N train_df).

(** [avg_length / sentence_count], the quotient that cell 14 rounds and
    prints. *)
Definition avg_length (train_df : list N) : result Q :=
  let '(total, sentence_count) := sentence_lengths train_df in
  if decide (sentence_count = 0) then Raise ZeroDivisionError
  else Ok (Z.of_nat total # Pos.of_nat sentence_count)%Q.

(** The hyperparameters of cell 14, global variables of the notebook. *)
Record hyperparameters : Type := {
  batch_size : nat;
  block_size : nat;
  max_iters : nat;
  eval_interval : nat;
  learning_rate : Q;
  eval_iters : nat;
  n_embd : nat;
  n_head : nat;
  n_layer : nat;
  dropout : Q;
}.

Definition cell_14 : hyperparameters :=
  {| batch_size := 256; block_size := 64; max_iters := 1000; eval_interval := 100;
     learning_rate := (4 # 100)%Q; eval_iters := 100; n_embd := 64; n_head := 16;
     n_layer := 8; dropout := (2 # 10)%Q |}.

(** One row of the loss file. *)
Record LossRecord : Type := {
  iter : nat;
  train_loss : scalar;
  val_loss : scalar;
  BPC : scalar;
}.

(** [torch.randint(high, (n,))]: the bound must be positive. The callers
    compute the bound by a subtraction, read here as 0 when it is
    negative. *)
Definition torch_randint `{Random rng} (high n : nat) : M rng (list nat) :=
  if decide (high = 0) then lift (Raise RuntimeError)
  else for_each (λ _, draw (randint high)) (seq 0 n).

(** The values of [n] draws below [high] in a row, and the generator
    they leave. *)
Fixpoint randints `{Random rng} (high n : nat) (g : rng) : list nat * rng :=
  match n with
  | 0 => ([], g)
  | S n' =>
      let '(i, g1) := randint high g in
      let '(ix, g2) := randints high n' g1 in
      (i :: ix, g2)
  end.

(** [torch.stack(rows)]: at least one row, all of one length. *)
Definition torch_stack (rows : list (list nat)) : result (list (list nat)) :=
  match rows with
  | [] => Raise RuntimeError
  | r :: _ =>
      if decide (Forall (λ r', length r' = length r) rows) then Ok rows
      else Raise RuntimeError
  end.

(** [losses.mean()] of a tensor filled with [loss.item()] values: NaN as
    soon as one of them is. *)
Definition mean_scalars (l : list scalar) : scalar :=
  match mapM (λ s, match s with Real r => Some r | NaN => None end) l with
  | Some v => mean v
  | None => NaN
  end.

Definition scalar_div (s : scalar) (d : R) : scalar :=
  match s with
  | Real r => Real (r / d)
  | NaN => NaN
  end.

(** [loss.item()], [loss.backward()]: the loss must not be [None]. *)
Definition not_None {A} (o : option A) : result A :=
  match o with
  | Some a => Ok a
  | None => Raise AttributeError
  end.

Section Notebook.
Context `{Random rng}.

(** Hyperparameters, vocabulary size and the three encoded corpora. *)
Variable hp : hyperparameters.
Variable vocab_size : nat.
Variables train_encoded dev_encoded test_encoded : list nat.

(** Backpropagation and the steps of the optimizer and of the learning
    rate schedule: the parameters after one update on a batch. *)
Variable optimizer_step : LanguageModel → list (list nat) → list (list nat) → LanguageModel.

(** The [if]/[elif] chain of [get_batch]: a split of another name
    leaves [data] unbound. *)
Definition split_data (split : string) : result (list nat) :=
  if decide (split = "train") then Ok train_encoded
  else if decide (split = "dev") then Ok dev_encoded
  else if decide (split = "test") then Ok test_encoded
  else Raise UnboundLocalError.

Definition get_batch (split : string) : M rng (list (list nat) * list (list nat)) :=
  data ← lift (split_data split);
  ix ← torch_randint (length data - block_size hp) (batch_size hp);
  x ← lift (torch_stack ((λ i, slice data i (i + block_size hp)) <$> ix));
  y ← lift (torch_stack ((λ i, slice data (i + 1) (i + block_size hp + 1)) <$> ix));
  mret (x, y).

Definition model_call (training : bool) (model : LanguageModel)
    (idx : list (list nat)) (targets : option (list (list nat)))
  : M rng (tensor * option scalar) :=
  forward training model idx targets.

(** [estimate_loss(mode, model)]; both parameters are required. Between
    [model.eval()] and [model.train()] the model runs without dropout. *)
Definition estimate_loss (mode : option string) (model : option LanguageModel)
  : M rng (gmap string scalar) :=
  mode ← lift (required mode);
  model ← lift (required model);
  let splits := if decide (mode = "train") then ["train"; "dev"]
                else if decide (mode = "test") then ["test"]
                else [] in
  out ← for_each
          (λ split,
             losses ← for_each
               (λ _, '(X, Y) ← get_batch split;
                     '(logits, loss) ← model_call false model X (Some Y);
                     lift (not_None loss))
               (seq 0 (eval_iters hp));
             mret (split, mean_scalars losses))
          splits;
  mret (Vocab.dict_of out).

(** The losses of [k] evaluation batches of a split, one after another
    from the generator [g] on: each is the loss that [forward] returns, in
    evaluation mode, for a batch of [get_batch] and its targets. *)
Inductive batch_losses (model : LanguageModel) (split : string)
  : nat → rng → list scalar → rng → Prop :=
  | batch_losses_nil g :
      batch_losses model split 0 g [] g
  | batch_losses_cons k g X Y g1 logits loss g2 losses g' :
      get_batch split g = Ok ((X, Y), g1) →
      forward false model X (Some Y) g1 = Ok ((logits, Some loss), g2) →
      batch_losses model split k g2 losses g' →
      batch_losses model split (S k) g (loss :: losses) g'.

(** The evaluation inside the loop: [estimate_loss("train")], the
    bits per character, the row for the loss file. *)
Definition loss_row (it : nat) : M rng LossRecord :=
  losses ← estimate_loss (Some "train") None;
  dev ← lift (Vocab.getitem KStr losses "dev");
  let bpc := scalar_div dev (ln 2) in
  train ← lift (Vocab.getitem KStr losses "train");
  mret {| iter := it; train_loss := train; val_loss := dev; BPC := bpc |}.

(** The rest of the loop body: a batch, the forward pass, the update. *)
Definition train_step (model : LanguageModel) : M rng LanguageModel :=
  '(xb, yb) ← get_batch "train";
  '(logits, loss) ← model_call true model xb (Some yb);
  _ ← lift (not_None loss);
  mret (optimizer_step model xb yb).

(** The state of a run: the model, the rows appended to the loss file
    and the generator. *)
Record run_state : Type := {
  model : LanguageModel;
  loss_file : list LossRecord;
  gen : rng;
}.

(** One turn of the loop: the state it leaves and the exception that
    stopped it, if any. Rows written before the exception stay. *)
Definition iteration (it : nat) (s : run_state) : run_state * option exn :=
  match modulo it (eval_interval hp) with
  | Raise e => (s, Some e)
  | Ok r =>
      let logged :=
        if decide (r = 0 ∨ it = max_iters hp - 1) then
          match loss_row it (gen s) with
          | Ok (row, g) =>
              Ok {| model := model s; loss_file := loss_file s ++ [row]; gen := g |}
          | Raise e => Raise e
          end
        else Ok s in
      match logged with
      | Raise e => (s, Some e)
      | Ok s1 =>
          match train_step (model s1) (gen s1) with
          | Ok (m, g) => ({| model := m; loss_file := loss_file s1; gen := g |}, None)
          | Raise e => (s1, Some e)
          end
      end
  end.

(** [for iter in its: ...] *)
Fixpoint for_iter (its : list nat) (s : run_state) : run_state * option exn :=
  match its with
  | [] => (s, None)
  | it :: its' =>
      match iteration it s with
      | (s', None) => for_iter its' s'
      | (s', Some e) => (s', Some e)
      end
  end.

Definition training_loop (s : run_state) : run_state * option exn :=
  for_iter (seq 0 (max_iters hp)) s.

(** [OneCycleLR(optimizer, max_lr, steps_per_epoch, epochs)]: the number
    of steps, both factors of which must be positive. *)
Definition OneCycleLR (steps_per_epoch epochs : nat) : result nat :=
  if decide (epochs = 0 ∨ steps_per_epoch = 0) then Raise ValueError
  else Ok (epochs * steps_per_epoch).

(** Cell 24 from its first line: the model, the schedule, the loop. The
    result is the loss file and the exception that ended the cell. *)
Definition cell_24 (loss_file0 : list LossRecord) (g : rng)
  : list LossRecord * option exn :=
  match LanguageModel_init vocab_size (n_embd hp) (block_size hp) (n_head hp)
          (n_layer hp) g with
  | Raise e => (loss_file0, Some e)
  | Ok (m, g) =>
      match (n ← floordiv (length train_encoded) (batch_size hp);
             OneCycleLR n (max_iters hp)) with
      | Raise e => (loss_file0, Some e)
      | Ok _ =>
          let '(s, e) := training_loop
                           {| model := m; loss_file := loss_file0; gen := g |} in
          (loss_file s, e)
      end
  end.
End Notebook.
End Train.

(** ** Shapes

    The sizes the constructors give to the parameters; the optimizer
    changes the entries of a parameter, never its shape. *)

Module Shapes.
Import Torch NN Net.

Definition has_shape2 {A} (T C : nat) (m : list (list A)) : Prop :=
  length m = T ∧ Forall (λ r, length r = C) m.

Definition has_shape3 {A} (B T C : nat) (x : list (list (list A))) : Prop :=
  length x = B ∧ Forall (has_shape2 T C) x.

(** A rank-2 integer tensor with entries below [n]. *)
Definition entries_below (n : nat) (idx : list (list nat)) : Prop :=
  Forall (Forall (λ i, i < n)) idx.

Definition Linear_wf (i o : nat) (l : Linear) : Prop :=
  in_features l = i ∧ out_features l = o ∧ has_shape2 o i (weight l) ∧
  from_option (λ b, length b = o) True (bias l).

Definition Embedding_wf (n d : nat) (e : Embedding) : Prop :=
  num_embeddings e = n ∧ embedding_dim e = d ∧ has_shape2 n d (table e).

Definition LayerNorm_wf (n : nat) (ln : LayerNorm) : Prop :=
  normalized_shape ln = n ∧ length (gamma ln) = n ∧ length (beta ln) = n.

Definition Head_wf (head_size n_embd block_size : nat) (h : Head) : Prop :=
  Linear_wf n_embd head_size (key h) ∧ Linear_wf n_embd head_size (query h) ∧
  Linear_wf n_embd head_size (value h) ∧ tril h = tril_ones block_size.

Definition MultiHeadAttention_wf (num_heads head_size n_embd block_size : nat)
    (m : MultiHeadAttention) : Prop :=
  length (heads m) = num_heads ∧
  Forall (Head_wf head_size n_embd block_size) (heads m) ∧
  Linear_wf n_embd n_embd (proj m).

Definition FeedFoward_wf (n_embd : nat) (f : FeedFoward) : Prop :=
  Linear_wf n_embd (widening f * n_embd) (net_0 f) ∧
  Linear_wf (widening f * n_embd) n_embd (net_2 f).

Definition Block_wf (n_embd n_head block_size : nat) (b : Block) : Prop :=
  MultiHeadAttention_wf n_head (n_embd / n_head) n_embd block_size (sa b) ∧
  FeedFoward_wf n_embd (ffwd b) ∧
  LayerNorm_wf n_embd (ln1 b) ∧ LayerNorm_wf n_embd (ln2 b).

Definition LanguageModel_wf (vocab_size n_embd block_size n_head : nat)
    (m : LanguageModel) : Prop :=
  Embedding_wf vocab_size n_embd (token_embedding_table m) ∧
  Embedding_wf block_size n_embd (position_embedding_table m) ∧
  Forall (Block_wf n_embd n_head block_size) (blocks m) ∧
  LayerNorm_wf n_embd (ln_f m) ∧
  Linear_wf n_embd vocab_size (lm_head m).

(** The embedding size is positive, the head count is positive and
    divides it. *)
Definition heads_divide (n_embd n_head : nat) : Prop :=
  0 < n_embd ∧ 0 < n_head ∧ n_head * (n_embd / n_head) = n_embd.

(** Two tensors related entry by entry. *)
Definition pointwise3 {A B} (rel : A → B → Prop)
    (x : list (list (list A))) (y : list (list (list B))) : Prop :=
  Forall2 (Forall2 (Forall2 rel)) x y.

(** Dropout leaves a zero entry zero. *)
Definition keeps_zero (a b : R) : Prop := a = 0%R → b = 0%R.

(** Attention weights of shape (B, T, T) in which no position attends to
    a later one: the entry at row [t], column [t'] is zero for [t < t']. *)
Definition causal (wei : tensor3) : Prop :=
  ∀ b m t row t' w,
    wei !! b = Some m → m !! t = Some row → row !! t' = Some w → t < t' → w = 0%R.

(** One more token at the end of a row. *)
Definition extends (bound : nat → Prop) (row row' : list nat) : Prop :=
  ∃ t, row' = row ++ [t] ∧ bound t.

(** A probability the constructor of [nn.Dropout] accepts. *)
Definition probability (p : Q) : Prop := Qle_bool 0 p && Qle_bool p 1 = true.

(** A run that returns, whatever the generator, a value with a given
    property. *)
Definition returns {rng A} (m : M rng A) (P : A → Prop) : Prop :=
  ∀ g, ∃ a g', m g = Ok (a, g') ∧ P a.

(** A run that leaves the generator alone: it draws nothing, and its
    outcome is one result, whatever the generator. *)
Definition draws_nothing {rng A} (m : M rng A) : Prop :=
  ∃ r : result A, ∀ g, m g = lift r g.

(** Two runs that both return without drawing, with related values. *)
Definition both_return {rng A B} (rel : A → B → Prop) (c : M rng A) (c' : M rng B)
  : Prop :=
  ∀ g, ∃ a b, c g = Ok (a, g) ∧ c' g = Ok (b, g) ∧ rel a b.

(** [x[:, :n]]: the first [n] positions of every batch element. *)
Definition first_positions {A} (n : nat) (x : list (list A)) : list (list A) :=
  take n <$> x.

(** [m[:n, :n]]: the first [n] columns of the first [n] rows. *)
Definition upper_left {A} (n : nat) (m : list (list A)) : list (list A) :=
  take n <$> take n m.

(** A row of probabilities: none is negative and they sum to 1. *)
Definition distribution (row : vector) : Prop :=
  Forall (λ p, (0 <= p)%R) row ∧ sum row = 1%R.

End Shapes.

(** ** A generator and parameters for the examples *)

Module Counter.
(** A counter, whose draws are fixed. *)
#[global] Instance counter_random : Random nat := {|
  uniform g := (0%R, S g);
  bernoulli _ g := (true, S g);
  multinomial probs g := (g mod length probs, S g);
  randint high g := (g mod high, S g);
|}.
End Counter.

(** A generator that reads its draws off the digits of a number: a draw
    below [high] returns the last digit in base [high] and leaves the
    digits before it. *)
Module Digits.
Record digits : Type := Digits { number : nat }.

#[export] Instance digits_random : Random digits := {|
  uniform g := (0%R, g);
  bernoulli _ g := (true, g);
  multinomial probs g :=
    (number g mod length probs, Digits (number g / length probs));
  randint high g := (number g mod high, Digits (number g / high));
|}.
End Digits.

Module Examples.
Import Torch NN Net.

Definition zeros (rows cols : nat) : matrix := replicate rows (replicate cols 0%R).

Definition linear (i o : nat) (b : bool) : Linear :=
  {| in_features := i; out_features := o; weight := zeros o i;
     bias := if b then Some (replicate o 0%R) else None |}.

Definition embedding (n d : nat) : Embedding :=
  {| num_embeddings := n; embedding_dim := d; table := zeros n d |}.

Definition head (head_size n_embd block_size : nat) : Head :=
  {| key := linear n_embd head_size false; query := linear n_embd head_size false;
     value := linear n_embd head_size false; tril := tril_ones block_size;
     head_dropout := {| drop_p := (1 # 10)%Q |} |}.

Definition block (n_embd n_head block_size : nat) : Block :=
  {| sa := {| heads := replicate n_head (head (n_embd / n_head) n_embd block_size);
              proj := linear n_embd n_embd true;
              multi_dropout := {| drop_p := (1 # 10)%Q |} |};
     ffwd := {| widening := 4; net_0 := linear n_embd (4 * n_embd) true;
                net_2 := linear (4 * n_embd) n_embd true;
                net_3 := {| drop_p := (1 # 10)%Q |} |};
     ln1 := nn_LayerNorm n_embd; ln2 := nn_LayerNorm n_embd;
     block_dropout := {| drop_p := (1 # 10)%Q |} |}.

(** A model of the given sizes whose weights are all zero. *)
Definition model (vocab_size n_embd block_size n_head n_layer : nat) : LanguageModel :=
  {| token_embedding_table := embedding vocab_size n_embd;
     position_embedding_table := embedding block_size n_embd;
     blocks := replicate n_layer (block n_embd n_head block_size);
     ln_f := nn_LayerNorm n_embd;
     lm_head := linear n_embd vocab_size true |}.

(** A head of size 1 on embeddings of size 4 that reads the first
    coordinate, and an input of one position. *)
Definition first_coordinate : Linear :=
  {| in_features := 4; out_features := 1; weight := [[1; 0; 0; 0]]%R; bias := None |}.

Definition narrow_head : Head :=
  {| key := first_coordinate; query := first_coordinate; value := first_coordinate;
     tril := tril_ones 1; head_dropout := {| drop_p := (1 # 10)%Q |} |}.

Definition one_position : tensor3 := [[[1; 0; 0; 0]]]%R.

(** The corpus "aabb" over the vocabulary a = 0, b = 1, windows of 2
    tokens, batches of 1 row. *)
Definition aabb : Train.hyperparameters :=
  {| Train.batch_size := 1; Train.block_size := 2; Train.max_iters := 1;
     Train.eval_interval := 1; Train.learning_rate := (4 # 100)%Q;
     Train.eval_iters := 1; Train.n_embd := 2; Train.n_head := 1;
     Train.n_layer := 1; Train.dropout := (2 # 10)%Q |}.


(** The corpus "aabb" again, in batches of 2 rows. *)
Definition aabb_two_rows : Train.hyperparameters :=
  {| Train.batch_size := 2; Train.block_size := 2; Train.max_iters := 1;
     Train.eval_interval := 1; Train.learning_rate := (4 # 100)%Q;
     Train.eval_iters := 1; Train.n_embd := 2; Train.n_head := 1;
     Train.n_layer := 1; Train.dropout := (2 # 10)%Q |}.
End Examples.

(** * Properties *)

(** ** Results *)

Lemma comprehension_cons {A B} (f : A → result B) x l :
  comprehension f (x :: l) =
  match f x with
  | Ok y => match comprehension f l with
            | Ok ys => Ok (y :: ys)
            | Raise e => Raise e
            end
  | Raise e => Raise e
  end.
Proof. simpl. by destruct (f x). Qed.

Lemma comprehension_ok_lookup {A B} (f : A → result B) l ys i x :
  comprehension f l = Ok ys → l !! i = Some x →
  ∃ y, ys !! i = Some y ∧ f x = Ok y.
Proof.
  revert ys i. induction l as [|a l IH]; intros ys i; simpl; [done|].
  destruct (f a) as [y|e] eqn:Hfa; simpl; [|done].
  destruct (comprehension f l) as [ys'|e]; simpl; [|done].
  intros [= <-] Hi. destruct i as [|i]; simpl in *.
  - injection Hi as ->. eauto.
  - by apply IH.
Qed.

Lemma comprehension_raise {A B} (f : A → result B) l e :
  comprehension f l = Raise e → ∃ x, x ∈ l ∧ f x = Raise e.
Proof.
  induction l as [|a l IH]; simpl; [done|].
  destruct (f a) as [y|e'] eqn:Hfa; simpl.
  - destruct (comprehension f l) as [ys'|e']; simpl; [done|].
    intros [= ->]. destruct IH as (x & ? & ?); [done|]. exists x. set_solver.
  - intros [= ->]. exists a. set_solver.
Qed.

(** ** Runs that return *)

Section Returns.
Context {rng : Type}.
Import Shapes.

Lemma returns_ret {A} (a : A) (P : A → Prop) :
  P a → returns (rng:=rng) (mret a) P.
Proof. intros HP g. by exists a, g. Qed.

Lemma returns_bind {A B} (m : M rng A) (k : A → M rng B) P Q :
  returns m P → (∀ a, P a → returns (k a) Q) → returns (m ≫= k) Q.
Proof.
  intros Hm Hk g. destruct (Hm g) as (a & g' & Hg & Ha).
  destruct (Hk a Ha g') as (b & g'' & Hg' & Hb).
  exists b, g''. split; [|done].
  unfold mbind, M_bind. by rewrite Hg.
Qed.

Lemma returns_lift {A} (r : result A) (a : A) (P : A → Prop) :
  r = Ok a → P a → returns (rng:=rng) (lift r) P.
Proof. intros -> HP g. by exists a, g. Qed.

Lemma returns_draw {A} (f : rng → A * rng) (P : A → Prop) :
  (∀ g, P (f g).1) → returns (draw f) P.
Proof.
  intros HP g. exists (f g).1, (f g).2. split; [|done].
  unfold draw. by destruct (f g).
Qed.

Lemma returns_mono {A} (m : M rng A) (P Q : A → Prop) :
  returns m P → (∀ a, P a → Q a) → returns m Q.
Proof.
  intros Hm HPQ g. destruct (Hm g) as (a & g' & ? & ?). exists a, g'. auto.
Qed.

Lemma returns_for_each {A B} (f : A → M rng B) (Q : A → B → Prop) l :
  Forall (λ x, returns (f x) (Q x)) l →
  returns (for_each f l) (Forall2 Q l).
Proof.
  induction 1 as [|x l Hx _ IH]; simpl.
  - apply returns_ret. constructor.
  - eapply returns_bind; [exact Hx|]. intros y Hy.
    eapply returns_bind; [exact IH|]. intros ys Hys.
    apply returns_ret. by constructor.
Qed.

Lemma returns_required {A} (a : A) :
  returns (rng:=rng) (lift (required (Some a))) (λ x, x = a).
Proof. by eapply returns_lift. Qed.

(** A run that raises for every generator. *)
Lemma bind_raises {A B} (m : M rng A) (k : A → M rng B) e g :
  m g = Raise e → (m ≫= k) g = Raise e.
Proof. intros Hm. unfold mbind, M_bind. by rewrite Hm. Qed.

Lemma bind_returns {A B} (m : M rng A) (k : A → M rng B) a g g' :
  m g = Ok (a, g') → (m ≫= k) g = k a g'.
Proof. intros Hm. unfold mbind, M_bind. by rewrite Hm. Qed.
End Returns.

(** A step whose value [x] is known: the run goes on with [x]. *)
Ltac bind_lifted x :=
  eapply returns_bind;
  [by eapply (returns_lift _ _ (λ a, a = x))|];
  intros ? ->.

(** ** Shapes of comprehensions *)

Section ShapeFacts.
Import Torch Shapes.

Lemma comprehension_Forall2 {A B} (f : A → result B) (Q : A → B → Prop) l :
  Forall (λ x, ∃ y, f x = Ok y ∧ Q x y) l →
  ∃ ys, comprehension f l = Ok ys ∧ Forall2 Q l ys.
Proof.
  induction 1 as [|x l (y & Hy & HQ) _ (ys & Hys & HF)].
  - exists []. split; [done|constructor].
  - exists (y :: ys). rewrite comprehension_cons, Hy, Hys.
    split; [done|by constructor].
Qed.

Lemma Forall2_const_r {A B} (P : B → Prop) (l : list A) (k : list B) :
  Forall2 (λ _ y, P y) l k → Forall P k.
Proof. induction 1; by constructor. Qed.

(** An operation on the rows of a matrix, of a rank-3 tensor. *)
Lemma rows_shape2 {A B} (f : list A → result (list B)) (T C C' : nat) m :
  (∀ r, length r = C → ∃ r', f r = Ok r' ∧ length r' = C') →
  has_shape2 T C m →
  ∃ m', comprehension f m = Ok m' ∧ has_shape2 T C' m'.
Proof.
  intros Hf [Hlen Hrows].
  destruct (comprehension_Forall2 f (λ _ r', length r' = C') m) as (m' & Hm' & HF).
  { eapply Forall_impl; [exact Hrows|]. simpl. intros r Hr. by apply Hf. }
  exists m'. split; [done|]. split.
  - apply Forall2_length in HF. lia.
  - by eapply Forall2_const_r.
Qed.

Lemma rows_shape3 {A B} (f : list A → result (list B)) (N T C C' : nat) x :
  (∀ r, length r = C → ∃ r', f r = Ok r' ∧ length r' = C') →
  has_shape3 N T C x →
  ∃ x', comprehension (comprehension f) x = Ok x' ∧ has_shape3 N T C' x'.
Proof.
  intros Hf [Hlen Hms].
  destruct (comprehension_Forall2 (comprehension f)
              (λ _ m', has_shape2 T C' m') x) as (x' & Hx' & HF).
  { eapply Forall_impl; [exact Hms|]. simpl. intros m Hm.
    by eapply rows_shape2. }
  exists x'. split; [done|]. split.
  - apply Forall2_length in HF. lia.
  - by eapply Forall2_const_r.
Qed.

Lemma map2_shape {A B} (f : A → B) (T C : nat) (m : list (list A)) :
  has_shape2 T C m → has_shape2 T C (map2 f m).
Proof.
  intros [Hlen Hrows]. split.
  - unfold map2. by rewrite length_fmap.
  - unfold map2. apply Forall_fmap. eapply Forall_impl; [exact Hrows|].
    simpl. intros r Hr. by rewrite length_fmap.
Qed.

Lemma map3_shape {A B} (f : A → B) (N T C : nat) (x : list (list (list A))) :
  has_shape3 N T C x → has_shape3 N T C (map3 f x).
Proof.
  intros [Hlen Hms]. split.
  - unfold map3. by rewrite length_fmap.
  - unfold map3. apply Forall_fmap. eapply Forall_impl; [exact Hms|].
    simpl. intros m Hm. by apply map2_shape.
Qed.

Lemma has_shape3_hd {A} (N T C : nat) (x : list (list (list A))) :
  has_shape3 N T C x → 0 < N → length (hd [] x) = T.
Proof.
  intros [Hlen Hms] HN. destruct x as [|m x]; simpl in *; [lia|].
  apply Forall_cons in Hms as [[Hm _] _]. done.
Qed.
End ShapeFacts.

(** ** Vocabulary *)

Module VocabFacts.
Import Vocab.

Lemma dict_of_snoc `{Countable K} {V} (items : list (K * V)) k v :
  dict_of (items ++ [(k, v)]) = <[k := v]> (dict_of items).
Proof. unfold dict_of. by rewrite foldl_app. Qed.

Lemma enumerate_snoc {A} (l : list A) x :
  enumerate (l ++ [x]) = enumerate l ++ [(length l, x)].
Proof.
  unfold enumerate. rewrite imap_app. simpl. by rewrite Nat.add_0_r.
Qed.

(** The index dictionary of a list reads the list. *)
Lemma int_dict_lookup {A} (l : list A) i :
  dict_of (enumerate l) !! i = l !! i.
Proof.
  induction l as [|x l IH] using rev_ind; [done|].
  rewrite enumerate_snoc, dict_of_snoc.
  destruct (decide (i = length l)) as [->|Hne].
  - rewrite lookup_insert_eq. by rewrite list_lookup_middle.
  - rewrite lookup_insert_ne by done. rewrite IH.
    destruct (decide (i < length l)).
    + by rewrite lookup_app_l.
    + rewrite !lookup_ge_None_2; [done| |lia].
      rewrite length_app. simpl. lia.
Qed.

(** The position dictionary of a duplicate-free list inverts it. *)
Lemma pos_dict_lookup `{Countable A} (l : list A) x i :
  NoDup l →
  dict_of (prod_swap <$> enumerate l) !! x = Some i ↔ l !! i = Some x.
Proof.
  induction l as [|y l IH] using rev_ind; intros Hnd.
  - done.
  - apply NoDup_app in Hnd as (Hnd & Hfresh & _).
    rewrite enumerate_snoc, fmap_app. simpl. rewrite dict_of_snoc.
    destruct (decide (x = y)) as [->|Hne].
    + rewrite lookup_insert_eq. split.
      * intros [= <-]. by rewrite list_lookup_middle.
      * intros Hi. f_equal.
        destruct (decide (i < length l)) as [Hlt|Hge].
        -- rewrite lookup_app_l in Hi by done.
           exfalso. eapply Hfresh; [|by left].
           by eapply list_elem_of_lookup_2.
        -- apply lookup_lt_Some in Hi. rewrite length_app in Hi.
           simpl in Hi. lia.
    + rewrite lookup_insert_ne by done. rewrite IH by done. split.
      * intros Hi. rewrite lookup_app_l; [done|]. by eapply lookup_lt_Some.
      * intros Hi. destruct (decide (i < length l)) as [Hlt|Hge].
        -- by rewrite lookup_app_l in Hi.
        -- assert (i = length l) as ->.
           { apply lookup_lt_Some in Hi. rewrite length_app in Hi.
             simpl in Hi. lia. }
           rewrite list_lookup_middle in Hi by done. congruence.
Qed.

Section Tokenizer.
Variable train_df : list N.

Lemma used_chars_perm :
  used_chars train_df ≡ₚ elements (list_to_set train_df : gset N).
Proof. apply merge_sort_Permutation. Qed.

Lemma used_chars_NoDup : NoDup (used_chars train_df).
Proof. rewrite used_chars_perm. apply NoDup_elements. Qed.

Lemma used_chars_elem c : c ∈ used_chars train_df ↔ c ∈ train_df.
Proof.
  rewrite used_chars_perm, elem_of_elements. apply elem_of_list_to_set.
Qed.

Lemma used_chars_sorted : StronglySorted N.le (used_chars train_df).
Proof.
  apply StronglySorted_merge_sort.
  - intros x y z. apply N.le_trans.
  - intros x y. apply N.le_ge_cases.
Qed.

Lemma char_to_int_spec c i :
  char_to_int train_df !! c = Some i ↔ used_chars train_df !! i = Some c.
Proof. apply pos_dict_lookup, used_chars_NoDup. Qed.

Lemma int_to_char_spec i :
  int_to_char train_df !! i = used_chars train_df !! i.
Proof. apply int_dict_lookup. Qed.

Lemma char_to_int_known c :
  c ∈ train_df → ∃ i, char_to_int train_df !! c = Some i ∧
                      int_to_char train_df !! i = Some c.
Proof.
  intros Hc. apply used_chars_elem, list_elem_of_lookup in Hc as [i Hi].
  exists i. by rewrite char_to_int_spec, int_to_char_spec.
Qed.

Lemma char_to_int_unknown c :
  c ∉ train_df → char_to_int train_df !! c = None.
Proof.
  intros Hc. destruct (char_to_int train_df !! c) as [i|] eqn:Hi; [|done].
  apply char_to_int_spec in Hi. exfalso. apply Hc, used_chars_elem.
  by eapply list_elem_of_lookup_2.
Qed.
End Tokenizer.
End VocabFacts.

(** ** Constructors *)

Module InitFacts.
Import Torch NN Net Shapes.

Section Init.
Context `{Random rng}.

Lemma returns_repeat {A B} (f : M rng B) (P : B → Prop) (l : list A) :
  returns f P →
  returns (for_each (λ _, f) l) (λ ys, length ys = length l ∧ Forall P ys).
Proof.
  intros Hf. eapply returns_mono.
  - apply (returns_for_each _ (λ _ y, P y)). by apply Forall_forall.
  - intros ys HF. split.
    + symmetry. by eapply Forall2_length.
    + by eapply Forall2_const_r.
Qed.

Lemma random_matrix_returns (rows cols : nat) :
  returns (for_each (λ _, for_each (λ _, draw uniform) (seq 0 cols)) (seq 0 rows))
          (has_shape2 (A:=R) rows cols).
Proof.
  eapply returns_mono.
  - apply returns_repeat with (P := λ r : list R, length r = cols).
    eapply returns_mono.
    + apply returns_repeat with (P := λ _ : R, True).
      by apply returns_draw.
    + intros r [Hr _]. by rewrite Hr, length_seq.
  - intros m [Hm Hrows]. split; [|done]. by rewrite Hm, length_seq.
Qed.

Lemma nn_Linear_returns (i o : nat) (b : bool) :
  returns (nn_Linear i o b) (Linear_wf i o).
Proof.
  unfold nn_Linear.
  eapply returns_bind; [apply random_matrix_returns|]. intros w Hw.
  eapply returns_bind with (P := from_option (λ v : vector, length v = o) True).
  - destruct b.
    + eapply returns_bind.
      * apply returns_repeat with (P := λ _ : R, True). by apply returns_draw.
      * intros v [Hv _]. apply returns_ret. simpl. by rewrite Hv, length_seq.
    + by apply returns_ret.
  - intros ob Hob. apply returns_ret. unfold Linear_wf. simpl. by split_and!.
Qed.

Lemma nn_Embedding_returns (n d : nat) :
  returns (nn_Embedding n d) (Embedding_wf n d).
Proof.
  unfold nn_Embedding.
  eapply returns_bind; [apply random_matrix_returns|]. intros w Hw.
  apply returns_ret. unfold Embedding_wf. simpl. by split_and!.
Qed.

Lemma nn_LayerNorm_wf (n : nat) : LayerNorm_wf n (nn_LayerNorm n).
Proof. repeat split; simpl; by rewrite length_replicate. Qed.

Lemma nn_Dropout_ok (p : Q) :
  probability p → nn_Dropout p = Ok {| drop_p := p |}.
Proof. unfold probability, nn_Dropout. by intros ->. Qed.

Lemma nn_Dropout_refuses (p : Q) :
  ¬ probability p → nn_Dropout p = Raise ValueError.
Proof.
  unfold probability, nn_Dropout.
  by destruct (Qle_bool 0 p && Qle_bool p 1).
Qed.

Lemma Head_init_returns (head_size n_embd block_size : nat) (p : Q) :
  probability p →
  returns (Head_init (Some head_size) (Some n_embd) (Some block_size) (Some p))
          (Head_wf head_size n_embd block_size).
Proof.
  intros Hp. unfold Head_init.
  eapply returns_bind; [apply returns_required|]. intros ? ->.
  eapply returns_bind; [apply returns_required|]. intros ? ->.
  eapply returns_bind; [apply returns_required|]. intros ? ->.
  simpl.
  eapply returns_bind; [apply nn_Linear_returns|]. intros k Hk.
  eapply returns_bind; [apply nn_Linear_returns|]. intros q Hq.
  eapply returns_bind; [apply nn_Linear_returns|]. intros v Hv.
  eapply returns_bind.
  { eapply returns_lift with (P := λ _, True); [by apply nn_Dropout_ok|done]. }
  intros d _. apply returns_ret. unfold Head_wf. simpl. by split_and!.
Qed.

Lemma MultiHeadAttention_init_returns
    (num_heads head_size n_embd block_size : nat) (hp mp : Q) :
  probability hp → probability mp →
  returns (MultiHeadAttention_init (Some num_heads) (Some head_size) (Some n_embd)
             (Some block_size) (Some hp) (Some mp))
          (MultiHeadAttention_wf num_heads head_size n_embd block_size).
Proof.
  intros Hhp Hmp. unfold MultiHeadAttention_init.
  eapply returns_bind; [apply returns_required|]. intros ? ->.
  eapply returns_bind; [apply returns_required|]. intros ? ->.
  eapply returns_bind; [apply returns_required|]. intros ? ->.
  eapply returns_bind; [apply returns_required|]. intros ? ->.
  simpl.
  eapply returns_bind.
  { apply returns_repeat. by apply Head_init_returns. }
  intros hs [Hlen Hhs]. rewrite length_seq in Hlen.
  eapply returns_bind; [apply nn_Linear_returns|]. intros pr Hpr.
  eapply returns_bind.
  { eapply returns_lift with (P := λ _, True); [by apply nn_Dropout_ok|done]. }
  intros d _. apply returns_ret. unfold MultiHeadAttention_wf. simpl. by split_and!.
Qed.

Lemma FeedFoward_init_returns (n_embd wide : nat) (p : Q) :
  probability p →
  returns (FeedFoward_init (Some n_embd) (Some wide) (Some p))
          (λ f, widening f = wide ∧ FeedFoward_wf n_embd f).
Proof.
  intros Hp. unfold FeedFoward_init.
  eapply returns_bind; [apply returns_required|]. intros ? ->.
  simpl.
  eapply returns_bind; [apply nn_Linear_returns|]. intros l0 Hl0.
  eapply returns_bind; [apply nn_Linear_returns|]. intros l2 Hl2.
  eapply returns_bind.
  { eapply returns_lift with (P := λ _, True); [by apply nn_Dropout_ok|done]. }
  intros d _. apply returns_ret. unfold FeedFoward_wf. simpl. by split_and!.
Qed.

Lemma one_tenth_probability : probability (1 # 10).
Proof. reflexivity. Qed.

(** [Block.__init__] with the default widening and dropout rates. *)
Lemma Block_init_returns (n_embd n_head block_size : nat) :
  n_head ≠ 0 →
  returns (Block_init (Some n_embd) (Some n_head) (Some block_size)
             None None None None None)
          (Block_wf n_embd n_head block_size).
Proof.
  intros Hn. unfold Block_init.
  eapply returns_bind; [apply returns_required|]. intros ? ->.
  eapply returns_bind; [apply returns_required|]. intros ? ->.
  eapply returns_bind; [apply returns_required|]. intros ? ->.
  simpl.
  eapply returns_bind.
  { eapply returns_lift with (P := λ hs, hs = n_embd / n_head); [|done].
    unfold floordiv. by rewrite decide_False. }
  intros ? ->.
  eapply returns_bind.
  { apply MultiHeadAttention_init_returns; apply one_tenth_probability. }
  intros sa Hsa.
  eapply returns_bind.
  { apply FeedFoward_init_returns, one_tenth_probability. }
  intros ff [_ Hff].
  eapply returns_bind.
  { eapply returns_lift with (P := λ _, True);
      [by apply nn_Dropout_ok, one_tenth_probability|done]. }
  intros d _. apply returns_ret.
  unfold Block_wf. simpl. split_and!; try done; apply nn_LayerNorm_wf.
Qed.

Lemma Block_init_zero_heads (n_embd block_size : nat) g :
  Block_init (Some n_embd) (Some 0) (Some block_size) None None None None None g
  = Raise ZeroDivisionError.
Proof. reflexivity. Qed.

(** A call that leaves [block_size] out. *)
Lemma Block_init_missing_block_size (n_embd n_head : option nat) g :
  Block_init n_embd n_head None None None None None None g = Raise TypeError.
Proof. by destruct n_embd, n_head. Qed.

(** A run whose first step returns and whose next step raises. *)
Lemma returns_then_raises {A B} (m : M rng A) (k : A → M rng B) (P : A → Prop) e :
  returns m P → (∀ a, P a → ∀ g, k a g = Raise e) → ∀ g, (m ≫= k) g = Raise e.
Proof.
  intros Hm Hk g. destruct (Hm g) as (a & g' & Ha & HP).
  unfold mbind, M_bind. rewrite Ha. by apply Hk.
Qed.

Lemma probability_dec (p : Q) : probability p ∨ ¬ probability p.
Proof. unfold probability. destruct (Qle_bool 0 p && Qle_bool p 1); [by left|by right]. Qed.

(** A dropout rate outside [0, 1] is refused with [ValueError] by the
    constructor that builds the [nn.Dropout] layer. *)
Lemma Head_init_refuses (head_size n_embd block_size : nat) (p : Q) g :
  ¬ probability p →
  Head_init (Some head_size) (Some n_embd) (Some block_size) (Some p) g
  = Raise ValueError.
Proof.
  intros Hp. revert g. unfold Head_init.
  eapply returns_then_raises; [apply returns_required|]. intros ? ->.
  eapply returns_then_raises; [apply returns_required|]. intros ? ->.
  eapply returns_then_raises; [apply returns_required|]. intros ? ->.
  simpl.
  eapply returns_then_raises; [apply nn_Linear_returns|]. intros k _.
  eapply returns_then_raises; [apply nn_Linear_returns|]. intros q _.
  eapply returns_then_raises; [apply nn_Linear_returns|]. intros v _.
  intros g. apply bind_raises. by rewrite nn_Dropout_refuses.
Qed.

Lemma MultiHeadAttention_init_refuses
    (num_heads head_size n_embd block_size : nat) (hp mp : Q) g :
  (num_heads ≠ 0 ∧ ¬ probability hp) ∨ (probability hp ∧ ¬ probability mp) →
  MultiHeadAttention_init (Some num_heads) (Some head_size) (Some n_embd)
    (Some block_size) (Some hp) (Some mp) g
  = Raise ValueError.
Proof.
  intros Hbad. revert g. unfold MultiHeadAttention_init.
  eapply returns_then_raises; [apply returns_required|]. intros ? ->.
  eapply returns_then_raises; [apply returns_required|]. intros ? ->.
  eapply returns_then_raises; [apply returns_required|]. intros ? ->.
  eapply returns_then_raises; [apply returns_required|]. intros ? ->.
  simpl. destruct Hbad as [[Hn Hhp]|[Hhp Hmp]].
  - intros g. apply bind_raises.
    destruct num_heads as [|n]; [done|]. simpl seq. simpl for_each.
    apply bind_raises. by apply Head_init_refuses.
  - eapply returns_then_raises.
    { apply returns_repeat. by apply Head_init_returns. }
    intros hs _.
    eapply returns_then_raises; [apply nn_Linear_returns|]. intros pr _.
    intros g. apply bind_raises. by rewrite nn_Dropout_refuses.
Qed.

Lemma FeedFoward_init_refuses (n_embd wide : nat) (p : Q) g :
  ¬ probability p →
  FeedFoward_init (Some n_embd) (Some wide) (Some p) g = Raise ValueError.
Proof.
  intros Hp. revert g. unfold FeedFoward_init.
  eapply returns_then_raises; [apply returns_required|]. intros ? ->.
  simpl.
  eapply returns_then_raises; [apply nn_Linear_returns|]. intros l0 _.
  eapply returns_then_raises; [apply nn_Linear_returns|]. intros l2 _.
  intros g. apply bind_raises. by rewrite nn_Dropout_refuses.
Qed.

(** [Block.__init__] with any widening and any dropout rates in [0, 1]. *)
Lemma Block_init_rates_return (n_embd n_head block_size : nat) (widen : option nat)
    (head_dropout multi_dropout ff_dropout block_dropout : option Q) :
  n_head ≠ 0 →
  Forall probability
    (default (1 # 10)%Q <$> [head_dropout; multi_dropout; ff_dropout; block_dropout]) →
  returns (Block_init (Some n_embd) (Some n_head) (Some block_size) widen
             head_dropout multi_dropout ff_dropout block_dropout)
          (λ b, Block_wf n_embd n_head block_size b ∧
                widening (ffwd b) = default 4 widen).
Proof.
  intros Hn Hrates.
  apply Forall_cons in Hrates as [Hh Hrates].
  apply Forall_cons in Hrates as [Hm Hrates].
  apply Forall_cons in Hrates as [Hf Hrates].
  apply Forall_cons in Hrates as [Hb _].
  unfold Block_init.
  eapply returns_bind; [apply returns_required|]. intros ? ->.
  eapply returns_bind; [apply returns_required|]. intros ? ->.
  eapply returns_bind; [apply returns_required|]. intros ? ->.
  cbv zeta.
  eapply returns_bind.
  { eapply returns_lift with (P := λ hs, hs = n_embd / n_head); [|done].
    unfold floordiv. by rewrite decide_False. }
  intros ? ->.
  eapply returns_bind; [by apply MultiHeadAttention_init_returns|].
  intros sa Hsa.
  eapply returns_bind; [by apply FeedFoward_init_returns|].
  intros ff [Hwide Hff].
  eapply returns_bind.
  { eapply returns_lift with (P := λ _, True); [by apply nn_Dropout_ok|done]. }
  intros d _. apply returns_ret.
  unfold Block_wf. simpl. split_and!; try done; apply nn_LayerNorm_wf.
Qed.

(** [Block.__init__] with a dropout rate outside [0, 1]. *)
Lemma Block_init_refuses (n_embd n_head block_size : nat) (widen : option nat)
    (head_dropout multi_dropout ff_dropout block_dropout : option Q) g :
  n_head ≠ 0 →
  ¬ Forall probability
      (default (1 # 10)%Q <$> [head_dropout; multi_dropout; ff_dropout; block_dropout]) →
  Block_init (Some n_embd) (Some n_head) (Some block_size) widen
    head_dropout multi_dropout ff_dropout block_dropout g
  = Raise ValueError.
Proof.
  intros Hn Hrates. revert g. unfold Block_init.
  eapply returns_then_raises; [apply returns_required|]. intros ? ->.
  eapply returns_then_raises; [apply returns_required|]. intros ? ->.
  eapply returns_then_raises; [apply returns_required|]. intros ? ->.
  cbv zeta.
  eapply returns_then_raises.
  { eapply returns_lift with (P := λ hs, hs = n_embd / n_head); [|done].
    unfold floordiv. by rewrite decide_False. }
  intros ? ->.
  destruct (probability_dec (default (1 # 10)%Q head_dropout)) as [Hh|Hh];
    [|intros g; apply bind_raises; apply MultiHeadAttention_init_refuses; by left].
  destruct (probability_dec (default (1 # 10)%Q multi_dropout)) as [Hm|Hm];
    [|intros g; apply bind_raises; apply MultiHeadAttention_init_refuses; by right].
  eapply returns_then_raises; [by apply MultiHeadAttention_init_returns|].
  intros sa _.
  destruct (probability_dec (default (1 # 10)%Q ff_dropout)) as [Hf|Hf];
    [|intros g; apply bind_raises; by apply FeedFoward_init_refuses].
  eapply returns_then_raises; [by apply FeedFoward_init_returns|].
  intros ff _.
  destruct (probability_dec (default (1 # 10)%Q block_dropout)) as [Hb|Hb];
    [|intros g; apply bind_raises; by rewrite nn_Dropout_refuses].
  destruct Hrates. simpl. by repeat constructor.
Qed.

Lemma Block_init_no_heads (n_embd block_size : nat) (widen : option nat)
    (head_dropout multi_dropout ff_dropout block_dropout : option Q) g :
  Block_init (Some n_embd) (Some 0) (Some block_size) widen
    head_dropout multi_dropout ff_dropout block_dropout g
  = Raise ZeroDivisionError.
Proof. reflexivity. Qed.
End Init.
End InitFacts.

(** ** Layers *)

Module LayerFacts.
Import Torch NN Shapes.

Lemma pointwise3_shape {A B} (rel : A → B → Prop) x y (N T C : nat) :
  pointwise3 rel x y → has_shape3 N T C x → has_shape3 N T C y.
Proof.
  intros Hxy [Hlen Hms]. split.
  - by rewrite <- (Forall2_length _ _ _ Hxy).
  - clear Hlen. induction Hxy as [|m m' x y Hmm' _ IH]; [constructor|].
    apply Forall_cons in Hms as [[Hm Hrows] Hms]. constructor; [|by apply IH].
    split.
    + by rewrite <- (Forall2_length _ _ _ Hmm').
    + clear Hm. induction Hmm' as [|r r' m m' Hrr' _ IH']; [constructor|].
      apply Forall_cons in Hrows as [Hr Hrows]. constructor; [|by apply IH'].
      by rewrite <- (Forall2_length _ _ _ Hrr').
Qed.

Lemma pointwise3_refl {A} (rel : A → A → Prop) x :
  (∀ a, rel a a) → pointwise3 rel x x.
Proof.
  intros Hrel. unfold pointwise3.
  apply Forall2_same_length_lookup. split; [done|].
  intros i m m' Hm Hm'. assert (m' = m) as -> by congruence.
  apply Forall2_same_length_lookup. split; [done|].
  intros j r r' Hr Hr'. assert (r' = r) as -> by congruence.
  apply Forall2_same_length_lookup. split; [done|].
  intros k a a' Ha Ha'. assert (a' = a) as -> by congruence. apply Hrel.
Qed.

Lemma pointwise3_map3 {A B} (rel : A → B → Prop) (f : A → B) x :
  (∀ a, rel a (f a)) → pointwise3 rel x (map3 f x).
Proof.
  intros Hrel. unfold pointwise3, map3, map2.
  apply Forall2_fmap_r, Forall_Forall2_diag, Forall_forall. intros m _.
  apply Forall2_fmap_r, Forall_Forall2_diag, Forall_forall. intros r _.
  apply Forall2_fmap_r, Forall_Forall2_diag, Forall_forall. intros a _.
  apply Hrel.
Qed.

Lemma pointwise3_lookup {A B} (rel : A → B → Prop) x y b m' t r' c w' :
  pointwise3 rel x y →
  y !! b = Some m' → m' !! t = Some r' → r' !! c = Some w' →
  ∃ m r w, x !! b = Some m ∧ m !! t = Some r ∧ r !! c = Some w ∧ rel w w'.
Proof.
  intros Hxy Hb Ht Hc.
  destruct (Forall2_lookup_r _ _ _ _ _ Hxy Hb) as (m & Hm & Hmm').
  destruct (Forall2_lookup_r _ _ _ _ _ Hmm' Ht) as (r & Hr & Hrr').
  destruct (Forall2_lookup_r _ _ _ _ _ Hrr' Hc) as (w & Hw & Hww').
  by exists m, r, w.
Qed.

Section Layers.
Context `{Random rng}.

Lemma Linear_row_ok (i o : nat) (l : Linear) (x : vector) :
  Linear_wf i o l → length x = i →
  ∃ y, Linear_row l x = Ok y ∧ length y = o.
Proof.
  intros (Hi & Ho & [Hw _] & Hb) Hx. unfold Linear_row.
  rewrite decide_True by congruence.
  eexists. split; [done|].
  destruct (bias l) as [b|]; simpl in Hb.
  - rewrite length_zip_with, length_fmap. lia.
  - by rewrite length_fmap.
Qed.


Lemma Linear_forward_shape (i o N T : nat) (l : Linear) (x : tensor3) :
  Linear_wf i o l → has_shape3 N T i x →
  ∃ y, Linear_forward l x = Ok y ∧ has_shape3 N T o y.
Proof.
  intros Hl Hx. unfold Linear_forward. eapply rows_shape3; [|exact Hx].
  intros r Hr. by eapply Linear_row_ok.
Qed.


Lemma LayerNorm_row_ok (n : nat) (ln : LayerNorm) (x : vector) :
  LayerNorm_wf n ln → length x = n →
  ∃ y, LayerNorm_row ln x = Ok y ∧ length y = n.
Proof.
  intros (Hn & Hg & Hb) Hx. unfold LayerNorm_row.
  rewrite decide_True by congruence.
  eexists. split; [done|].
  rewrite !length_zip_with, length_fmap. lia.
Qed.

Lemma LayerNorm_forward_shape (n N T : nat) (ln : LayerNorm) (x : tensor3) :
  LayerNorm_wf n ln → has_shape3 N T n x →
  ∃ y, LayerNorm_forward ln x = Ok y ∧ has_shape3 N T n y.
Proof.
  intros Hl Hx. unfold LayerNorm_forward. eapply rows_shape3; [|exact Hx].
  intros r Hr. by eapply LayerNorm_row_ok.
Qed.

Lemma ReLU_forward_shape (N T C : nat) (x : tensor3) :
  has_shape3 N T C x → has_shape3 N T C (ReLU_forward x).
Proof. apply map3_shape. Qed.

Lemma Dropout_entry_returns (d : Dropout) (a : R) :
  returns (Dropout_entry d a) (keeps_zero a).
Proof.
  unfold Dropout_entry. eapply returns_bind with (P := λ _, True).
  - by apply returns_draw.
  - intros keep _. apply returns_ret. intros ->.
    destruct keep; [|done]. unfold Rdiv. apply Rmult_0_l.
Qed.

Lemma Dropout_forward_returns (training : bool) (d : Dropout) (x : tensor3) :
  returns (Dropout_forward training d x) (pointwise3 keeps_zero x).
Proof.
  unfold Dropout_forward.
  destruct (training && negb (Qeq_bool (drop_p d) 0)).
  - destruct (Qeq_bool (drop_p d) 1).
    + apply returns_ret. apply pointwise3_map3. intros a. by unfold keeps_zero.
    + apply returns_for_each, Forall_forall. intros m _.
      apply returns_for_each, Forall_forall. intros r _.
      apply returns_for_each, Forall_forall. intros a _.
      apply Dropout_entry_returns.
  - apply returns_ret. apply pointwise3_refl. intros a. by unfold keeps_zero.
Qed.

Lemma Dropout_forward_shape (training : bool) (d : Dropout) (x : tensor3) N T C :
  has_shape3 N T C x →
  returns (Dropout_forward training d x) (has_shape3 N T C).
Proof.
  intros Hx. eapply returns_mono; [apply Dropout_forward_returns|].
  intros y Hxy. by eapply pointwise3_shape.
Qed.
End Layers.
End LayerFacts.

(** ** The attention head *)

Module HeadFacts.
Import Torch NN Net Shapes LayerFacts.

Lemma zip_with_shape3 {A B C} (f : list (list A) → list (list B) → list (list C))
    (N T1 C1 T2 C2 T3 C3 : nat) a b :
  (∀ ma mb, has_shape2 T1 C1 ma → has_shape2 T2 C2 mb → has_shape2 T3 C3 (f ma mb)) →
  has_shape3 N T1 C1 a → has_shape3 N T2 C2 b →
  has_shape3 N T3 C3 (zip_with f a b).
Proof.
  intros Hf [Hla Ha] [Hlb Hb]. split.
  - rewrite length_zip_with. lia.
  - apply Forall_forall. intros m Hm.
    apply elem_of_lookup_zip_with in Hm as (i & ma & mb & -> & Hma & Hmb).
    apply Hf.
    + eapply Forall_lookup_1; [exact Ha|exact Hma].
    + eapply Forall_lookup_1; [exact Hb|exact Hmb].
Qed.

Lemma matmul_transposed_shape (T T' C C' : nat) (a b : matrix) :
  has_shape2 T C a → has_shape2 T' C' b → has_shape2 T T' (matmul_transposed a b).
Proof.
  intros [Ha _] [Hb _]. unfold matmul_transposed. split.
  - by rewrite length_fmap.
  - apply Forall_fmap, Forall_forall. intros r _. simpl. by rewrite length_fmap.
Qed.

Lemma matmul_shape (T C' : nat) (a b : matrix) :
  has_shape2 T T a → has_shape2 T C' b → has_shape2 T C' (matmul a b).
Proof.
  intros [Ha _] [Hb Hrows]. unfold matmul. split.
  - by rewrite length_fmap.
  - apply Forall_fmap, Forall_forall. intros r Hr. simpl.
    rewrite length_fmap, length_seq.
    destruct b as [|r0 b]; simpl in *.
    + subst T. destruct a; [|done]. by apply elem_of_nil in Hr.
    + by apply Forall_cons in Hrows as [-> _].
Qed.

(** The mask of a head on a window that fits its buffer. *)
Lemma causal_mask_fits (h : Head) (T block_size : nat) :
  tril h = tril_ones block_size → T ≤ block_size →
  causal_mask h T = (λ i, (λ j, bool_decide (i < j)) <$> seq 0 T) <$> seq 0 T.
Proof.
  intros Htril HT. unfold causal_mask. rewrite Htril. unfold tril_ones.
  rewrite <- fmap_take, take_seq, Nat.min_l by done.
  rewrite <- list_fmap_compose. apply list_fmap_ext. intros _ i _. simpl.
  rewrite <- fmap_take, take_seq, Nat.min_l by done.
  rewrite <- list_fmap_compose. apply list_fmap_ext. intros _ j _. simpl.
  apply bool_decide_ext. destruct (decide (j ≤ i)); lia.
Qed.

Lemma broadcast_to_same {A} (n : nat) (l : list A) :
  length l = n → broadcast_to n l = Ok l.
Proof. intros Hl. unfold broadcast_to. by rewrite decide_True. Qed.

(** Masking a square score matrix with the causal mask of its size. *)
Lemma masked_fill_causal (T : nat) (w : matrix) :
  has_shape2 T T w →
  ∃ m, masked_fill w ((λ i, (λ j, bool_decide (i < j)) <$> seq 0 T) <$> seq 0 T) NegInf
         = Ok m ∧
       has_shape2 T T m ∧
       ∀ t t' row, m !! t = Some row → t < t' → t' < T → row !! t' = Some NegInf.
Proof.
  intros [Hlen Hrows]. unfold masked_fill.
  rewrite broadcast_to_same by (by rewrite length_fmap, length_seq).
  simpl.
  set (mask := (λ i, (λ j, bool_decide (i < j)) <$> seq 0 T) <$> seq 0 T).
  set (fill := λ (x : R) (b : bool), if b then NegInf else Fin x).
  destruct (comprehension_Forall2
    (λ '(w0, mrow), mrow0 ← broadcast_to (length w0) mrow; Ok (zip_with fill w0 mrow0))
    (λ '(w0, mrow) r, r = zip_with fill w0 mrow ∧ length w0 = T ∧ length mrow = T)
    (zip w mask)) as (m & Hm & HF).
  { apply Forall_forall. intros [w0 mrow] Hin.
    apply list_elem_of_lookup in Hin as [i Hi].
    apply lookup_zip_Some in Hi as [Hw0 Hmrow].
    assert (length w0 = T) as Hw0len
      by (eapply (Forall_lookup_1 _ _ _ _ Hrows Hw0)).
    assert (length mrow = T) as Hmlen.
    { unfold mask in Hmrow. rewrite list_lookup_fmap in Hmrow.
      destruct (seq 0 T !! i); simplify_eq/=. by rewrite length_fmap, length_seq. }
    exists (zip_with fill w0 mrow). split; [|done].
    rewrite broadcast_to_same by congruence. done. }
  exists m. split; [exact Hm|]. split.
  - split.
    + rewrite <- (Forall2_length _ _ _ HF), length_zip.
      unfold mask. rewrite length_fmap, length_seq. lia.
    + apply Forall_forall. intros r Hr.
      apply list_elem_of_lookup in Hr as [i Hi].
      destruct (Forall2_lookup_r _ _ _ _ _ HF Hi) as ([w0 mrow] & _ & -> & ? & ?).
      rewrite length_zip_with. lia.
  - intros t t' row Hrow Htt' Ht'.
    destruct (Forall2_lookup_r _ _ _ _ _ HF Hrow) as ([w0 mrow] & Hz & -> & Hw0 & Hmr).
    apply lookup_zip_Some in Hz as [_ Hmrow].
    unfold mask in Hmrow. rewrite list_lookup_fmap in Hmrow.
    destruct (seq 0 T !! t) as [i|] eqn:Hseq; simplify_eq/=.
    apply lookup_seq in Hseq as [-> _]. simpl.
    rewrite lookup_zip_with.
    destruct (lookup_lt_is_Some_2 w0 t') as [x ->]; [lia|]. simpl.
    rewrite list_lookup_fmap, lookup_seq_lt by done. simpl.
    by rewrite bool_decide_true by lia.
Qed.

Lemma shape3_exact {N T C : nat} (x : tensor3) :
  has_shape3 N T C x → 0 < N * T → shape3 x = (N, T, C).
Proof.
  intros [Hlen Hms] HNT. unfold shape3.
  destruct x as [|mx x]; [simpl in Hlen; lia|].
  apply Forall_cons in Hms as [[Hml Hrows] _]. simpl in *.
  destruct mx as [|r mx]; [simpl in Hml; lia|].
  apply Forall_cons in Hrows as [Hr _]. simpl in *. by rewrite Hlen, Hml, Hr.
Qed.

Lemma shape3_no_position {N T C : nat} (x : tensor3) :
  has_shape3 N T C x → N * T = 0 → (shape3 x).1.1 * (shape3 x).1.2 = 0.
Proof.
  intros [Hlen Hms] HNT. unfold shape3. simpl.
  destruct x as [|mx x]; [done|].
  apply Forall_cons in Hms as [[Hml _] _]. simpl in *. lia.
Qed.

(** The factor of the scores on an input of positive embedding size. *)
Lemma scale_returns (N T C : nat) (x : tensor3) :
  has_shape3 N T C x → 0 < C →
  ∃ scale,
    (if decide (length x * length (hd [] x) = 0) then Ok 1%R
     else pow_neg_half (length (hd [] (hd [] x)))) = Ok scale.
Proof.
  intros Hx HC. destruct (decide (N * T = 0)) as [HNT|HNT].
  - rewrite decide_True by (by apply (shape3_no_position x Hx)). by eexists.
  - pose proof (shape3_exact x Hx ltac:(lia)) as [= -> -> ->].
    rewrite decide_False by done. unfold pow_neg_half.
    rewrite decide_False by lia. by eexists.
Qed.

Lemma softmax_masked (row : list ereal) (t : nat) :
  row !! t = Some NegInf → softmax row !! t = Some 0%R.
Proof.
  intros Ht. unfold softmax. rewrite list_lookup_fmap, Ht. simpl.
  f_equal. unfold Rdiv. apply Rmult_0_l.
Qed.

Section Head.
Context `{Random rng}.
Variables head_size n_embd block_size : nat.
Variable h : Head.
Hypothesis Hwf : Head_wf head_size n_embd block_size h.
Hypothesis Hembd : 0 < n_embd.

Lemma Head_scores_shape (N T : nat) (x : tensor3) :
  has_shape3 N T n_embd x →
  ∃ s, Head_scores h x = Ok s ∧ has_shape3 N T T s.
Proof using Hwf Hembd.
  intros Hx. destruct Hwf as (Hk & Hq & _ & _). unfold Head_scores. simpl.
  destruct (Linear_forward_shape _ _ N T _ x Hk Hx) as (k & -> & Hks).
  destruct (Linear_forward_shape _ _ N T _ x Hq Hx) as (q & -> & Hqs).
  simpl.
  destruct (scale_returns N T n_embd x Hx Hembd) as (scale & ->).
  simpl. eexists. split; [done|].
  apply map3_shape. eapply zip_with_shape3; [|exact Hqs|exact Hks].
  intros ma mb. apply matmul_transposed_shape.
Qed.

(** The weights of a head: the shape, and nothing above the diagonal. *)
Lemma Head_weights_returns (training : bool) (N T : nat) (x : tensor3) :
  has_shape3 N T n_embd x → T ≤ block_size →
  returns (Head_weights training h x) (λ wei, has_shape3 N T T wei ∧ causal wei).
Proof using Hwf Hembd.
  intros Hx HT. unfold Head_weights. simpl.
  destruct (Head_scores_shape N T x Hx) as (s & Hs & Hss).
  bind_lifted s.
  destruct N as [|N'].
  { destruct Hss as [Hlen _]. destruct s; [|done]. simpl.
    bind_lifted (@nil (list (list ereal))). simpl.
    eapply returns_mono; [apply Dropout_forward_returns|].
    intros y Hy. inversion Hy; subst. split; [by split|].
    intros b m t row t' w Hb. by rewrite lookup_nil in Hb. }
  rewrite (has_shape3_hd _ _ _ _ Hx) by lia.
  destruct Hwf as (_ & _ & _ & Htril).
  rewrite (causal_mask_fits h T block_size Htril HT).
  set (mask := (λ i, (λ j, bool_decide (i < j)) <$> seq 0 T) <$> seq 0 T).
  destruct (comprehension_Forall2 (λ w, masked_fill w mask NegInf)
    (λ _ m, has_shape2 T T m ∧
       ∀ t t' row, m !! t = Some row → t < t' → t' < T → row !! t' = Some NegInf)
    s) as (masked & Hmasked & HF).
  { destruct Hss as [_ Hms]. eapply Forall_impl; [exact Hms|]. simpl.
    intros w Hw. destruct (masked_fill_causal T w Hw) as (m & ? & ? & ?).
    by exists m. }
  bind_lifted masked.
  eapply returns_mono; [apply Dropout_forward_returns|].
  intros wei Hwei.
  assert (has_shape3 (S N') T T (map2 softmax masked)) as Hsoft.
  { unfold map2. split.
    - rewrite length_fmap, <- (Forall2_length _ _ _ HF). apply Hss.
    - apply Forall_fmap, Forall_forall. intros m Hm. simpl.
      apply list_elem_of_lookup in Hm as [i Hi].
      destruct (Forall2_lookup_r _ _ _ _ _ HF Hi) as (_ & _ & [Hm1 Hm2] & _).
      split.
      + by rewrite length_fmap.
      + apply Forall_fmap. eapply Forall_impl; [exact Hm2|].
        simpl. intros r Hr. unfold softmax. by rewrite length_fmap. }
  split; [by eapply pointwise3_shape|].
  intros b m' t r' t' w' Hb Ht Ht' Hlt.
  destruct (pointwise3_lookup _ _ _ _ _ _ _ _ _ Hwei Hb Ht Ht')
    as (m & r & w & Hm & Hr & Hw & Hzero).
  apply Hzero.
  unfold map2 in Hm. rewrite list_lookup_fmap in Hm.
  destruct (masked !! b) as [mm|] eqn:Hmm; simplify_eq/=.
  rewrite list_lookup_fmap in Hr.
  destruct (mm !! t) as [mr|] eqn:Hmr; simplify_eq/=.
  destruct (Forall2_lookup_r _ _ _ _ _ HF Hmm) as (_ & _ & [_ Hrows] & Hinf).
  assert (t' < T) as Ht'T.
  { apply lookup_lt_Some in Hw. unfold softmax in Hw.
    rewrite length_fmap in Hw.
    by rewrite (Forall_lookup_1 _ _ _ _ Hrows Hmr) in Hw. }
  rewrite (softmax_masked mr t') in Hw by (by eapply Hinf).
  congruence.
Qed.

Lemma Head_forward_shape (training : bool) (N T : nat) (x : tensor3) :
  has_shape3 N T n_embd x → T ≤ block_size →
  returns (Head_forward training h x) (has_shape3 N T head_size).
Proof using Hwf Hembd.
  intros Hx HT. unfold Head_forward.
  eapply returns_bind; [by apply (Head_weights_returns training N T)|].
  intros wei [Hwei _].
  destruct Hwf as (_ & _ & Hv & _).
  destruct (Linear_forward_shape _ _ N T _ x Hv Hx) as (v & Hveq & Hvs).
  bind_lifted v. apply returns_ret.
  eapply zip_with_shape3; [|exact Hwei|exact Hvs].
  intros ma mb. apply matmul_shape.
Qed.
End Head.
End HeadFacts.

(** ** Blocks and the model *)

Module ModelFacts.
Import Torch NN Net Shapes LayerFacts HeadFacts.

Lemma zip_with_shape2 {A B C} (f : list A → list B → list C)
    (T C1 C2 C3 : nat) a b :
  (∀ ra rb, length ra = C1 → length rb = C2 → length (f ra rb) = C3) →
  has_shape2 T C1 a → has_shape2 T C2 b → has_shape2 T C3 (zip_with f a b).
Proof.
  intros Hf [Hla Ha] [Hlb Hb]. split.
  - rewrite length_zip_with. lia.
  - apply Forall_forall. intros r Hr.
    apply elem_of_lookup_zip_with in Hr as (i & ra & rb & -> & Hra & Hrb).
    apply Hf.
    + eapply (Forall_lookup_1 _ _ _ _ Ha Hra).
    + eapply (Forall_lookup_1 _ _ _ _ Hb Hrb).
Qed.

Lemma add3_shape (N T C : nat) (a b : tensor3) :
  has_shape3 N T C a → has_shape3 N T C b → has_shape3 N T C (add3 a b).
Proof.
  intros Ha Hb. unfold add3. eapply zip_with_shape3; [|exact Ha|exact Hb].
  intros ma mb. apply zip_with_shape2.
  intros ra rb Hra Hrb. rewrite length_zip_with. lia.
Qed.

Lemma cat_last_shape (N T C : nat) (ts : list tensor3) :
  ts ≠ [] → Forall (has_shape3 N T C) ts →
  ∃ out, cat_last ts = Ok out ∧ has_shape3 N T (length ts * C) out.
Proof.
  induction ts as [|t ts IH]; [done|]. intros _ Hts.
  apply Forall_cons in Hts as [Ht Hts].
  destruct ts as [|t' ts].
  - exists t. split; [done|]. simpl. by rewrite Nat.add_0_r.
  - destruct IH as (r & Hr & Hrs); [done|done|].
    exists (zip_with (zip_with app) t r). split.
    + change (cat_last (t :: t' :: ts))
        with (r ← cat_last (t' :: ts); Ok (zip_with (zip_with app) t r)).
      by rewrite Hr.
    + eapply zip_with_shape3; [|exact Ht|exact Hrs].
      intros ma mb. apply zip_with_shape2.
      intros ra rb Hra Hrb. rewrite length_app. simpl in *. lia.
Qed.

Section Forward.
Context `{Random rng}.
Variables vocab_size n_embd block_size n_head : nat.
Hypothesis Hdiv : heads_divide n_embd n_head.

Lemma MultiHeadAttention_forward_shape (training : bool) (m : MultiHeadAttention)
    (N T : nat) (x : tensor3) :
  MultiHeadAttention_wf n_head (n_embd / n_head) n_embd block_size m →
  has_shape3 N T n_embd x → T ≤ block_size →
  returns (MultiHeadAttention_forward training m x) (has_shape3 N T n_embd).
Proof using Hdiv.
  intros (Hlen & Hheads & Hproj) Hx HT. unfold MultiHeadAttention_forward.
  eapply returns_bind.
  { apply (returns_for_each _ (λ _ out, has_shape3 N T (n_embd / n_head) out)).
    eapply Forall_impl; [exact Hheads|]. simpl. intros h Hh.
    eapply Head_forward_shape; [exact Hh|apply Hdiv|exact Hx|exact HT]. }
  intros outs Houts.
  assert (length outs = n_head) as Hlo
    by (by rewrite <- (Forall2_length _ _ _ Houts)).
  apply Forall2_const_r in Houts.
  destruct (cat_last_shape N T (n_embd / n_head) outs) as (out & Hout & Hos); [|done|].
  { destruct Hdiv as (_ & Hpos & _). intros ->. simpl in Hlo. lia. }
  rewrite Hlo in Hos. destruct Hdiv as (_ & _ & Heq). rewrite Heq in Hos.
  bind_lifted out.
  destruct (Linear_forward_shape _ _ N T _ out Hproj Hos) as (y & Hy & Hys).
  bind_lifted y. by apply Dropout_forward_shape.
Qed.

Lemma FeedFoward_forward_shape (training : bool) (f : FeedFoward)
    (N T : nat) (x : tensor3) :
  FeedFoward_wf n_embd f → has_shape3 N T n_embd x →
  returns (FeedFoward_forward training f x) (has_shape3 N T n_embd).
Proof.
  intros [H0 H2] Hx. unfold FeedFoward_forward.
  destruct (Linear_forward_shape _ _ N T _ x H0 Hx) as (y & Hy & Hys).
  bind_lifted y.
  destruct (Linear_forward_shape _ _ N T _ (ReLU_forward y) H2
              (ReLU_forward_shape _ _ _ _ Hys)) as (z & Hz & Hzs).
  bind_lifted z. by apply Dropout_forward_shape.
Qed.

Lemma Block_forward_shape (training : bool) (b : Block) (N T : nat) (x : tensor3) :
  Block_wf n_embd n_head block_size b →
  has_shape3 N T n_embd x → T ≤ block_size →
  returns (Block_forward training b x) (has_shape3 N T n_embd).
Proof using Hdiv.
  intros (Hsa & Hff & Hln1 & Hln2) Hx HT. unfold Block_forward.
  destruct (LayerNorm_forward_shape _ N T _ x Hln1 Hx) as (y & Hy & Hys).
  bind_lifted y.
  eapply returns_bind; [by apply MultiHeadAttention_forward_shape|].
  intros y' Hy'.
  pose proof (add3_shape _ _ _ _ _ Hx Hy') as Hx1.
  destruct (LayerNorm_forward_shape _ N T _ _ Hln2 Hx1) as (z & Hz & Hzs).
  bind_lifted z.
  eapply returns_bind; [by apply FeedFoward_forward_shape|].
  intros z' Hz'. apply returns_ret. by apply add3_shape.
Qed.

Lemma Sequential_forward_shape (training : bool) (bs : list Block)
    (N T : nat) (x : tensor3) :
  Forall (Block_wf n_embd n_head block_size) bs →
  has_shape3 N T n_embd x → T ≤ block_size →
  returns (Sequential_forward training bs x) (has_shape3 N T n_embd).
Proof using Hdiv.
  intros Hbs. revert x. induction Hbs as [|b bs Hb _ IH]; intros x Hx HT; simpl.
  - by apply returns_ret.
  - eapply returns_bind; [by apply Block_forward_shape|].
    intros y Hy. by apply IH.
Qed.
End Forward.
Section Indivisible.
Context `{Random rng}.

End Indivisible.
End ModelFacts.

(** ** The cross-entropy loss *)

Module LossFacts.
Import Torch Shapes.

Lemma sum_cons (a : R) (v : vector) : sum (a :: v) = (a + sum v)%R.
Proof. reflexivity. Qed.

Lemma sum_exp_pos (row : vector) : (0 <= sum (exp <$> row))%R.
Proof.
  induction row as [|x row IH]; [simpl; lra|].
  rewrite fmap_cons, sum_cons. pose proof (exp_pos x). lra.
Qed.

Lemma sum_exp_ge (row : vector) (t : nat) :
  t < length row → (exp (nth t row 0) <= sum (exp <$> row))%R.
Proof.
  revert t. induction row as [|x row IH]; intros t Ht; simpl in Ht; [lia|].
  rewrite fmap_cons, sum_cons. destruct t as [|t]; simpl.
  - pose proof (sum_exp_pos row). lra.
  - pose proof (exp_pos x). assert (t < length row) as Ht' by lia.
    specialize (IH t Ht'). lra.
Qed.

(** A log-probability is not positive. *)
Lemma log_softmax_nonpos (row : vector) (t : nat) :
  t < length row → (log_softmax row t <= 0)%R.
Proof.
  intros Ht. unfold log_softmax.
  pose proof (sum_exp_ge row t Ht) as Hge.
  pose proof (exp_pos (nth t row 0%R)) as Hpos.
  destruct (Rle_lt_or_eq_dec _ _ Hge) as [Hlt|Heq].
  - pose proof (ln_increasing _ _ Hpos Hlt) as Hln. rewrite ln_exp in Hln. lra.
  - rewrite <- Heq, ln_exp. lra.
Qed.

Lemma sum_nonneg (v : vector) : Forall (λ a, (0 <= a)%R) v → (0 <= sum v)%R.
Proof. induction 1; [simpl; lra|]. rewrite sum_cons. lra. Qed.

Lemma mean_nonneg (v : vector) :
  v ≠ [] → Forall (λ a, (0 <= a)%R) v → ∃ r, mean v = Real r ∧ (0 <= r)%R.
Proof.
  intros Hne Hv. destruct v as [|a v]; [done|].
  eexists. split; [done|].
  apply Rmult_le_pos; [by apply sum_nonneg|].
  apply Rlt_le, Rinv_0_lt_compat, lt_0_INR. simpl. lia.
Qed.

(** The loss of logits of shape (n, C) against n targets below C. *)
Lemma cross_entropy_returns (n C : nat) (logits : matrix) (targets : list nat) :
  has_shape2 n C logits → length targets = n → Forall (λ t, t < C) targets →
  ∃ loss, cross_entropy logits targets = Ok loss ∧
          (n = 0 → loss = NaN) ∧
          (0 < n → ∃ r, loss = Real r ∧ (0 <= r)%R).
Proof.
  intros [Hlen Hrows] Htl Htc. unfold cross_entropy.
  rewrite decide_True by congruence.
  destruct (comprehension_Forall2
    (λ '(row, t), if decide (t < length row) then Ok (- log_softmax row t)%R
                  else Raise IndexError)
    (λ _ l, (0 <= l)%R) (zip logits targets)) as (losses & Hl & HF).
  { apply Forall_forall. intros [row t] Hin.
    apply list_elem_of_lookup in Hin as [i Hi].
    apply lookup_zip_Some in Hi as [Hrow Ht].
    pose proof (Forall_lookup_1 _ _ _ _ Hrows Hrow) as Hrl.
    pose proof (Forall_lookup_1 _ _ _ _ Htc Ht) as HtC. simpl in *.
    exists (- log_softmax row t)%R. rewrite decide_True by lia.
    split; [done|]. pose proof (log_softmax_nonpos row t ltac:(lia)). lra. }
  rewrite Hl. simpl.
  assert (length losses = n) as Hll.
  { rewrite <- (Forall2_length _ _ _ HF), length_zip. lia. }
  apply Forall2_const_r in HF.
  exists (mean losses). split; [done|]. split.
  - intros ->. by destruct losses.
  - intros Hn. apply mean_nonneg; [|done]. intros ->. simpl in Hll. lia.
Qed.
End LossFacts.

(** ** The language model *)

Module ForwardFacts.
Import Torch NN Net Shapes LayerFacts HeadFacts ModelFacts LossFacts.

Lemma concat_shape {A} (N T C : nat) (x : list (list (list A))) :
  has_shape3 N T C x → has_shape2 (N * T) C (concat x).
Proof.
  intros [Hlen Hms]. split.
  - subst N. induction Hms as [|m x [Hm _] _ IH]; simpl; [done|].
    rewrite length_app. lia.
  - apply Forall_concat. eapply Forall_impl; [exact Hms|]. by intros m [_ ?].
Qed.

Lemma concat_length {A} (N T : nat) (x : list (list A)) :
  has_shape2 N T x → length (concat x) = N * T.
Proof.
  intros [Hlen Hrows]. subst N.
  induction Hrows as [|r x Hr _ IH]; simpl; [done|].
  rewrite length_app. lia.
Qed.

(** The three outcomes of an embedding lookup. *)
Lemma Embedding_row_lookup (e : Embedding) (i : nat) (v : vector) :
  table e !! i = Some v → Embedding_row e i = Ok v.
Proof.
  intros Hv. unfold Embedding_row. rewrite Hv.
  destruct (table e); [by rewrite lookup_nil in Hv|done].
Qed.

Lemma Embedding_row_out_of_range (e : Embedding) (i : nat) :
  0 < length (table e) → length (table e) ≤ i →
  Embedding_row e i = Raise IndexError.
Proof.
  intros Hrows Hi. unfold Embedding_row.
  rewrite (lookup_ge_None_2 (table e) i Hi).
  destruct (table e); [simpl in Hrows; lia|done].
Qed.

Lemma Embedding_row_no_rows (e : Embedding) (i : nat) :
  table e = [] → Embedding_row e i = Raise RuntimeError.
Proof. intros He. unfold Embedding_row. by rewrite He. Qed.

Lemma Embedding_row_ok (e : Embedding) (i : nat) (v : vector) :
  Embedding_row e i = Ok v → table e !! i = Some v.
Proof.
  unfold Embedding_row. destruct (table e) as [|r t] eqn:Ht; [done|].
  destruct ((r :: t) !! i); [|done]. by intros [= ->].
Qed.

Lemma Embedding_row_raises_only (e : Embedding) (i : nat) (err : exn) :
  0 < length (table e) → Embedding_row e i = Raise err → err = IndexError.
Proof.
  intros Hrows. unfold Embedding_row.
  destruct (table e) as [|r t] eqn:Ht; [simpl in Hrows; lia|].
  destruct ((r :: t) !! i); [done|]. by intros [= <-].
Qed.

Section Model.
Context `{Random rng}.
Variables vocab_size n_embd block_size n_head : nat.
Variable m : LanguageModel.
Hypothesis Hdiv : heads_divide n_embd n_head.
Hypothesis Hwf : LanguageModel_wf vocab_size n_embd block_size n_head m.

Lemma token_embedding_shape (N T : nat) (idx : list (list nat)) :
  has_shape2 N T idx → entries_below vocab_size idx →
  ∃ e, comprehension (comprehension (Embedding_row (token_embedding_table m))) idx
         = Ok e ∧ has_shape3 N T n_embd e.
Proof using Hwf.
  intros [Hlen Hrows] Hbelow.
  destruct Hwf as ((_ & _ & Htl & Htrows) & _).
  destruct (comprehension_Forall2
    (comprehension (Embedding_row (token_embedding_table m)))
    (λ _ e, has_shape2 T n_embd e) idx) as (e & He & HF).
  { apply Forall_forall. intros r Hr.
    pose proof (proj1 (Forall_forall _ _) Hrows r Hr) as Hrl.
    pose proof (proj1 (Forall_forall _ _) Hbelow r Hr) as Hrb. simpl in *.
    destruct (comprehension_Forall2 (Embedding_row (token_embedding_table m))
      (λ _ v, length v = n_embd) r) as (vs & Hvs & HFv).
    { eapply Forall_impl; [exact Hrb|]. simpl. intros i Hi.
      destruct (lookup_lt_is_Some_2 (table (token_embedding_table m)) i)
        as [v Hv]; [lia|].
      exists v. split; [by apply Embedding_row_lookup|].
      eapply (Forall_lookup_1 _ _ _ _ Htrows Hv). }
    exists vs. split; [done|]. split.
    - rewrite <- (Forall2_length _ _ _ HFv). done.
    - by eapply Forall2_const_r. }
  exists e. split; [done|]. split.
  - by rewrite <- (Forall2_length _ _ _ HF).
  - by eapply Forall2_const_r.
Qed.

Lemma position_embedding_shape (T : nat) :
  T ≤ block_size →
  ∃ p, comprehension (Embedding_row (position_embedding_table m)) (seq 0 T) = Ok p ∧
       has_shape2 T n_embd p.
Proof using Hwf.
  intros HT. destruct Hwf as (_ & (_ & _ & Hpl & Hprows) & _).
  destruct (comprehension_Forall2 (Embedding_row (position_embedding_table m))
    (λ _ v, length v = n_embd) (seq 0 T)) as (p & Hp & HF).
  { apply Forall_forall. intros i Hi. apply elem_of_seq in Hi.
    destruct (lookup_lt_is_Some_2 (table (position_embedding_table m)) i)
      as [v Hv]; [lia|].
    exists v. split; [by apply Embedding_row_lookup|].
    eapply (Forall_lookup_1 _ _ _ _ Hprows Hv). }
  exists p. split; [done|]. split.
  - by rewrite <- (Forall2_length _ _ _ HF), length_seq.
  - by eapply Forall2_const_r.
Qed.

Lemma forward_logits_shape (training : bool) (N T : nat) (idx : list (list nat)) :
  has_shape2 N T idx → T ≤ block_size → entries_below vocab_size idx →
  returns (forward_logits training m idx) (has_shape3 N T vocab_size).
Proof using Hdiv Hwf.
  intros Hidx HT Hbelow. unfold forward_logits.
  destruct (token_embedding_shape N T idx Hidx Hbelow) as (e & He & Hes).
  bind_lifted e.
  destruct N as [|N'].
  { destruct Hes as [Hel _]. destruct e; [|done].
    destruct (position_embedding_shape (length (hd [] idx))) as (p & Hp & Hps).
    { destruct Hidx as [Hil _]. destruct idx; [simpl; lia|done]. }
    bind_lifted p. simpl.
    destruct Hwf as (_ & _ & Hblocks & Hln & Hhead).
    eapply returns_bind.
    { eapply (Sequential_forward_shape n_embd block_size n_head Hdiv training _ 0 0);
        [exact Hblocks| |lia]. by split. }
    intros x Hx.
    destruct (LayerNorm_forward_shape _ 0 0 _ x Hln Hx) as (y & Hy & Hys).
    bind_lifted y.
    destruct (Linear_forward_shape _ _ 0 0 _ y Hhead Hys) as (z & Hz & [Hzl _]).
    eapply returns_lift; [exact Hz|]. destruct z; [|done]. by split. }
  assert (length (hd [] idx) = T) as ->.
  { destruct Hidx as [Hil Hrows]. destruct idx as [|r idx]; [done|].
    by apply Forall_cons in Hrows as [? _]. }
  destruct (position_embedding_shape T HT) as (p & Hp & Hps).
  bind_lifted p.
  destruct Hwf as (_ & _ & Hblocks & Hln & Hhead).
  eapply returns_bind.
  { eapply (Sequential_forward_shape n_embd block_size n_head Hdiv training _
              (S N') T); [exact Hblocks| |exact HT].
    destruct Hes as [Hel Hems]. split; [by rewrite length_fmap|].
    apply Forall_fmap. eapply Forall_impl; [exact Hems|]. simpl.
    intros em Hem. eapply zip_with_shape2; [|exact Hem|exact Hps].
    intros ra rb Hra Hrb. rewrite length_zip_with. lia. }
  intros x Hx.
  destruct (LayerNorm_forward_shape _ (S N') T _ x Hln Hx) as (y & Hy & Hys).
  bind_lifted y.
  destruct (Linear_forward_shape _ _ (S N') T _ y Hhead Hys) as (z & Hz & Hzs).
  by eapply returns_lift.
Qed.

(** [forward] without targets. *)
Lemma forward_None_returns (training : bool) (N T : nat) (idx : list (list nat)) :
  has_shape2 N T idx → T ≤ block_size → entries_below vocab_size idx →
  returns (forward training m idx None)
    (λ out, ∃ logits, out = (T3 logits, None) ∧ has_shape3 N T vocab_size logits).
Proof using Hdiv Hwf.
  intros Hidx HT Hbelow. unfold forward.
  eapply returns_bind; [by apply (forward_logits_shape training N T)|].
  intros logits Hl. apply returns_ret. by exists logits.
Qed.

(** [forward] with targets. *)
Lemma forward_Some_returns (training : bool) (N T : nat)
    (idx targets : list (list nat)) :
  has_shape2 N T idx → T ≤ block_size → entries_below vocab_size idx →
  has_shape2 N T targets → entries_below vocab_size targets →
  returns (forward training m idx (Some targets))
    (λ out, ∃ logits loss, out = (T2 logits, Some loss) ∧
       has_shape2 (N * T) vocab_size logits ∧
       cross_entropy logits (concat targets) = Ok loss ∧
       (N * T = 0 → loss = NaN) ∧
       (0 < N * T → ∃ r, loss = Real r ∧ (0 <= r)%R)).
Proof using Hdiv Hwf.
  intros Hidx HT Hbelow Htg Htb. unfold forward.
  eapply returns_bind; [by apply (forward_logits_shape training N T)|].
  intros logits Hl. simpl.
  pose proof (concat_shape _ _ _ _ Hl) as Hcs.
  pose proof (concat_length _ _ _ Htg) as Hct.
  assert (length logits * length (hd [] logits) = N * T) as HBT.
  { destruct Hl as [Hll Hlm]. destruct logits as [|l0 logits]; simpl in *.
    - subst N. lia.
    - apply Forall_cons in Hlm as [[-> _] _]. subst N. simpl. lia. }
  rewrite HBT.
  eapply returns_bind.
  { eapply (returns_lift _ _ (λ a, a = concat targets)); [|done].
    unfold view1. by rewrite decide_True. }
  intros ? ->.
  destruct (cross_entropy_returns (N * T) vocab_size (concat logits) (concat targets))
    as (loss & Hloss & Hnan & Hreal); [done|done| |].
  { by apply Forall_concat. }
  bind_lifted loss. apply returns_ret. by exists (concat logits), loss.
Qed.
End Model.
Section Window.
Context `{Random rng}.

(** A window longer than [block_size] is refused while the positions are
    embedded, before any block runs. *)
Lemma forward_logits_long_window (training : bool)
    (vocab_size n_embd block_size : nat)
    (m : LanguageModel) (T : nat) (row : list nat) (idx : list (list nat)) g :
  Embedding_wf vocab_size n_embd (token_embedding_table m) →
  Embedding_wf block_size n_embd (position_embedding_table m) →
  0 < vocab_size → 0 < block_size →
  length row = T → block_size < T →
  forward_logits training m (row :: idx) g = Raise IndexError.
Proof.
  intros (_ & _ & Htl & _) (_ & _ & Hpl & _) Hvocab Hblock Hrow HT.
  unfold forward_logits. simpl hd.
  destruct (comprehension (comprehension (Embedding_row (token_embedding_table m)))
              (row :: idx)) as [e|err] eqn:He.
  - simpl. unfold mbind at 1. unfold M_bind. simpl.
    apply bind_raises.
    destruct (comprehension (Embedding_row (position_embedding_table m))
                (seq 0 (length row))) as [p|err] eqn:Hp.
    + destruct (comprehension_ok_lookup _ _ _ block_size block_size Hp)
        as (v & _ & Hv).
      { apply lookup_seq_lt. lia. }
      rewrite Embedding_row_out_of_range in Hv by lia. done.
    + apply comprehension_raise in Hp as (i & _ & Hi).
      apply Embedding_row_raises_only in Hi as ->; [done|lia].
  - apply bind_raises. simpl.
    apply comprehension_raise in He as (r & _ & Hr).
    apply comprehension_raise in Hr as (i & _ & Hi).
    apply Embedding_row_raises_only in Hi as ->; [done|lia].
Qed.
End Window.
End ForwardFacts.

(** ** Generation *)

Module GenerateFacts.
Import Torch NN Net Shapes LayerFacts HeadFacts ModelFacts ForwardFacts.

Lemma last_items_length {A} (n : nat) (l : list A) :
  0 < n → length (last_items n l) = length l `min` n.
Proof.
  intros Hn. unfold last_items. rewrite decide_False by lia.
  rewrite length_drop. lia.
Qed.

Lemma last_items_Forall {A} (P : A → Prop) (n : nat) (l : list A) :
  Forall P l → Forall P (last_items n l).
Proof.
  intros Hl. unfold last_items. destruct (decide (n = 0)); [done|].
  by apply Forall_drop.
Qed.

Section Generate.
Context `{Random rng}.
Variables block_size : nat.

(** Whatever the model: a step that returns has appended one token to
    each row it returns. *)
Lemma generate_step_appends (training : bool) (m : LanguageModel)
    (idx idx' : list (list nat)) g g' :
  generate_step block_size training m idx g = Ok (idx', g') →
  ∀ i row', idx' !! i = Some row' →
    ∃ row t, idx !! i = Some row ∧ row' = row ++ [t].
Proof.
  unfold generate_step. unfold mbind at 1. unfold M_bind.
  destruct (forward _ _ _ _ g) as [[[logits loss] g1]|e]; [|done].
  unfold mbind at 1. unfold M_bind.
  destruct (lift (last_step logits) g1) as [[last g2]|e]; [|done].
  unfold mbind at 1. unfold M_bind.
  destruct (torch_multinomial _ g2) as [[idx_next g3]|e]; [|done].
  intros [= <- <-] i row' Hi.
  apply lookup_zip_with_Some in Hi as (row & t & -> & Hrow & Ht).
  by exists row, t.
Qed.

Lemma generate_prefix (training : bool) (m : LanguageModel) (n : nat) :
  ∀ (idx out : list (list nat)) g g',
    generate block_size training m idx n g = Ok (out, g') →
    ∀ i row', out !! i = Some row' →
      ∃ row, idx !! i = Some row ∧ row `prefix_of` row'.
Proof.
  induction n as [|n IH]; intros idx out g g'; simpl.
  - intros [= <- <-] i row' Hi. by exists row'.
  - unfold mbind, M_bind.
    destruct (generate_step block_size training m idx g) as [[idx1 g1]|e] eqn:Hstep;
      [|done].
    intros Hgen i row' Hi.
    destruct (IH _ _ _ _ Hgen i row' Hi) as (row1 & Hrow1 & Hpre).
    destruct (generate_step_appends _ _ _ _ _ _ Hstep i row1 Hrow1)
      as (row & t & Hrow & ->).
    exists row. split; [done|].
    etrans; [|exact Hpre]. by apply prefix_app_r.
Qed.

Hypothesis Hrange : RandomRange rng.

Lemma last_step_shape (N T C : nat) (logits : tensor3) :
  has_shape3 N T C logits → 0 < T →
  ∃ l, last_step (T3 logits) = Ok l ∧ has_shape2 N C l.
Proof.
  intros [Hlen Hms] HT. simpl.
  destruct (comprehension_Forall2
    (λ mx : matrix, match last mx with
                    | Some r => Ok r
                    | None => Raise IndexError
                    end)
    (λ _ r, length r = C) logits) as (l & Hl & HF).
  { eapply Forall_impl; [exact Hms|]. simpl. intros mx [Hmx Hrows].
    destruct (last mx) as [r|] eqn:Hlast.
    - exists r. split; [done|].
      apply last_Some_elem_of in Hlast.
      by apply (proj1 (Forall_forall _ _) Hrows).
    - rewrite last_lookup in Hlast. apply lookup_ge_None in Hlast. lia. }
  exists l. split; [done|]. split.
  - by rewrite <- (Forall2_length _ _ _ HF).
  - by eapply Forall2_const_r.
Qed.

Lemma torch_multinomial_returns (N C : nat) (probs : matrix) :
  has_shape2 N C probs → (0 < N → 0 < C) →
  returns (torch_multinomial probs)
    (λ ts, length ts = N ∧ Forall (λ t, t < C) ts).
Proof using Hrange.
  intros [Hlen Hrows] HC. unfold torch_multinomial.
  eapply returns_mono.
  - apply (returns_for_each _ (λ _ t, t < C)).
    apply Forall_forall. intros row Hrow.
    pose proof (proj1 (Forall_forall _ _) Hrows row Hrow) as Hrl. simpl in Hrl.
    assert (0 < C) as HCpos.
    { apply HC. destruct probs; [by apply elem_of_nil in Hrow|]. simpl in Hlen. lia. }
    destruct row as [|p row]; [simpl in Hrl; lia|].
    apply returns_draw. intros g. rewrite <- Hrl. by apply multinomial_lt.
  - intros ts HF. split.
    + by rewrite <- (Forall2_length _ _ _ HF).
    + by eapply Forall2_const_r.
Qed.

Variables vocab_size n_embd n_head : nat.
Variable m : LanguageModel.
Hypothesis Hdiv : heads_divide n_embd n_head.
Hypothesis Hwf : LanguageModel_wf vocab_size n_embd block_size n_head m.
Hypothesis Hblock : 0 < block_size.

Lemma generate_step_returns (training : bool) (N L : nat) (idx : list (list nat)) :
  has_shape2 N L idx → 0 < L → entries_below vocab_size idx →
  returns (generate_step block_size training m idx)
    (λ idx', Forall2 (extends (λ t, t < vocab_size)) idx idx').
Proof using Hrange Hdiv Hwf Hblock.
  intros [Hlen Hrows] HL Hbelow. unfold generate_step.
  assert (0 < N → 0 < vocab_size) as HV.
  { intros HN. destruct idx as [|r idx]; [simpl in Hlen; lia|].
    apply Forall_cons in Hrows as [Hr _]. apply Forall_cons in Hbelow as [Hb _].
    destruct r as [|i r]; [simpl in Hr; lia|].
    apply Forall_cons in Hb as [Hi _]. lia. }
  eapply returns_bind.
  { eapply (forward_None_returns vocab_size n_embd block_size n_head m Hdiv Hwf
              training N (L `min` block_size)).
    - split; [by rewrite length_fmap|].
      apply Forall_fmap. eapply Forall_impl; [exact Hrows|]. simpl.
      intros r Hr. rewrite last_items_length by done. by rewrite Hr.
    - lia.
    - unfold entries_below. apply Forall_fmap.
      eapply Forall_impl; [exact Hbelow|]. simpl.
      intros r Hr. by apply last_items_Forall. }
  intros [logits loss] (l3 & [= -> ->] & Hl3).
  destruct (last_step_shape _ _ _ l3 Hl3) as (l & Hl & Hls); [lia|].
  bind_lifted l.
  eapply returns_bind.
  { apply (torch_multinomial_returns N vocab_size); [|done].
    destruct Hls as [Hll Hlrows]. split; [by rewrite length_fmap|].
    apply Forall_fmap. eapply Forall_impl; [exact Hlrows|]. simpl.
    intros r Hr. unfold softmax. by rewrite !length_fmap. }
  intros ts [Htl Hts]. apply returns_ret.
  apply Forall2_same_length_lookup. split.
  - rewrite length_zip_with. lia.
  - intros i row row' Hrow Hrow'.
    apply lookup_zip_with_Some in Hrow' as (row0 & t & -> & Hrow0 & Ht).
    assert (row0 = row) as -> by congruence.
    exists t. split; [done|]. by eapply (Forall_lookup_1 _ _ _ _ Hts Ht).
Qed.

(** [generate] on a batch of seeds of one positive length. *)
Lemma generate_returns (training : bool) (n N L : nat) :
  ∀ idx : list (list nat),
    has_shape2 N L idx → 0 < L → entries_below vocab_size idx →
    returns (generate block_size training m idx n)
      (λ out, Forall2
         (λ row row', length row' = L + n ∧ take L row' = row ∧
                      Forall (λ t, t < vocab_size) (drop L row'))
         idx out).
Proof using Hrange Hdiv Hwf Hblock.
  revert L. induction n as [|n IH]; intros L idx Hidx HL Hbelow; simpl.
  - apply returns_ret. apply Forall2_same_length_lookup. split; [done|].
    intros i row row' Hrow Hrow'. assert (row' = row) as -> by congruence.
    destruct Hidx as [_ Hrows].
    pose proof (Forall_lookup_1 _ _ _ _ Hrows Hrow) as Hrl. simpl in Hrl.
    split; [lia|]. split.
    + rewrite take_ge; [done|lia].
    + rewrite drop_ge; [constructor|lia].
  - eapply returns_bind; [by eapply generate_step_returns|].
    intros idx1 Hstep.
    assert (has_shape2 N (S L) idx1 ∧ entries_below vocab_size idx1) as [Hs1 Hb1].
    { destruct Hidx as [Hlen Hrows]. split; [split|].
      - by rewrite <- (Forall2_length _ _ _ Hstep).
      - apply Forall_forall. intros r' Hr'.
        apply list_elem_of_lookup in Hr' as [i Hi].
        destruct (Forall2_lookup_r _ _ _ _ _ Hstep Hi) as (r & Hr & t & -> & _).
        rewrite length_app, (Forall_lookup_1 _ _ _ _ Hrows Hr). simpl. lia.
      - apply Forall_forall. intros r' Hr'.
        apply list_elem_of_lookup in Hr' as [i Hi].
        destruct (Forall2_lookup_r _ _ _ _ _ Hstep Hi) as (r & Hr & t & -> & Ht).
        apply Forall_app. split.
        + eapply (Forall_lookup_1 _ _ _ _ Hbelow Hr).
        + by constructor. }
    eapply returns_mono; [apply (IH (S L) idx1); [done|lia|done]|].
    intros out Hout.
    apply Forall2_same_length_lookup. split.
    + rewrite (Forall2_length _ _ _ Hstep). by eapply Forall2_length.
    + intros i row row' Hrow Hrow'.
      destruct (Forall2_lookup_l _ _ _ _ _ Hstep Hrow) as (r1 & Hr1 & t & -> & Ht).
      destruct (Forall2_lookup_lr _ _ _ _ _ _ Hout Hr1 Hrow') as (Hl' & Htake & Hdrop).
      destruct Hidx as [_ Hrows].
      pose proof (Forall_lookup_1 _ _ _ _ Hrows Hrow) as Hrl. simpl in Hrl.
      split; [lia|].
      assert (row' = (row ++ [t]) ++ drop (S L) row') as Hsplit.
      { rewrite <- Htake. by rewrite take_drop. }
      split.
      * rewrite Hsplit, <- app_assoc. rewrite take_app_length'; [done|lia].
      * rewrite Hsplit, <- app_assoc. rewrite drop_app_length'; [|lia].
        simpl. by constructor.
Qed.
End Generate.
End GenerateFacts.

(** ** The example generator and parameters *)

Module ExampleFacts.
Import Torch NN Net Shapes Counter Examples InitFacts.

Lemma counter_range : RandomRange nat.
Proof.
  split.
  - intros probs g Hne. simpl. apply Nat.mod_upper_bound.
    by destruct probs.
  - intros high g Hhigh. simpl. apply Nat.mod_upper_bound. lia.
Qed.

Lemma zeros_shape (rows cols : nat) : has_shape2 rows cols (zeros rows cols).
Proof.
  unfold zeros. split.
  - by rewrite length_replicate.
  - apply Forall_replicate. by rewrite length_replicate.
Qed.

Lemma linear_wf (i o : nat) (b : bool) : Linear_wf i o (linear i o b).
Proof.
  unfold Linear_wf, linear. simpl. split_and!; try done.
  - apply zeros_shape.
  - destruct b; simpl; [by rewrite length_replicate|done].
Qed.

Lemma embedding_wf (n d : nat) : Embedding_wf n d (embedding n d).
Proof. unfold Embedding_wf, embedding. simpl. split_and!; try done. apply zeros_shape. Qed.

Lemma head_wf (head_size n_embd block_size : nat) :
  Head_wf head_size n_embd block_size (head head_size n_embd block_size).
Proof. unfold Head_wf, head. simpl. split_and!; try done; apply linear_wf. Qed.

Lemma block_wf (n_embd n_head block_size : nat) :
  Block_wf n_embd n_head block_size (block n_embd n_head block_size).
Proof.
  unfold Block_wf, block, MultiHeadAttention_wf, FeedFoward_wf. simpl.
  split_and!; try apply linear_wf; try apply nn_LayerNorm_wf.
  - by rewrite length_replicate.
  - apply Forall_replicate, head_wf.
Qed.

Lemma model_wf (vocab_size n_embd block_size n_head n_layer : nat) :
  LanguageModel_wf vocab_size n_embd block_size n_head
    (model vocab_size n_embd block_size n_head n_layer).
Proof.
  unfold LanguageModel_wf, model. simpl.
  split_and!; try apply embedding_wf; try apply linear_wf; try apply nn_LayerNorm_wf.
  apply Forall_replicate, block_wf.
Qed.
End ExampleFacts.

Module DigitsFacts.
Import Digits.
Lemma digits_range : RandomRange digits.
Proof.
  split.
  - intros probs g Hne. simpl. apply Nat.mod_upper_bound.
    destruct probs; [done|simpl; lia].
  - intros high g Hhigh. simpl. apply Nat.mod_upper_bound. lia.
Qed.
End DigitsFacts.

(** ** The batch sampler *)

Module BatchFacts.
Import Torch Shapes Train.

Lemma slice_window {A} (data : list A) (i n : nat) :
  slice data i (i + n) = take n (drop i data).
Proof. unfold slice. f_equal. lia. Qed.

Lemma slice_length {A} (data : list A) (i n : nat) :
  i + n ≤ length data → length (slice data i (i + n)) = n.
Proof. intros Hi. rewrite slice_window, length_take, length_drop. lia. Qed.

Lemma slice_lookup {A} (data : list A) (i n t : nat) :
  t < n → slice data i (i + n) !! t = data !! (i + t).
Proof. intros Ht. by rewrite slice_window, lookup_take_lt, lookup_drop. Qed.

Lemma torch_stack_ok (n : nat) (rows : list (list nat)) :
  rows ≠ [] → Forall (λ r, length r = n) rows → torch_stack rows = Ok rows.
Proof.
  intros Hne Hrows. unfold torch_stack. destruct rows as [|r rows]; [done|].
  rewrite decide_True; [done|].
  pose proof Hrows as Hr. apply Forall_cons in Hr as [-> _]. done.
Qed.

Section Sampler.
Context `{Random rng}.
Hypothesis Hrange : RandomRange rng.

Lemma torch_randint_returns (high n : nat) :
  0 < high →
  returns (torch_randint high n) (λ ix, length ix = n ∧ Forall (λ i, i < high) ix).
Proof using Hrange.
  intros Hhigh. unfold torch_randint. rewrite decide_False by lia.
  eapply returns_mono.
  - apply (returns_for_each _ (λ _ i, i < high)).
    apply Forall_forall. intros k _. apply returns_draw.
    intros g. by apply randint_lt.
  - intros ix HF. split.
    + by rewrite <- (Forall2_length _ _ _ HF), length_seq.
    + by eapply Forall2_const_r.
Qed.
End Sampler.
End BatchFacts.

(** ** Batches and loss estimation *)

Module EvalFacts.
Import Torch NN Net Shapes Train BatchFacts ForwardFacts.

Lemma slice_Forall {A} (P : A → Prop) (data : list A) (i j : nat) :
  Forall P data → Forall P (slice data i j).
Proof. intros Hd. unfold slice. by apply Forall_take, Forall_drop. Qed.

Section Sampler.
Context `{Random rng}.
Hypothesis Hrange : RandomRange rng.
Variable hp : hyperparameters.
Variables train_encoded dev_encoded test_encoded : list nat.

(** The batch of a split longer than a window: the offsets that
    [torch.randint] drew and the windows at these offsets. *)
Lemma get_batch_draws (data : list nat) (split : string) g :
  split_data train_encoded dev_encoded test_encoded split = Ok data →
  block_size hp < length data →
  0 < batch_size hp →
  ∃ ix g',
    torch_randint (length data - block_size hp) (batch_size hp) g = Ok (ix, g') ∧
    length ix = batch_size hp ∧
    Forall (λ i, i < length data - block_size hp) ix ∧
    get_batch hp train_encoded dev_encoded test_encoded split g
      = Ok (((λ i, slice data i (i + block_size hp)) <$> ix,
             (λ i, slice data (i + 1) (i + block_size hp + 1)) <$> ix), g').
Proof using Hrange.
  intros Hsplit Hlen Hbatch.
  destruct (torch_randint_returns Hrange (length data - block_size hp) (batch_size hp)
              ltac:(lia) g) as (ix & g' & Hix & Hixl & Hixb).
  exists ix, g'. split; [done|]. split; [done|]. split; [done|].
  unfold get_batch. rewrite Hsplit.
  unfold mbind at 1. unfold M_bind. simpl.
  unfold mbind at 1. unfold M_bind. rewrite Hix.
  assert (torch_stack ((λ i, slice data i (i + block_size hp)) <$> ix)
          = Ok ((λ i, slice data i (i + block_size hp)) <$> ix)) as ->.
  { apply (torch_stack_ok (block_size hp)).
    - intros Hnil. apply fmap_nil_inv in Hnil. subst ix. simpl in Hixl. lia.
    - apply Forall_fmap. eapply Forall_impl; [exact Hixb|]. simpl.
      intros i Hi. apply slice_length. lia. }
  unfold mbind at 1. unfold M_bind. simpl.
  assert (torch_stack ((λ i, slice data (i + 1) (i + block_size hp + 1)) <$> ix)
          = Ok ((λ i, slice data (i + 1) (i + block_size hp + 1)) <$> ix)) as ->.
  { apply (torch_stack_ok (block_size hp)).
    - intros Hnil. apply fmap_nil_inv in Hnil. subst ix. simpl in Hixl. lia.
    - apply Forall_fmap. eapply Forall_impl; [exact Hixb|]. simpl.
      intros i Hi. replace (i + block_size hp + 1) with ((i + 1) + block_size hp)
        by lia. apply slice_length. lia. }
  done.
Qed.

Lemma get_batch_returns (vocab_size : nat) (data : list nat) (split : string) :
  split_data train_encoded dev_encoded test_encoded split = Ok data →
  block_size hp < length data →
  0 < batch_size hp →
  Forall (λ t, t < vocab_size) data →
  returns (get_batch hp train_encoded dev_encoded test_encoded split)
    (λ xy, has_shape2 (batch_size hp) (block_size hp) xy.1 ∧
           has_shape2 (batch_size hp) (block_size hp) xy.2 ∧
           entries_below vocab_size xy.1 ∧ entries_below vocab_size xy.2).
Proof using Hrange.
  intros Hsplit Hlen Hbatch Hdata g.
  destruct (get_batch_draws data split g Hsplit Hlen Hbatch)
    as (ix & g' & _ & Hixl & Hixb & Hg).
  eexists _, g'. split; [exact Hg|]. simpl. split_and!.
  - split; [by rewrite length_fmap|].
    apply Forall_fmap. eapply Forall_impl; [exact Hixb|]. simpl.
    intros i Hi. apply slice_length. lia.
  - split; [by rewrite length_fmap|].
    apply Forall_fmap. eapply Forall_impl; [exact Hixb|]. simpl.
    intros i Hi. replace (i + block_size hp + 1) with ((i + 1) + block_size hp)
      by lia. apply slice_length. lia.
  - apply Forall_fmap, Forall_forall. intros i _. by apply slice_Forall.
  - apply Forall_fmap, Forall_forall. intros i _. by apply slice_Forall.
Qed.
End Sampler.

Lemma mean_scalars_nonneg (l : list scalar) :
  l ≠ [] → Forall (λ s, ∃ r, s = Real r ∧ (0 <= r)%R) l →
  ∃ r, mean_scalars l = Real r ∧ (0 <= r)%R.
Proof.
  intros Hne Hl. unfold mean_scalars.
  assert (∃ v, mapM (λ s, match s with Real r => Some r | NaN => None end) l = Some v ∧
               length v = length l ∧ Forall (λ r, (0 <= r)%R) v) as (v & -> & Hlen & Hv).
  { clear Hne. induction Hl as [|s l (r & -> & Hr) _ (v & Hv & Hlen & Hpos)].
    - by exists [].
    - exists (r :: v). simpl. rewrite Hv. simpl. split; [done|]. split; [by rewrite Hlen|].
      by constructor. }
  apply LossFacts.mean_nonneg; [|done]. intros ->. destruct l; [done|]. simpl in Hlen. lia.
Qed.

Section Estimate.
Context `{Random rng}.
Hypothesis Hrange : RandomRange rng.
Variable hp : hyperparameters.
Variable vocab_size : nat.
Variables train_encoded dev_encoded test_encoded : list nat.
Variable m : LanguageModel.
Hypothesis Hdiv : heads_divide (n_embd hp) (n_head hp).
Hypothesis Hwf : LanguageModel_wf vocab_size (n_embd hp) (block_size hp) (n_head hp) m.
Hypothesis Hbatch : 0 < batch_size hp.
Hypothesis Hblock : 0 < block_size hp.

(** One evaluation batch of a split: a non-negative loss. *)
Lemma evaluation_batch_returns (data : list nat) (split : string) :
  split_data train_encoded dev_encoded test_encoded split = Ok data →
  block_size hp < length data →
  Forall (λ t, t < vocab_size) data →
  returns ('(X, Y) ← get_batch hp train_encoded dev_encoded test_encoded split;
           '(logits, loss) ← model_call false m X (Some Y);
           lift (not_None loss))
    (λ s, ∃ r, s = Real r ∧ (0 <= r)%R).
Proof using Hrange Hdiv Hwf Hbatch Hblock.
  intros Hsplit Hlen Hdata.
  eapply returns_bind; [by eapply (get_batch_returns Hrange)|].
  intros [X Y] (HX & HY & HXb & HYb). simpl in *.
  eapply returns_bind.
  { unfold model_call.
    by eapply (forward_Some_returns vocab_size (n_embd hp) (block_size hp) (n_head hp) m
                 Hdiv Hwf false (batch_size hp) (block_size hp) X Y). }
  intros [logits loss] (l2 & l & [= -> ->] & _ & _ & _ & Hreal).
  destruct Hreal as (r & -> & Hr); [nia|].
  eapply returns_lift; [done|]. by exists r.
Qed.

Hypothesis Hiters : 0 < eval_iters hp.

(** [estimate_loss("train", model)], the call its signature asks for: the
    mean losses of the training and of the validation split. *)
Lemma estimate_loss_train_returns :
  block_size hp < length train_encoded →
  block_size hp < length dev_encoded →
  Forall (λ t, t < vocab_size) train_encoded →
  Forall (λ t, t < vocab_size) dev_encoded →
  returns (estimate_loss hp train_encoded dev_encoded test_encoded
             (Some "train") (Some m))
    (λ out, ∃ tr dv, out !! "train" = Some (Real tr) ∧ out !! "dev" = Some (Real dv) ∧
                     (0 <= tr)%R ∧ (0 <= dv)%R).
Proof using Hrange Hdiv Hwf Hbatch Hblock Hiters.
  intros Htl Hdl Htb Hdb. unfold estimate_loss.
  eapply returns_bind; [apply returns_required|]. intros ? ->.
  eapply returns_bind; [apply returns_required|]. intros ? ->.
  cbv zeta. rewrite decide_True by done.
  assert (∀ split data,
    split_data train_encoded dev_encoded test_encoded split = Ok data →
    block_size hp < length data → Forall (λ t, t < vocab_size) data →
    returns (losses ← for_each
               (λ _, '(X, Y) ← get_batch hp train_encoded dev_encoded test_encoded split;
                     '(logits, loss) ← model_call false m X (Some Y);
                     lift (not_None loss))
               (seq 0 (eval_iters hp));
             mret (split, mean_scalars losses))
      (λ kv, kv.1 = split ∧ ∃ r, kv.2 = Real r ∧ (0 <= r)%R)) as Hsplit.
  { intros split data Hs Hl Hb.
    eapply returns_bind.
    { apply (returns_for_each _ (λ _ s, ∃ r, s = Real r ∧ (0 <= r)%R)).
      apply Forall_forall. intros k _. by eapply evaluation_batch_returns. }
    intros losses HF. apply returns_ret. split; [done|]. simpl.
    apply mean_scalars_nonneg.
    - intros ->. apply Forall2_length in HF. rewrite length_seq in HF. simpl in HF. lia.
    - by eapply Forall2_const_r. }
  eapply returns_bind.
  { apply (returns_for_each _
             (λ split kv, kv.1 = split ∧ ∃ r, kv.2 = Real r ∧ (0 <= r)%R)).
    repeat constructor.
    - by apply (Hsplit "train" train_encoded).
    - by apply (Hsplit "dev" dev_encoded). }
  intros out HF. apply returns_ret.
  apply Forall2_cons_inv_l in HF as ([k1 v1] & out1 & (Hk1 & r1 & Hv1 & Hr1) & HF & ->).
  apply Forall2_cons_inv_l in HF as ([k2 v2] & out2 & (Hk2 & r2 & Hv2 & Hr2) & HF & ->).
  apply Forall2_nil_inv_l in HF as ->. simpl in *. subst.
  exists r1, r2. split_and!; try done.
Qed.
End Estimate.
End EvalFacts.

(** ** Training loop *)

Module TrainFacts.
Import Torch NN Net Shapes InitFacts Train.

Section Notebook.
Context `{Random rng}.
Variable hp : hyperparameters.
Variable vocab_size : nat.
Variables train_encoded dev_encoded test_encoded : list nat.
Variable optimizer_step : LanguageModel → list (list nat) → list (list nat) → LanguageModel.

(** A call of [estimate_loss] that leaves the model out. *)
Lemma estimate_loss_missing_model (mode : option string) g :
  estimate_loss hp train_encoded dev_encoded test_encoded mode None g
  = Raise TypeError.
Proof. by destruct mode. Qed.

Lemma loss_row_raises (it : nat) g :
  loss_row hp train_encoded dev_encoded test_encoded it g = Raise TypeError.
Proof. reflexivity. Qed.

(** A turn of the loop in which the evaluation is due. *)
Lemma iteration_due_raises (it : nat) (s : run_state) :
  eval_interval hp ≠ 0 →
  it mod eval_interval hp = 0 ∨ it = max_iters hp - 1 →
  iteration hp train_encoded dev_encoded test_encoded optimizer_step it s
  = (s, Some TypeError).
Proof.
  intros Hne Hdue. unfold iteration, modulo.
  rewrite decide_False by done. rewrite decide_True by done.
  by rewrite loss_row_raises.
Qed.

Lemma training_loop_raises (s : run_state) :
  0 < max_iters hp → eval_interval hp ≠ 0 →
  training_loop hp train_encoded dev_encoded test_encoded optimizer_step s
  = (s, Some TypeError).
Proof.
  intros Hit Hne. unfold training_loop.
  destruct (max_iters hp) as [|n] eqn:Hn; [lia|].
  change (seq 0 (S n)) with (0 :: seq 1 n). cbn [for_iter].
  rewrite iteration_due_raises; [done|done|].
  left. by apply Nat.Div0.mod_0_l.
Qed.

(** [LanguageModel()] builds its blocks without a [block_size]. *)
Lemma LanguageModel_init_raises (n_embd block_size n_head n_layer : nat) g :
  0 < n_layer →
  LanguageModel_init vocab_size n_embd block_size n_head n_layer g
  = Raise TypeError.
Proof.
  intros Hl. unfold LanguageModel_init.
  destruct (nn_Embedding_returns vocab_size n_embd g) as (tok & g1 & Htok & _).
  rewrite (bind_returns _ _ _ _ _ Htok).
  destruct (nn_Embedding_returns block_size n_embd g1) as (pos & g2 & Hpos & _).
  rewrite (bind_returns _ _ _ _ _ Hpos).
  apply bind_raises.
  destruct n_layer as [|n]; [lia|].
  change (seq 0 (S n)) with (0 :: seq 1 n). cbn [for_each].
  apply bind_raises. apply Block_init_missing_block_size.
Qed.

Lemma cell_24_raises (loss_file0 : list LossRecord) g :
  0 < n_layer hp →
  cell_24 hp vocab_size train_encoded dev_encoded test_encoded optimizer_step
    loss_file0 g
  = (loss_file0, Some TypeError).
Proof.
  intros Hl. unfold cell_24. by rewrite LanguageModel_init_raises.
Qed.
End Notebook.
End TrainFacts.

(** ** Evaluation mode *)

Module PureFacts.
Import Torch NN Net Shapes.

Section Pure.
Context `{Random rng}.

Lemma draws_nothing_ret {A} (a : A) : draws_nothing (rng:=rng) (mret a).
Proof. by exists (Ok a). Qed.

Lemma draws_nothing_lift {A} (r : result A) : draws_nothing (rng:=rng) (lift r).
Proof. by exists r. Qed.

Lemma draws_nothing_bind {A B} (m : M rng A) (k : A → M rng B) :
  draws_nothing m → (∀ a, draws_nothing (k a)) → draws_nothing (m ≫= k).
Proof.
  intros [[a|e] Hr] Hk.
  - destruct (Hk a) as [ra Hra]. exists ra. intros g.
    unfold mbind, M_bind. rewrite Hr. simpl. apply Hra.
  - exists (Raise e). intros g. unfold mbind, M_bind. by rewrite Hr.
Qed.

Lemma draws_nothing_for_each {A B} (f : A → M rng B) (l : list A) :
  (∀ x, draws_nothing (f x)) → draws_nothing (for_each f l).
Proof.
  intros Hf. induction l as [|x l IH]; simpl.
  - apply draws_nothing_ret.
  - apply draws_nothing_bind; [apply Hf|]. intros y.
    apply draws_nothing_bind; [apply IH|]. intros ys. apply draws_nothing_ret.
Qed.

(** In evaluation mode a dropout layer is the identity. *)
Lemma Dropout_forward_eval (d : Dropout) (x : tensor3) :
  Dropout_forward false d x = mret x.
Proof. reflexivity. Qed.

Lemma Head_forward_eval_draws_nothing (h : Head) (x : tensor3) :
  draws_nothing (Head_forward false h x).
Proof.
  unfold Head_forward, Head_weights. destruct (shape3 x) as [[B T] C].
  apply draws_nothing_bind.
  - apply draws_nothing_bind; [apply draws_nothing_lift|]. intros wei.
    apply draws_nothing_bind; [apply draws_nothing_lift|]. intros wei'.
    apply draws_nothing_ret.
  - intros wei. apply draws_nothing_bind; [apply draws_nothing_lift|].
    intros v. apply draws_nothing_ret.
Qed.

Lemma MultiHeadAttention_forward_eval_draws_nothing (m : MultiHeadAttention)
    (x : tensor3) :
  draws_nothing (MultiHeadAttention_forward false m x).
Proof.
  unfold MultiHeadAttention_forward.
  apply draws_nothing_bind.
  { apply draws_nothing_for_each. intros h. apply Head_forward_eval_draws_nothing. }
  intros outs. apply draws_nothing_bind; [apply draws_nothing_lift|]. intros out.
  apply draws_nothing_bind; [apply draws_nothing_lift|]. intros out'.
  apply draws_nothing_ret.
Qed.

Lemma FeedFoward_forward_eval_draws_nothing (f : FeedFoward) (x : tensor3) :
  draws_nothing (FeedFoward_forward false f x).
Proof.
  unfold FeedFoward_forward.
  apply draws_nothing_bind; [apply draws_nothing_lift|]. intros y.
  apply draws_nothing_bind; [apply draws_nothing_lift|]. intros z.
  apply draws_nothing_ret.
Qed.

Lemma Block_forward_eval_draws_nothing (b : Block) (x : tensor3) :
  draws_nothing (Block_forward false b x).
Proof.
  unfold Block_forward.
  apply draws_nothing_bind; [apply draws_nothing_lift|]. intros y.
  apply draws_nothing_bind; [apply MultiHeadAttention_forward_eval_draws_nothing|].
  intros y'.
  apply draws_nothing_bind; [apply draws_nothing_lift|]. intros z.
  apply draws_nothing_bind; [apply FeedFoward_forward_eval_draws_nothing|].
  intros z'. apply draws_nothing_ret.
Qed.

Lemma Sequential_forward_eval_draws_nothing (bs : list Block) (x : tensor3) :
  draws_nothing (Sequential_forward false bs x).
Proof.
  revert x. induction bs as [|b bs IH]; intros x; simpl.
  - apply draws_nothing_ret.
  - apply draws_nothing_bind; [apply Block_forward_eval_draws_nothing|]. apply IH.
Qed.

Lemma forward_logits_eval_draws_nothing (m : LanguageModel) (idx : list (list nat)) :
  draws_nothing (forward_logits false m idx).
Proof.
  unfold forward_logits.
  apply draws_nothing_bind; [apply draws_nothing_lift|]. intros tok.
  apply draws_nothing_bind; [apply draws_nothing_lift|]. intros pos.
  apply draws_nothing_bind; [apply Sequential_forward_eval_draws_nothing|]. intros x.
  apply draws_nothing_bind; [apply draws_nothing_lift|]. intros y.
  apply draws_nothing_lift.
Qed.

Lemma forward_eval_draws_nothing (m : LanguageModel) (idx : list (list nat))
    (targets : option (list (list nat))) :
  draws_nothing (forward false m idx targets).
Proof.
  unfold forward.
  apply draws_nothing_bind; [apply forward_logits_eval_draws_nothing|].
  intros logits. destruct targets as [targets|]; [|apply draws_nothing_ret].
  destruct (shape3 logits) as [[B T] C].
  apply draws_nothing_bind; [apply draws_nothing_lift|]. intros t.
  apply draws_nothing_bind; [apply draws_nothing_lift|]. intros loss.
  apply draws_nothing_ret.
Qed.

(** A run that draws nothing and returns: the generator it returns is the
    one it got. *)
Lemma draws_nothing_returns {A} (c : M rng A) (a : A) g g' :
  draws_nothing c → c g = Ok (a, g') → g' = g ∧ ∀ g0, c g0 = Ok (a, g0).
Proof.
  intros [r Hr] Hc. rewrite Hr in Hc. destruct r as [a0|e]; [|done].
  injection Hc as -> ->. split; [done|]. intros g0. by rewrite Hr.
Qed.
End Pure.
End PureFacts.

(** ** The first positions of an input, and the attention weights *)

Module PrefixFacts.
Import Torch NN Net Shapes LayerFacts HeadFacts ModelFacts LossFacts ForwardFacts PureFacts.

(** *** Runs that return alike *)

Section BothReturn.
Context {rng : Type}.

Lemma both_return_ret {A B} (rel : A → B → Prop) a b :
  rel a b → both_return (rng:=rng) rel (mret a) (mret b).
Proof. intros Hab g. by exists a, b. Qed.

Lemma both_return_lift {A B} (rel : A → B → Prop) r r' a b :
  r = Ok a → r' = Ok b → rel a b → both_return (rng:=rng) rel (lift r) (lift r').
Proof. intros -> -> Hab g. by exists a, b. Qed.

Lemma both_return_bind {A B A' B'} (rel : A → B → Prop) (rel' : A' → B' → Prop)
    (c : M rng A) (c' : M rng B) (k : A → M rng A') (k' : B → M rng B') :
  both_return rel c c' →
  (∀ a b, rel a b → both_return rel' (k a) (k' b)) →
  both_return rel' (c ≫= k) (c' ≫= k').
Proof.
  intros Hc Hk g. destruct (Hc g) as (a & b & Ha & Hb & Hab).
  destruct (Hk a b Hab g) as (a' & b' & Ha' & Hb' & Hab').
  exists a', b'. unfold mbind, M_bind. by rewrite Ha, Hb.
Qed.

Lemma both_return_for_each {A B C} (rel : B → C → Prop)
    (f : A → M rng B) (f' : A → M rng C) l :
  Forall (λ x, both_return rel (f x) (f' x)) l →
  both_return (λ ys ys', length ys = length l ∧ Forall2 rel ys ys')
    (for_each f l) (for_each f' l).
Proof.
  induction 1 as [|x l Hx _ IH]; simpl.
  - apply both_return_ret. split; [done|constructor].
  - eapply both_return_bind; [exact Hx|]. intros y y' Hy.
    eapply both_return_bind; [exact IH|]. intros ys ys' [Hlen Hys].
    apply both_return_ret. split; [simpl; by rewrite Hlen|by constructor].
Qed.

Lemma both_return_returns {A B} (rel : A → B → Prop) (P : A → Prop)
    (c : M rng A) (c' : M rng B) :
  both_return rel c c' → returns c P → both_return (λ a b, rel a b ∧ P a) c c'.
Proof.
  intros Hc HP g. destruct (Hc g) as (a & b & Ha & Hb & Hab).
  destruct (HP g) as (a0 & g0 & Ha0 & HPa).
  exists a, b. split; [done|]. split; [done|]. split; [done|]. congruence.
Qed.

Lemma both_return_mono {A B} (rel rel' : A → B → Prop) (c : M rng A) (c' : M rng B) :
  both_return rel c c' → (∀ a b, rel a b → rel' a b) → both_return rel' c c'.
Proof.
  intros Hc Himp g. destruct (Hc g) as (a & b & Ha & Hb & Hab).
  exists a, b. auto.
Qed.
End BothReturn.

(** A step of both runs whose values [y] and [y'] are known. *)
Ltac lifted_alike y y' Hy Hy' :=
  eapply both_return_bind;
  [eapply (both_return_lift (λ a b, a = y ∧ b = y')); [exact Hy|exact Hy'|done]|];
  intros ? ? [-> ->].

(** *** The first positions of a tensor *)

Lemma comprehension_take {A B} (f : A → result B) l ys n :
  comprehension f l = Ok ys → comprehension f (take n l) = Ok (take n ys).
Proof.
  revert ys n. induction l as [|x l IH]; intros ys n.
  - intros [= <-]. by destruct n.
  - rewrite comprehension_cons.
    destruct (f x) as [y|e] eqn:Hx; [|done].
    destruct (comprehension f l) as [ys'|e] eqn:Hl; [|done].
    intros [= <-]. destruct n as [|n]; [done|].
    simpl take. rewrite comprehension_cons, Hx, (IH ys' n eq_refl). done.
Qed.

Lemma rows_first_positions {A B} (f : A → result B) x y n :
  comprehension (comprehension f) x = Ok y →
  comprehension (comprehension f) (first_positions n x) = Ok (first_positions n y).
Proof.
  unfold first_positions. revert y. induction x as [|m x IH]; intros y.
  - by intros [= <-].
  - rewrite comprehension_cons.
    destruct (comprehension f m) as [m'|e] eqn:Hm; [|done].
    destruct (comprehension (comprehension f) x) as [y'|e] eqn:Hx; [|done].
    intros [= <-]. rewrite !fmap_cons, comprehension_cons.
    by rewrite (comprehension_take _ _ _ n Hm), (IH y' eq_refl).
Qed.

Lemma zip_with_first_positions {A B C} (h : A → B → C) n a b :
  zip_with (zip_with h) (first_positions n a) (first_positions n b)
  = first_positions n (zip_with (zip_with h) a b).
Proof.
  unfold first_positions. revert b. induction a as [|ma a IH]; intros [|mb b]; try done.
  simpl. by rewrite zip_with_take, IH.
Qed.

Lemma map3_first_positions {A B} (f : A → B) n (x : list (list (list A))) :
  map3 f (first_positions n x) = first_positions n (map3 f x).
Proof.
  unfold map3, map2, first_positions.
  rewrite <- !list_fmap_compose. apply list_fmap_ext. intros _ m _. simpl.
  by rewrite fmap_take.
Qed.

Lemma add3_first_positions n (a b : tensor3) :
  add3 (first_positions n a) (first_positions n b) = first_positions n (add3 a b).
Proof. apply zip_with_first_positions. Qed.

Lemma first_positions_shape2 {A} (n N T : nat) (x : list (list A)) :
  has_shape2 N T x → n ≤ T → has_shape2 N n (first_positions n x).
Proof.
  intros [Hlen Hrows] Hn. unfold first_positions. split; [by rewrite length_fmap|].
  apply Forall_fmap. eapply Forall_impl; [exact Hrows|]. simpl.
  intros r Hr. rewrite length_take. lia.
Qed.

Lemma first_positions_shape3 {A} (n N T C : nat) (x : list (list (list A))) :
  has_shape3 N T C x → n ≤ T → has_shape3 N n C (first_positions n x).
Proof.
  intros [Hlen Hms] Hn. unfold first_positions. split; [by rewrite length_fmap|].
  apply Forall_fmap. eapply Forall_impl; [exact Hms|]. simpl.
  intros m [Hm Hrows]. split; [rewrite length_take; lia|]. by apply Forall_take.
Qed.

Lemma Forall2_first_positions {A} n (P : list (list A) → Prop)
    (xs xs' : list (list (list A))) :
  Forall2 (λ x x', P x ∧ x' = first_positions n x) xs xs' →
  Forall P xs ∧ xs' = first_positions n <$> xs.
Proof.
  induction 1 as [|x x' xs xs' [HP ->] _ [IH ->]]; [done|].
  split; [by constructor|done].
Qed.

Lemma cat_last_first_positions n (ts : list tensor3) out :
  cat_last ts = Ok out →
  cat_last (first_positions n <$> ts) = Ok (first_positions n out).
Proof.
  revert out. induction ts as [|t ts IH]; intros out; [done|].
  destruct ts as [|t' ts].
  - by intros [= <-].
  - change (cat_last (t :: t' :: ts))
      with (r ← cat_last (t' :: ts); Ok (zip_with (zip_with app) t r)).
    destruct (cat_last (t' :: ts)) as [r|e]; [|done].
    intros [= <-].
    change (cat_last (first_positions n <$> t :: t' :: ts))
      with (r ← cat_last (first_positions n <$> t' :: ts);
            Ok (zip_with (zip_with app) (first_positions n t) r)).
    rewrite (IH r eq_refl). simpl. by rewrite zip_with_first_positions.
Qed.

(** *** The attention head on the first positions *)

Lemma sum_app (u v : vector) : sum (u ++ v) = (sum u + sum v)%R.
Proof.
  induction u as [|a u IH].
  - rewrite app_nil_l. change (sum []) with 0%R. lra.
  - rewrite <- app_comm_cons, !sum_cons, IH. lra.
Qed.

Lemma sum_zeros (v : vector) : Forall (λ a, a = 0%R) v → sum v = 0%R.
Proof. induction 1 as [|a v -> _ IH]; [done|]. rewrite sum_cons, IH. lra. Qed.

Lemma scale_first_positions (n : nat) (x : tensor3) :
  0 < n →
  (if decide (length (first_positions n x) * length (hd [] (first_positions n x)) = 0)
   then Ok 1%R
   else pow_neg_half (length (hd [] (hd [] (first_positions n x)))))
  = (if decide (length x * length (hd [] x) = 0) then Ok 1%R
     else pow_neg_half (length (hd [] (hd [] x)))).
Proof.
  intros Hn. destruct n as [|n]; [lia|].
  destruct x as [|[|r m] x]; [done| |];
    unfold first_positions; rewrite !fmap_cons; cbn [hd take length].
  - rewrite !decide_True by lia. done.
  - rewrite !decide_False by (simpl; lia). done.
Qed.

Lemma matmul_transposed_upper_left (n : nat) (a b : matrix) :
  matmul_transposed (take n a) (take n b) = upper_left n (matmul_transposed a b).
Proof.
  unfold matmul_transposed, upper_left.
  rewrite <- fmap_take, <- list_fmap_compose.
  apply list_fmap_ext. intros _ r _. simpl. by rewrite fmap_take.
Qed.

Lemma scores_upper_left (n : nat) (q k : tensor3) :
  zip_with matmul_transposed (first_positions n q) (first_positions n k)
  = upper_left n <$> zip_with matmul_transposed q k.
Proof.
  unfold first_positions. revert k. induction q as [|mq q IH]; intros [|mk k]; try done.
  simpl. by rewrite matmul_transposed_upper_left, IH.
Qed.

Lemma map3_upper_left {A B} (f : A → B) n (x : list (list (list A))) :
  map3 f (upper_left n <$> x) = upper_left n <$> map3 f x.
Proof.
  unfold map3, map2, upper_left.
  rewrite <- !list_fmap_compose. apply list_fmap_ext. intros _ m _. simpl.
  rewrite <- !fmap_take, <- !list_fmap_compose.
  apply list_fmap_ext. intros _ r _. simpl. by rewrite fmap_take.
Qed.

Lemma Head_scores_first_positions (h : Head) (n : nat) (x s : tensor3) :
  0 < n → Head_scores h x = Ok s →
  Head_scores h (first_positions n x) = Ok (upper_left n <$> s).
Proof.
  intros Hn. unfold Head_scores, shape3.
  destruct (Linear_forward (key h) x) as [k|e] eqn:Hk; [|done].
  destruct (Linear_forward (query h) x) as [q|e] eqn:Hq; [|done].
  unfold Linear_forward in *.
  rewrite (rows_first_positions _ _ _ n Hk), (rows_first_positions _ _ _ n Hq).
  simpl. rewrite (scale_first_positions n x Hn).
  destruct (if decide (length x * length (hd [] x) = 0) then Ok 1%R
            else pow_neg_half (length (hd [] (hd [] x)))) as [scale|e]; [|done].
  simpl. intros [= <-]. by rewrite scores_upper_left, map3_upper_left.
Qed.

(** Masking a matrix with a mask of its shape. *)
Lemma masked_fill_same_shape (w : matrix) (mask : list (list bool)) (v : ereal) :
  Forall2 (λ r mr, length mr = length r) w mask →
  masked_fill w mask v
  = Ok (zip_with (zip_with (λ x (b : bool), if b then v else Fin x)) w mask).
Proof.
  intros HF. unfold masked_fill.
  rewrite broadcast_to_same by (symmetry; by eapply Forall2_length).
  simpl. induction HF as [|r mr w mask Hr _ IH]; [done|].
  simpl zip. rewrite comprehension_cons, broadcast_to_same by done.
  simpl. by rewrite IH.
Qed.

Lemma causal_mask_upper_left (h : Head) (n T : nat) :
  n ≤ T → causal_mask h n = upper_left n (causal_mask h T).
Proof.
  intros Hn. unfold causal_mask, upper_left.
  rewrite <- fmap_take, take_take, Nat.min_l by done.
  rewrite <- list_fmap_compose. apply list_fmap_ext. intros _ row _. simpl.
  by rewrite <- fmap_take, take_take, Nat.min_l.
Qed.

Lemma causal_mask_same_shape (h : Head) (T block_size : nat) (w : matrix) :
  tril h = tril_ones block_size → T ≤ block_size → has_shape2 T T w →
  Forall2 (λ r (mr : list bool), length mr = length r) w (causal_mask h T).
Proof.
  intros Htril HT [Hlen Hrows]. rewrite (causal_mask_fits h T block_size Htril HT).
  apply Forall2_same_length_lookup. split.
  - by rewrite length_fmap, length_seq.
  - intros i r mr Hr Hmr. rewrite list_lookup_fmap in Hmr.
    destruct (seq 0 T !! i); simplify_eq/=.
    rewrite length_fmap, length_seq. symmetry.
    eapply (Forall_lookup_1 _ _ _ _ Hrows Hr).
Qed.

Lemma Forall2_upper_left {A B} (n : nat) (a : list (list A)) (b : list (list B)) :
  Forall2 (λ r mr, length mr = length r) a b →
  Forall2 (λ r mr, length mr = length r) (upper_left n a) (upper_left n b).
Proof.
  intros HF. unfold upper_left. apply Forall2_fmap, Forall2_take.
  eapply Forall2_impl; [exact HF|]. simpl. intros r mr Hr.
  rewrite !length_take. lia.
Qed.

Lemma zip_with_upper_left {A B C} (h : A → B → C) n a b :
  zip_with (zip_with h) (upper_left n a) (upper_left n b)
  = upper_left n (zip_with (zip_with h) a b).
Proof.
  unfold upper_left. rewrite zip_with_take.
  apply (zip_with_first_positions h n (take n a) (take n b)).
Qed.

Lemma masked_fill_upper_left (h : Head) (n T block_size : nat) (w : matrix) mw :
  tril h = tril_ones block_size → T ≤ block_size → n ≤ T → has_shape2 T T w →
  masked_fill w (causal_mask h T) NegInf = Ok mw →
  masked_fill (upper_left n w) (causal_mask h n) NegInf = Ok (upper_left n mw).
Proof.
  intros Htril HT Hn Hw.
  pose proof (causal_mask_same_shape h T block_size w Htril HT Hw) as HF.
  rewrite (masked_fill_same_shape w _ _ HF). intros [= <-].
  rewrite (causal_mask_upper_left h n T Hn).
  rewrite (masked_fill_same_shape _ _ _ (Forall2_upper_left n _ _ HF)).
  by rewrite zip_with_upper_left.
Qed.

(** The softmax of a row whose entries from [n] on are masked. *)
Lemma softmax_take (n : nat) (row : list ereal) :
  (∀ t', n ≤ t' → t' < length row → row !! t' = Some NegInf) →
  softmax (take n row) = take n (softmax row).
Proof.
  intros Hinf. unfold softmax. rewrite <- fmap_take.
  assert (sum (eexp <$> take n row) = sum (eexp <$> row)) as ->; [|done].
  rewrite <- (take_drop n row) at 2. rewrite fmap_app, sum_app.
  rewrite (sum_zeros (eexp <$> drop n row)); [lra|].
  apply Forall_fmap, Forall_lookup. intros j x Hj. simpl.
  rewrite lookup_drop in Hj.
  rewrite Hinf in Hj; [by injection Hj as <-|lia|by eapply lookup_lt_Some].
Qed.

Lemma softmax_upper_left (n T : nat) (mw : list (list ereal)) :
  has_shape2 T T mw →
  (∀ t t' row, mw !! t = Some row → t < t' → t' < T → row !! t' = Some NegInf) →
  softmax <$> upper_left n mw = upper_left n (softmax <$> mw).
Proof.
  intros [Hlen Hrows] Hinf. unfold upper_left.
  rewrite <- fmap_take, <- !list_fmap_compose.
  apply list_fmap_ext. intros t row Ht. simpl.
  apply lookup_take_Some in Ht as [Ht Htn].
  apply softmax_take. intros t' Ht' Hlt.
  rewrite (Forall_lookup_1 _ _ _ _ Hrows Ht) in Hlt.
  apply (Hinf t); [done|lia|done].
Qed.

(** The product of a row of weights that are zero from [n] on. *)
Lemma dot_take (n : nat) (r col : vector) :
  Forall (λ a, a = 0%R) (drop n r) →
  dot (take n r) (take n col) = dot r col.
Proof.
  intros Hz. unfold dot. rewrite <- (take_drop n (zip_with Rmult r col)) at 1.
  rewrite sum_app, zip_with_take, zip_with_drop.
  rewrite (sum_zeros (zip_with Rmult (drop n r) (drop n col))); [lra|].
  apply Forall_forall. intros p Hp.
  apply elem_of_lookup_zip_with in Hp as (i & a & b & -> & Ha & _).
  rewrite (Forall_lookup_1 _ _ _ _ Hz Ha). lra.
Qed.

Lemma matmul_upper_left (n : nat) (w vb : matrix) :
  0 < n →
  (∀ t row, w !! t = Some row → t < n → Forall (λ a, a = 0%R) (drop n row)) →
  matmul (upper_left n w) (take n vb) = take n (matmul w vb).
Proof.
  intros Hn Hz. unfold matmul, upper_left.
  assert (hd [] (take n vb) = hd [] vb) as ->.
  { destruct n; [lia|]. by destruct vb. }
  rewrite <- fmap_take, <- list_fmap_compose.
  apply list_fmap_ext. intros t row Ht. simpl.
  apply lookup_take_Some in Ht as [Ht Htn].
  apply list_fmap_ext. intros _ c _.
  unfold column. rewrite fmap_take. apply dot_take. by apply (Hz t).
Qed.

Lemma zip_with_matmul_first_positions (n : nat) (wei v : tensor3) :
  0 < n → causal wei →
  zip_with matmul (upper_left n <$> wei) (first_positions n v)
  = first_positions n (zip_with matmul wei v).
Proof.
  intros Hn Hc.
  assert (Forall (λ w, ∀ t row, w !! t = Some row → t < n →
                    Forall (λ a, a = 0%R) (drop n row)) wei) as Hz.
  { apply Forall_lookup. intros b w Hb t row Ht Htn.
    apply Forall_lookup. intros j a Hj. rewrite lookup_drop in Hj.
    apply (Hc b w t row (n + j) a Hb Ht Hj). lia. }
  clear Hc. unfold first_positions. revert v.
  induction Hz as [|w wei Hw _ IH]; intros [|vb v]; try done.
  simpl. by rewrite (matmul_upper_left n w vb Hn Hw), IH.
Qed.

Lemma comprehension_fmap_Forall2 {A A' B B'} (f : A' → result B')
    (pa : A → A') (pb : B → B') l ys :
  Forall2 (λ x y, f (pa x) = Ok (pb y)) l ys →
  comprehension f (pa <$> l) = Ok (pb <$> ys).
Proof.
  induction 1 as [|x y l ys Hx _ IH]; [done|].
  rewrite !fmap_cons, comprehension_cons, Hx, IH. done.
Qed.

Section Head.
Context `{Random rng}.
Variables head_size n_embd block_size : nat.
Variable h : Head.
Hypothesis Hwf : Head_wf head_size n_embd block_size h.
Hypothesis Hembd : 0 < n_embd.

Lemma Head_weights_first_positions (n N T : nat) (x : tensor3) :
  has_shape3 N T n_embd x → T ≤ block_size → 0 < n → n ≤ T →
  both_return (λ wei wei', wei' = upper_left n <$> wei)
    (Head_weights false h x) (Head_weights false h (first_positions n x)).
Proof using Hwf Hembd.
  intros Hx HT Hn HnT.
  destruct N as [|N'].
  { destruct Hx as [Hlen _]. destruct x; [|done]. intros g.
    exists [], []. by split_and!. }
  destruct (Head_scores_shape head_size n_embd block_size h Hwf Hembd (S N') T x Hx)
    as (s & Hs & Hss).
  pose proof (Head_scores_first_positions h n x s Hn Hs) as Hs'.
  destruct Hwf as (_ & _ & _ & Htril).
  destruct (comprehension_Forall2 (λ w, masked_fill w (causal_mask h T) NegInf)
    (λ w m, has_shape2 T T w ∧ masked_fill w (causal_mask h T) NegInf = Ok m ∧
       has_shape2 T T m ∧
       ∀ t t' row, m !! t = Some row → t < t' → t' < T → row !! t' = Some NegInf)
    s) as (masked & Hmasked & HF).
  { destruct Hss as [_ Hms]. eapply Forall_impl; [exact Hms|]. simpl.
    intros w Hw. rewrite (causal_mask_fits h T block_size Htril HT).
    destruct (masked_fill_causal T w Hw) as (m & ? & ? & ?). by exists m. }
  assert (comprehension (λ w, masked_fill w (causal_mask h n) NegInf)
            (upper_left n <$> s) = Ok (upper_left n <$> masked)) as Hmasked'.
  { apply comprehension_fmap_Forall2. eapply Forall2_impl; [exact HF|]. simpl.
    intros w m (Hw & Hm & _). by eapply masked_fill_upper_left. }
  assert (map2 softmax (upper_left n <$> masked)
          = upper_left n <$> map2 softmax masked) as Hsoft.
  { unfold map2. rewrite <- !list_fmap_compose.
    apply list_fmap_ext. intros b mw Hb. simpl.
    destruct (Forall2_lookup_r _ _ _ _ _ HF Hb) as (w & _ & _ & _ & Hmw & Hinf).
    by eapply softmax_upper_left. }
  intros g.
  exists (map2 softmax masked), (upper_left n <$> map2 softmax masked).
  split; [|split; [|done]].
  - unfold Head_weights. simpl.
    rewrite (has_shape3_hd _ _ _ _ Hx) by lia.
    unfold mbind, M_bind. rewrite Hs. simpl. by rewrite Hmasked.
  - unfold Head_weights. simpl.
    rewrite (has_shape3_hd _ _ _ _ (first_positions_shape3 n _ _ _ x Hx HnT)) by lia.
    unfold mbind, M_bind. rewrite Hs'. simpl. rewrite Hmasked', <- Hsoft. done.
Qed.

Lemma Head_forward_first_positions (n N T : nat) (x : tensor3) :
  has_shape3 N T n_embd x → T ≤ block_size → 0 < n → n ≤ T →
  both_return (λ out out', has_shape3 N T head_size out ∧
                           out' = first_positions n out)
    (Head_forward false h x) (Head_forward false h (first_positions n x)).
Proof using Hwf Hembd.
  intros Hx HT Hn HnT.
  eapply both_return_mono.
  - apply both_return_returns with (P := has_shape3 N T head_size).
    + unfold Head_forward. eapply both_return_bind.
      * apply both_return_returns with (P := λ wei, has_shape3 N T T wei ∧ causal wei).
        -- by apply (Head_weights_first_positions n N T).
        -- by apply (Head_weights_returns head_size n_embd block_size h Hwf Hembd).
      * intros wei wei' [-> [_ Hc]].
        destruct Hwf as (_ & _ & Hv & _).
        destruct (Linear_forward_shape _ _ N T _ x Hv Hx) as (v & Hveq & _).
        lifted_alike v (first_positions n v) Hveq
          (rows_first_positions _ _ _ n Hveq).
        apply (both_return_ret (λ out out', out' = first_positions n out)).
        by apply zip_with_matmul_first_positions.
    + by apply (Head_forward_shape head_size n_embd block_size h Hwf Hembd).
  - intros out out' [-> Hs]. done.
Qed.
End Head.

(** *** Blocks and the model on the first positions *)

Section Forward.
Context `{Random rng}.
Variables vocab_size n_embd block_size n_head : nat.
Hypothesis Hdiv : heads_divide n_embd n_head.

Lemma MultiHeadAttention_forward_first_positions (m : MultiHeadAttention)
    (n N T : nat) (x : tensor3) :
  MultiHeadAttention_wf n_head (n_embd / n_head) n_embd block_size m →
  has_shape3 N T n_embd x → T ≤ block_size → 0 < n → n ≤ T →
  both_return (λ out out', has_shape3 N T n_embd out ∧ out' = first_positions n out)
    (MultiHeadAttention_forward false m x)
    (MultiHeadAttention_forward false m (first_positions n x)).
Proof using Hdiv.
  intros Hm Hx HT Hn HnT.
  eapply both_return_mono.
  - apply both_return_returns with (P := has_shape3 N T n_embd).
    + destruct Hm as (Hlen & Hheads & Hproj). unfold MultiHeadAttention_forward.
      eapply both_return_bind.
      { apply (both_return_for_each
                 (λ out out', has_shape3 N T (n_embd / n_head) out ∧
                              out' = first_positions n out)).
        eapply Forall_impl; [exact Hheads|]. simpl. intros h Hh.
        eapply Head_forward_first_positions; [exact Hh|apply Hdiv|done..]. }
      intros outs outs' [Hlo Houts]. rewrite Hlen in Hlo.
      apply Forall2_first_positions in Houts as [Houts ->].
      destruct (cat_last_shape N T (n_embd / n_head) outs) as (out & Hout & Hos);
        [|done|].
      { destruct Hdiv as (_ & Hpos & _). intros ->. simpl in Hlo. lia. }
      rewrite Hlo in Hos. destruct Hdiv as (_ & _ & Heq). rewrite Heq in Hos.
      lifted_alike out (first_positions n out) Hout
        (cat_last_first_positions n _ _ Hout).
      destruct (Linear_forward_shape _ _ N T _ out Hproj Hos) as (y & Hy & _).
      lifted_alike y (first_positions n y) Hy (rows_first_positions _ _ _ n Hy).
      by apply (both_return_ret (λ out out', out' = first_positions n out)).
    + by apply (MultiHeadAttention_forward_shape n_embd block_size n_head Hdiv false).
  - intros out out' [-> Hs]. done.
Qed.

Lemma FeedFoward_forward_first_positions (f : FeedFoward) (n N T : nat) (x : tensor3) :
  FeedFoward_wf n_embd f → has_shape3 N T n_embd x →
  both_return (λ out out', has_shape3 N T n_embd out ∧ out' = first_positions n out)
    (FeedFoward_forward false f x) (FeedFoward_forward false f (first_positions n x)).
Proof.
  intros Hf Hx.
  eapply both_return_mono.
  - apply both_return_returns with (P := has_shape3 N T n_embd).
    + destruct Hf as [H0 H2]. unfold FeedFoward_forward.
      destruct (Linear_forward_shape _ _ N T _ x H0 Hx) as (y & Hy & Hys).
      lifted_alike y (first_positions n y) Hy (rows_first_positions _ _ _ n Hy).
      destruct (Linear_forward_shape _ _ N T _ (ReLU_forward y) H2
                  (ReLU_forward_shape _ _ _ _ Hys)) as (z & Hz & _).
      eapply both_return_bind.
      { eapply (both_return_lift (λ a b, a = z ∧ b = first_positions n z));
          [exact Hz| |done].
        unfold ReLU_forward. rewrite map3_first_positions.
        exact (rows_first_positions _ _ _ n Hz). }
      intros ? ? [-> ->].
      by apply (both_return_ret (λ out out', out' = first_positions n out)).
    + by apply (FeedFoward_forward_shape n_embd false).
  - intros out out' [-> Hs]. done.
Qed.

Lemma Block_forward_first_positions (b : Block) (n N T : nat) (x : tensor3) :
  Block_wf n_embd n_head block_size b →
  has_shape3 N T n_embd x → T ≤ block_size → 0 < n → n ≤ T →
  both_return (λ out out', has_shape3 N T n_embd out ∧ out' = first_positions n out)
    (Block_forward false b x) (Block_forward false b (first_positions n x)).
Proof using Hdiv.
  intros (Hsa & Hff & Hln1 & Hln2) Hx HT Hn HnT. unfold Block_forward.
  destruct (LayerNorm_forward_shape _ N T _ x Hln1 Hx) as (y & Hy & Hys).
  lifted_alike y (first_positions n y) Hy (rows_first_positions _ _ _ n Hy).
  eapply both_return_bind;
    [by apply (MultiHeadAttention_forward_first_positions _ n N T)|].
  intros y' ? [Hy' ->]. rewrite add3_first_positions.
  pose proof (add3_shape _ _ _ _ _ Hx Hy') as Hx1.
  destruct (LayerNorm_forward_shape _ N T _ _ Hln2 Hx1) as (z & Hz & Hzs).
  lifted_alike z (first_positions n z) Hz (rows_first_positions _ _ _ n Hz).
  eapply both_return_bind; [by apply (FeedFoward_forward_first_positions _ n N T)|].
  intros z' ? [Hz' ->]. apply both_return_ret.
  split; [by apply add3_shape|]. by rewrite add3_first_positions.
Qed.

Lemma Sequential_forward_first_positions (bs : list Block) (n N T : nat) (x : tensor3) :
  Forall (Block_wf n_embd n_head block_size) bs →
  has_shape3 N T n_embd x → T ≤ block_size → 0 < n → n ≤ T →
  both_return (λ out out', has_shape3 N T n_embd out ∧ out' = first_positions n out)
    (Sequential_forward false bs x) (Sequential_forward false bs (first_positions n x)).
Proof using Hdiv.
  intros Hbs. revert x.
  induction Hbs as [|b bs Hb _ IH]; intros x Hx HT Hn HnT; simpl.
  - by apply both_return_ret.
  - eapply both_return_bind; [by apply (Block_forward_first_positions _ n N T)|].
    intros y ? [Hy ->]. by apply IH.
Qed.
End Forward.

Lemma no_positions {A} (N C : nat) (y : list (list (list A))) :
  has_shape3 N 0 C y → y = replicate N [].
Proof.
  intros [<- Hms]. induction Hms as [|m y [Hm _] _ IH]; [done|].
  simpl. destruct m; [|done]. by rewrite <- IH.
Qed.

Lemma first_positions_0 {A} (y : list (list (list A))) :
  first_positions 0 y = replicate (length y) [].
Proof. induction y as [|m y IH]; [done|]. simpl. by rewrite <- IH. Qed.

Lemma first_positions_below (n V : nat) (idx : list (list nat)) :
  entries_below V idx → entries_below V (first_positions n idx).
Proof.
  intros Hb. unfold entries_below, first_positions. apply Forall_fmap.
  eapply Forall_impl; [exact Hb|]. simpl. intros r Hr. by apply Forall_take.
Qed.

Section Model.
Context `{Random rng}.
Variables vocab_size n_embd block_size n_head : nat.
Variable m : LanguageModel.
Hypothesis Hdiv : heads_divide n_embd n_head.
Hypothesis Hwf : LanguageModel_wf vocab_size n_embd block_size n_head m.

(** [forward] in evaluation mode returns, and returns the generator it
    got. *)
Lemma forward_logits_eval_returns (N T : nat) (idx : list (list nat)) g :
  has_shape2 N T idx → T ≤ block_size → entries_below vocab_size idx →
  ∃ logits, forward_logits false m idx g = Ok (logits, g) ∧
            has_shape3 N T vocab_size logits.
Proof using Hdiv Hwf.
  intros Hidx HT Hbelow.
  destruct (forward_logits_shape vocab_size n_embd block_size n_head m Hdiv Hwf
              false N T idx Hidx HT Hbelow g) as (logits & g' & Hl & Hs).
  destruct (draws_nothing_returns _ _ _ _
              (forward_logits_eval_draws_nothing m idx) Hl) as [-> _].
  by exists logits.
Qed.

Lemma forward_logits_first_positions (n N T : nat) (idx : list (list nat)) :
  has_shape2 N T idx → T ≤ block_size → entries_below vocab_size idx → n ≤ T →
  both_return (λ logits logits', has_shape3 N T vocab_size logits ∧
                                 logits' = first_positions n logits)
    (forward_logits false m idx) (forward_logits false m (first_positions n idx)).
Proof using Hdiv Hwf.
  intros Hidx HT Hbelow HnT.
  destruct (decide (N = 0 ∨ n = 0)) as [Hzero|Hpos].
  { intros g.
    destruct (forward_logits_eval_returns N T idx g Hidx HT Hbelow)
      as (logits & Hl & Hs).
    destruct (forward_logits_eval_returns N n (first_positions n idx) g
                (first_positions_shape2 n N T idx Hidx HnT) ltac:(lia)
                (first_positions_below n _ idx Hbelow))
      as (logits' & Hl' & Hs').
    exists logits, logits'. split; [done|]. split; [done|]. split; [done|].
    destruct Hzero as [->| ->].
    - destruct Hs as [Hlen _], Hs' as [Hlen' _].
      destruct logits; [|done]. by destruct logits'.
    - rewrite (no_positions _ _ _ Hs'), first_positions_0.
      destruct Hs as [-> _]. done. }
  assert (0 < N ∧ 0 < n) as [HN Hn] by lia. clear Hpos.
  unfold forward_logits.
  assert (length (hd [] idx) = T) as ->.
  { destruct Hidx as [Hil Hrows]. destruct idx as [|r idx]; [simpl in Hil; lia|].
    by apply Forall_cons in Hrows as [? _]. }
  assert (length (hd [] (first_positions n idx)) = n) as ->.
  { destruct Hidx as [Hil Hrows]. destruct idx as [|r idx]; [simpl in Hil; lia|].
    apply Forall_cons in Hrows as [Hr _]. simpl. rewrite length_take. lia. }
  destruct (token_embedding_shape vocab_size n_embd block_size n_head m Hwf
              N T idx Hidx Hbelow) as (e & He & Hes).
  lifted_alike e (first_positions n e) He (rows_first_positions _ _ _ n He).
  destruct (position_embedding_shape vocab_size n_embd block_size n_head m Hwf T HT)
    as (p & Hp & Hps).
  eapply both_return_bind.
  { eapply (both_return_lift (λ a b, a = p ∧ b = take n p)); [exact Hp| |done].
    replace (seq 0 n) with (take n (seq 0 T)).
    - by apply comprehension_take.
    - rewrite take_seq. f_equal. lia. }
  intros ? ? [-> ->].
  set (x := (λ e0, zip_with (zip_with Rplus) e0 p) <$> e).
  assert ((λ e0, zip_with (zip_with Rplus) e0 (take n p)) <$> first_positions n e
          = first_positions n x) as ->.
  { unfold x, first_positions. rewrite <- !list_fmap_compose.
    apply list_fmap_ext. intros _ e0 _. simpl. by rewrite zip_with_take. }
  assert (has_shape3 N T n_embd x) as Hx.
  { destruct Hes as [Hel Hems]. split; [unfold x; by rewrite length_fmap|].
    apply Forall_fmap. eapply Forall_impl; [exact Hems|]. simpl.
    intros em Hem. eapply zip_with_shape2; [|exact Hem|exact Hps].
    intros ra rb Hra Hrb. rewrite length_zip_with. lia. }
  destruct Hwf as (_ & _ & Hblocks & Hln & Hhead).
  eapply both_return_bind.
  { by apply (Sequential_forward_first_positions n_embd block_size n_head Hdiv
                (blocks m) n N T). }
  intros y ? [Hy ->].
  destruct (LayerNorm_forward_shape _ N T _ y Hln Hy) as (z & Hz & Hzs).
  lifted_alike z (first_positions n z) Hz (rows_first_positions _ _ _ n Hz).
  destruct (Linear_forward_shape _ _ N T _ z Hhead Hzs) as (l & Hl & Hls).
  eapply both_return_lift; [exact Hl|exact (rows_first_positions _ _ _ n Hl)|done].
Qed.
End Model.

(** *** Attention weights as probabilities *)

Lemma sum_scaled (d : R) (v : vector) :
  sum ((λ a, a / d)%R <$> v) = (sum v / d)%R.
Proof.
  induction v as [|a v IH].
  - unfold sum, Rdiv. simpl. by rewrite Rmult_0_l.
  - rewrite fmap_cons, !sum_cons, IH. unfold Rdiv. lra.
Qed.

Lemma eexp_nonneg (x : ereal) : (0 <= eexp x)%R.
Proof. destruct x as [|r]; simpl; [lra|]. apply Rlt_le, exp_pos. Qed.

Lemma sum_eexp_pos (row : list ereal) (t : nat) (x : R) :
  row !! t = Some (Fin x) → (0 < sum (eexp <$> row))%R.
Proof.
  revert t. induction row as [|y row IH]; intros t Ht; [done|].
  rewrite fmap_cons, sum_cons.
  assert (0 <= sum (eexp <$> row))%R as Hrest.
  { apply sum_nonneg, Forall_fmap, Forall_forall. intros z _. apply eexp_nonneg. }
  destruct t as [|t]; simpl in Ht.
  - injection Ht as ->. simpl. pose proof (exp_pos x). lra.
  - pose proof (IH t Ht). pose proof (eexp_nonneg y). lra.
Qed.

(** The softmax of a row with an entry that is not masked. *)
Lemma softmax_distribution (row : list ereal) (t : nat) (x : R) :
  row !! t = Some (Fin x) → distribution (softmax row).
Proof.
  intros Ht. pose proof (sum_eexp_pos row t x Ht) as Hpos.
  unfold softmax. split.
  - apply Forall_fmap, Forall_forall. intros y _. simpl.
    apply Rmult_le_pos; [apply eexp_nonneg|].
    by apply Rlt_le, Rinv_0_lt_compat.
  - assert ((λ y, (eexp y / sum (eexp <$> row))%R) <$> row
            = (λ a, (a / sum (eexp <$> row))%R) <$> (eexp <$> row)) as ->
      by (by rewrite <- list_fmap_compose).
    rewrite sum_scaled. field. lra.
Qed.

(** The causal mask leaves the diagonal of the scores. *)
Lemma masked_fill_diagonal (h : Head) (T block_size : nat) (w : matrix) mw :
  tril h = tril_ones block_size → T ≤ block_size → has_shape2 T T w →
  masked_fill w (causal_mask h T) NegInf = Ok mw →
  ∀ t row, mw !! t = Some row → ∃ x, row !! t = Some (Fin x).
Proof.
  intros Htril HT Hw.
  rewrite (masked_fill_same_shape w _ _
             (causal_mask_same_shape h T block_size w Htril HT Hw)).
  intros [= <-] t row Ht.
  apply lookup_zip_with_Some in Ht as (wr & mr & -> & Hwr & Hmr).
  rewrite (causal_mask_fits h T block_size Htril HT), list_lookup_fmap in Hmr.
  destruct (seq 0 T !! t) as [i|] eqn:Hseq; simplify_eq/=.
  apply lookup_seq in Hseq as [-> HtT]. simpl.
  destruct Hw as [_ Hrows].
  destruct (lookup_lt_is_Some_2 wr t) as [x Hx].
  { by rewrite (Forall_lookup_1 _ _ _ _ Hrows Hwr). }
  exists x. rewrite lookup_zip_with, Hx. simpl.
  rewrite list_lookup_fmap, lookup_seq_lt by done. simpl.
  by rewrite bool_decide_false by lia.
Qed.

Section Weights.
Context `{Random rng}.
Variables head_size n_embd block_size : nat.
Variable h : Head.
Hypothesis Hwf : Head_wf head_size n_embd block_size h.
Hypothesis Hembd : 0 < n_embd.

Lemma Head_weights_eval_distribution (N T : nat) (x : tensor3) :
  has_shape3 N T n_embd x → T ≤ block_size →
  returns (Head_weights false h x)
    (λ wei, has_shape3 N T T wei ∧ Forall (Forall distribution) wei).
Proof using Hwf Hembd.
  intros Hx HT.
  destruct N as [|N'].
  { destruct Hx as [Hlen _]. destruct x; [|done]. intros g.
    exists [], g. split; [done|]. split; [by split|constructor]. }
  destruct (Head_scores_shape head_size n_embd block_size h Hwf Hembd (S N') T x Hx)
    as (s & Hs & Hss).
  destruct Hwf as (_ & _ & _ & Htril).
  destruct (comprehension_Forall2 (λ w, masked_fill w (causal_mask h T) NegInf)
    (λ _ m, has_shape2 T T m ∧
       ∀ t row, m !! t = Some row → ∃ a, row !! t = Some (Fin a))
    s) as (masked & Hmasked & HF).
  { destruct Hss as [_ Hms]. eapply Forall_impl; [exact Hms|]. simpl.
    intros w Hw.
    destruct (masked_fill_causal T w Hw) as (mw & Hmw & Hshape & _).
    rewrite <- (causal_mask_fits h T block_size Htril HT) in Hmw.
    exists mw. split; [done|]. split; [done|].
    by eapply masked_fill_diagonal. }
  intros g. exists (map2 softmax masked), g. split.
  { unfold Head_weights. simpl.
    rewrite (has_shape3_hd _ _ _ _ Hx) by lia.
    unfold mbind, M_bind. rewrite Hs. simpl. by rewrite Hmasked. }
  unfold map2. split.
  - split.
    + rewrite length_fmap, <- (Forall2_length _ _ _ HF). apply Hss.
    + apply Forall_fmap, Forall_forall. intros mw Hmw. simpl.
      apply list_elem_of_lookup in Hmw as [i Hi].
      destruct (Forall2_lookup_r _ _ _ _ _ HF Hi) as (_ & _ & [Hm1 Hm2] & _).
      split; [by rewrite length_fmap|].
      apply Forall_fmap. eapply Forall_impl; [exact Hm2|].
      simpl. intros r Hr. unfold softmax. by rewrite length_fmap.
  - apply Forall_fmap, Forall_lookup. intros b mw Hb. simpl.
    destruct (Forall2_lookup_r _ _ _ _ _ HF Hb) as (_ & _ & _ & Hdiag).
    apply Forall_fmap, Forall_lookup. intros t row Ht. simpl.
    destruct (Hdiag t row Ht) as [a Ha]. by eapply softmax_distribution.
Qed.
End Weights.
End PrefixFacts.

(** ** The context window of [generate] *)

Module WindowFacts.
Import Torch NN Net Shapes.

(** The last [n] items after an append, from the last [n] items before
    it. *)
Lemma last_items_snoc {A} (n : nat) (l : list A) (x : A) :
  n ≠ 0 →
  last_items n (l ++ [x])
  = if decide (length (last_items n l) < n) then last_items n l ++ [x]
    else drop 1 (last_items n l ++ [x]).
Proof.
  intros Hn. unfold last_items. destruct (decide (n = 0)) as [|_]; [done|].
  rewrite length_app, length_drop. simpl.
  destruct (decide (length l < n)) as [Hlt|Hge].
  - rewrite decide_True by lia.
    replace (length l + 1 - n) with 0 by lia.
    replace (length l - n) with 0 by lia. done.
  - rewrite decide_False by lia.
    replace (length l + 1 - n) with (S (length l - n)) by lia.
    rewrite drop_app_le by lia.
    change (S (length l - n)) with (1 + (length l - n)).
    rewrite Nat.add_comm, <- drop_drop.
    destruct (drop (length l - n) l) as [|a k] eqn:Hk; [|done].
    apply (f_equal length) in Hk. rewrite length_drop in Hk. simpl in Hk. lia.
Qed.

Lemma last_items_snoc_same {A} (n : nat) (l k : list A) (x : A) :
  last_items n l = last_items n k → last_items n (l ++ [x]) = last_items n (k ++ [x]).
Proof.
  intros Heq. destruct (decide (n = 0)) as [->|Hn].
  - unfold last_items in *. simpl in *. by rewrite Heq.
  - by rewrite !last_items_snoc, Heq by done.
Qed.

Section Window.
Context `{Random rng}.
Variable block_size : nat.

(** Rows with the same last [block_size] tokens. *)
Lemma generate_step_window (training : bool) (m : LanguageModel)
    (idx1 idx2 : list (list nat)) g :
  Forall2 (λ r1 r2, last_items block_size r1 = last_items block_size r2) idx1 idx2 →
  match generate_step block_size training m idx1 g,
        generate_step block_size training m idx2 g with
  | Ok (out1, g1), Ok (out2, g2) =>
      g1 = g2 ∧
      ∃ ts, out1 = zip_with (λ row t, row ++ [t]) idx1 ts ∧
            out2 = zip_with (λ row t, row ++ [t]) idx2 ts
  | Raise e1, Raise e2 => e1 = e2
  | _, _ => False
  end.
Proof.
  intros Hsame.
  assert (last_items block_size <$> idx1 = last_items block_size <$> idx2) as Hcond.
  { induction Hsame as [|r1 r2 idx1 idx2 Hr _ IH]; [done|].
    by rewrite !fmap_cons, Hr, IH. }
  unfold generate_step. rewrite Hcond. unfold mbind, M_bind.
  destruct (forward _ _ _ _ g) as [[[logits loss] g1]|e]; [|done].
  destruct (lift (last_step logits) g1) as [[last g2]|e]; [|done].
  destruct (torch_multinomial _ g2) as [[ts g3]|e]; [|done].
  simpl. split; [done|]. by exists ts.
Qed.
End Window.
End WindowFacts.

(** ** A head on a window longer than its buffer *)

Module LongWindowFacts.
Import Torch NN Net Shapes LayerFacts HeadFacts.

Lemma softmax_positive (row : vector) :
  Forall (λ w, (0 < w)%R) (softmax (Fin <$> row)).
Proof.
  unfold softmax. apply Forall_fmap, Forall_fmap, Forall_forall. intros a Ha. simpl.
  apply list_elem_of_lookup in Ha as [t Ht].
  assert (0 < sum (eexp <$> (Fin <$> row)))%R as Hpos.
  { apply (PrefixFacts.sum_eexp_pos _ t a). by rewrite list_lookup_fmap, Ht. }
  apply Rmult_lt_0_compat; [apply exp_pos|by apply Rinv_0_lt_compat].
Qed.

(** The mask of a head with a buffer of one position, on a longer
    window: the single entry, which masks nothing. *)
Lemma causal_mask_one (h : Head) (T : nat) :
  tril h = tril_ones 1 → 0 < T → causal_mask h T = [[false]].
Proof.
  intros Htril HT. unfold causal_mask. rewrite Htril.
  destruct T as [|T]; [lia|]. unfold tril_ones. simpl. by rewrite !take_nil.
Qed.

Lemma masked_fill_one (T : nat) (w : matrix) :
  1 < T → has_shape2 T T w →
  masked_fill w [[false]] NegInf = Ok (map2 Fin w).
Proof.
  intros HT [Hlen Hrows]. unfold masked_fill, broadcast_to.
  rewrite decide_False by (simpl; lia). simpl. rewrite Hlen.
  assert (∀ k, comprehension
    (λ '(w0, mrow),
       mrow0 ← (if decide (length mrow = length w0) then Ok mrow
                else match mrow with
                     | [a] => Ok (replicate (length w0) a)
                     | _ => Raise RuntimeError
                     end);
       Ok (zip_with (λ (x : R) (b : bool), if b then NegInf else Fin x) w0 mrow0))
    (zip w (replicate k [false])) = Ok (map2 Fin (take k w))) as Hall.
  { clear Hlen. induction Hrows as [|r w Hr _ IH]; intros k.
    - by destruct k.
    - destruct k as [|k]; [done|]. simpl replicate. simpl zip. simpl in Hr.
      rewrite comprehension_cons.
      destruct (decide (length [false] = length r)) as [Heq|_];
        [simpl in Heq; lia|].
      simpl. rewrite IH. simpl. do 2 f_equal.
      rewrite zip_with_replicate_r by done. done. }
  rewrite Hall. f_equal. f_equal. apply take_ge. lia.
Qed.

Section LongWindow.
Context `{Random rng}.
Variables head_size n_embd block_size : nat.
Variable h : Head.
Hypothesis Hwf : Head_wf head_size n_embd block_size h.

Lemma causal_mask_length (T : nat) :
  block_size ≤ T → length (causal_mask h T) = block_size.
Proof using Hwf.
  intros HT. destruct Hwf as (_ & _ & _ & Htril).
  unfold causal_mask. rewrite Htril. unfold tril_ones.
  rewrite length_fmap, length_take, length_fmap, length_seq. lia.
Qed.

Hypothesis Hembd : 0 < n_embd.

Lemma Head_weights_long_window (training : bool) (N T : nat) (x : tensor3) g :
  has_shape3 N T n_embd x → 0 < N → block_size < T → block_size ≠ 1 →
  Head_weights training h x g = Raise RuntimeError.
Proof using Hwf Hembd.
  intros Hx HN HT Hone. unfold Head_weights. simpl.
  rewrite (has_shape3_hd _ _ _ _ Hx) by lia.
  destruct (Head_scores_shape head_size n_embd block_size h Hwf Hembd N T x Hx)
    as (s & Hs & [Hsl Hss]).
  unfold mbind at 1. unfold M_bind. rewrite Hs. simpl.
  apply bind_raises.
  destruct s as [|w s]; [simpl in Hsl; lia|].
  apply Forall_cons in Hss as [[Hw _] _].
  rewrite comprehension_cons.
  assert (masked_fill w (causal_mask h T) NegInf = Raise RuntimeError) as ->; [|done].
  unfold masked_fill, broadcast_to.
  pose proof (causal_mask_length T ltac:(lia)) as Hml.
  rewrite decide_False by lia.
  destruct (causal_mask h T) as [|a [|b rest]]; simpl in *; [done|lia|done].
Qed.

Lemma Head_weights_one_position_buffer (N T : nat) (x : tensor3) :
  has_shape3 N T n_embd x → 1 < T → block_size = 1 →
  returns (Head_weights false h x)
    (λ wei, has_shape3 N T T wei ∧ Forall (Forall (Forall (λ w, (0 < w)%R))) wei).
Proof using Hwf Hembd.
  intros Hx HT Hone. subst block_size.
  destruct N as [|N'].
  { destruct Hx as [Hlen _]. destruct x; [|done]. intros g.
    exists [], g. split; [done|]. split; [by split|constructor]. }
  destruct (Head_scores_shape head_size n_embd 1 h Hwf Hembd (S N') T x Hx)
    as (s & Hs & Hss).
  destruct Hwf as (_ & _ & _ & Htril).
  assert (comprehension (λ w, masked_fill w (causal_mask h T) NegInf) s
          = Ok (map3 Fin s)) as Hmasked.
  { rewrite (causal_mask_one h T Htril) by lia.
    destruct Hss as [_ Hms]. clear Hs.
    induction Hms as [|w s Hw _ IH]; [done|].
    rewrite comprehension_cons, (masked_fill_one T w HT Hw), IH. done. }
  intros g. exists (map2 softmax (map3 Fin s)), g. split.
  { unfold Head_weights. simpl.
    rewrite (has_shape3_hd _ _ _ _ Hx) by lia.
    unfold mbind, M_bind. rewrite Hs. simpl. by rewrite Hmasked. }
  split.
  - assert (has_shape3 (S N') T T (map3 Fin s)) as [Hl Hm] by (by apply map3_shape).
    split; [unfold map2; by rewrite length_fmap|].
    unfold map2. apply Forall_fmap. eapply Forall_impl; [exact Hm|]. simpl.
    intros mw [Hm1 Hm2]. split; [by rewrite length_fmap|].
    apply Forall_fmap. eapply Forall_impl; [exact Hm2|]. simpl.
    intros r Hr. unfold softmax. by rewrite length_fmap.
  - unfold map2, map3, map2.
    apply Forall_fmap, Forall_fmap, Forall_forall. intros w _. simpl.
    apply Forall_fmap, Forall_fmap, Forall_forall. intros r _. simpl.
    apply softmax_positive.
Qed.
End LongWindow.
End LongWindowFacts.

(** ** The rows of a batch *)

Module RowsFacts.
Import Torch NN Net Shapes LayerFacts HeadFacts ModelFacts ForwardFacts PureFacts.
Import PrefixFacts.

(** *** A range of the rows of a batch *)

Lemma comprehension_drop {A B} (f : A → result B) l ys n :
  comprehension f l = Ok ys → comprehension f (drop n l) = Ok (drop n ys).
Proof.
  revert ys n. induction l as [|x l IH]; intros ys n.
  - intros [= <-]. by destruct n.
  - rewrite comprehension_cons.
    destruct (f x) as [y|e] eqn:Hx; [|done].
    destruct (comprehension f l) as [ys'|e] eqn:Hl; [|done].
    intros [= <-]. destruct n as [|n].
    + simpl drop. by rewrite comprehension_cons, Hx, Hl.
    + simpl drop. by apply IH.
Qed.

Lemma comprehension_slice {A B} (f : A → result B) l ys i j :
  comprehension f l = Ok ys → comprehension f (slice l i j) = Ok (slice ys i j).
Proof. intros Hl. unfold slice. by apply comprehension_take, comprehension_drop. Qed.

Lemma zip_with_slice {A B C} (f : A → B → C) a b i j :
  zip_with f (slice a i j) (slice b i j) = slice (zip_with f a b) i j.
Proof. unfold slice. by rewrite <- zip_with_take, <- zip_with_drop. Qed.

Lemma fmap_slice {A B} (f : A → B) l i j :
  f <$> slice l i j = slice (f <$> l) i j.
Proof. unfold slice. by rewrite fmap_take, fmap_drop. Qed.

Lemma slice_length_min {A} (l : list A) i j :
  length (slice l i j) = (j - i) `min` (length l - i).
Proof. unfold slice. by rewrite length_take, length_drop. Qed.

Lemma slice_shape3 {A} (N T C : nat) (x : list (list (list A))) i j :
  has_shape3 N T C x → has_shape3 ((j - i) `min` (N - i)) T C (slice x i j).
Proof.
  intros [Hlen Hms]. split; [by rewrite slice_length_min, Hlen|].
  by apply EvalFacts.slice_Forall.
Qed.

Lemma slice_shape2 {A} (N T : nat) (x : list (list A)) i j :
  has_shape2 N T x → has_shape2 ((j - i) `min` (N - i)) T (slice x i j).
Proof.
  intros [Hlen Hms]. split; [by rewrite slice_length_min, Hlen|].
  by apply EvalFacts.slice_Forall.
Qed.

Lemma Forall2_slice {A} i j (P : list A → Prop) (xs xs' : list (list A)) :
  Forall2 (λ x x', P x ∧ x' = slice x i j) xs xs' →
  Forall P xs ∧ xs' = (λ x, slice x i j) <$> xs.
Proof.
  induction 1 as [|x x' xs xs' [HP ->] _ [IH ->]]; [done|].
  split; [by constructor|done].
Qed.

Lemma cat_last_slice i j (ts : list tensor3) out :
  cat_last ts = Ok out →
  cat_last ((λ t, slice t i j) <$> ts) = Ok (slice out i j).
Proof.
  revert out. induction ts as [|t ts IH]; intros out; [done|].
  destruct ts as [|t' ts].
  - by intros [= <-].
  - change (cat_last (t :: t' :: ts))
      with (r ← cat_last (t' :: ts); Ok (zip_with (zip_with app) t r)).
    destruct (cat_last (t' :: ts)) as [r|e]; [|done].
    intros [= <-].
    change (cat_last ((λ t0, slice t0 i j) <$> t :: t' :: ts))
      with (r ← cat_last ((λ t0, slice t0 i j) <$> t' :: ts);
            Ok (zip_with (zip_with app) (slice t i j) r)).
    rewrite (IH r eq_refl). simpl. by rewrite zip_with_slice.
Qed.

(** *** The attention head on a range of rows *)

Lemma map3_no_entry {A B} (f g : A → B) (N T C : nat) (x : list (list (list A))) :
  has_shape3 N T C x → N * T = 0 → map3 f x = map3 g x.
Proof.
  intros [Hlen Hms] HNT. unfold map3. apply list_fmap_ext. intros b m Hb.
  pose proof (Forall_lookup_1 _ _ _ _ Hms Hb) as [Hm _].
  apply lookup_lt_Some in Hb.
  destruct m; [done|]. simpl in Hm. nia.
Qed.

Section Head.
Context `{Random rng}.
Variables head_size n_embd block_size : nat.
Variable h : Head.
Hypothesis Hwf : Head_wf head_size n_embd block_size h.
Hypothesis Hembd : 0 < n_embd.

(** The scores of a head: the factor is the same for every input of one
    embedding size. *)
Lemma Head_scores_factor (N T : nat) (x : tensor3) :
  has_shape3 N T n_embd x →
  ∃ k q, Linear_forward (key h) x = Ok k ∧ Linear_forward (query h) x = Ok q ∧
    Head_scores h x
      = Ok (map3 (λ s, (s * / sqrt (INR n_embd))%R) (zip_with matmul_transposed q k)).
Proof using Hwf Hembd.
  intros Hx. destruct Hwf as (Hk & Hq & _).
  destruct (Linear_forward_shape _ _ N T _ x Hk Hx) as (k & Hkeq & Hks).
  destruct (Linear_forward_shape _ _ N T _ x Hq Hx) as (q & Hqeq & Hqs).
  exists k, q. split; [done|]. split; [done|].
  unfold Head_scores, shape3. rewrite Hkeq, Hqeq. simpl.
  destruct (decide (N * T = 0)) as [HNT|HNT].
  - rewrite decide_True by (by apply (shape3_no_position x Hx)). simpl. f_equal.
    apply (map3_no_entry _ _ N T T); [|done].
    eapply zip_with_shape3; [|exact Hqs|exact Hks].
    intros ma mb. apply matmul_transposed_shape.
  - pose proof (shape3_exact x Hx ltac:(lia)) as [= Hl1 Hl2 Hl3].
    rewrite Hl1, Hl2, Hl3. rewrite decide_False by done.
    unfold pow_neg_half. by rewrite decide_False by lia.
Qed.

Lemma Head_forward_slice (N T i j : nat) (x : tensor3) :
  has_shape3 N T n_embd x → T ≤ block_size → i < j → i < N →
  both_return (λ out out', has_shape3 N T head_size out ∧ out' = slice out i j)
    (Head_forward false h x) (Head_forward false h (slice x i j)).
Proof using Hwf Hembd.
  intros Hx HT Hij HiN.
  pose proof (slice_shape3 N T n_embd x i j Hx) as Hx'.
  destruct (Head_scores_factor N T x Hx) as (k & q & Hk & Hq & Hs).
  destruct (Head_scores_factor _ T (slice x i j) Hx') as (k' & q' & Hk' & Hq' & Hs').
  unfold Linear_forward in *.
  rewrite (comprehension_slice _ _ _ i j Hk) in Hk'. injection Hk' as <-.
  rewrite (comprehension_slice _ _ _ i j Hq) in Hq'. injection Hq' as <-.
  rewrite zip_with_slice in Hs'.
  set (s := zip_with matmul_transposed q k) in *.
  assert (map3 (λ s0, (s0 * / sqrt (INR n_embd))%R) (slice s i j)
          = slice (map3 (λ s0, (s0 * / sqrt (INR n_embd))%R) s) i j) as Hmap
    by apply fmap_slice.
  rewrite Hmap in Hs'. clear Hmap.
  set (sc := map3 (λ s0, (s0 * / sqrt (INR n_embd))%R) s) in *.
  intros g.
  destruct (comprehension (λ w, masked_fill w (causal_mask h T) NegInf) sc)
    as [masked|e] eqn:Hmasked.
  2:{ exfalso.
      destruct (Head_weights_returns head_size n_embd block_size h Hwf Hembd false
                  N T x Hx HT g) as (wei & g' & Hw & _).
      unfold Head_weights in Hw. simpl in Hw.
      rewrite (has_shape3_hd _ _ _ _ Hx) in Hw by lia.
      unfold mbind, M_bind in Hw. rewrite Hs in Hw. simpl in Hw.
      by rewrite Hmasked in Hw. }
  destruct Hwf as (_ & _ & Hv & _).
  destruct (Linear_forward_shape _ _ N T _ x Hv Hx) as (v & Hveq & Hvs).
  assert (Head_forward false h x g
          = Ok (zip_with matmul (map2 softmax masked) v, g)) as Hout.
  { unfold Head_forward, Head_weights. simpl.
    rewrite (has_shape3_hd _ _ _ _ Hx) by lia.
    unfold mbind, M_bind. rewrite Hs. simpl. rewrite Hmasked. simpl.
    by rewrite Hveq. }
  exists (zip_with matmul (map2 softmax masked) v),
         (slice (zip_with matmul (map2 softmax masked) v) i j).
  split; [exact Hout|]. split; [|split; [|done]].
  - unfold Head_forward, Head_weights. simpl.
    rewrite (has_shape3_hd _ _ _ _ Hx') by lia.
    unfold mbind, M_bind. rewrite Hs'. simpl.
    rewrite (comprehension_slice _ _ _ i j Hmasked). simpl.
    unfold Linear_forward. rewrite (comprehension_slice _ _ _ i j Hveq). simpl.
    do 2 f_equal. rewrite <- zip_with_slice. f_equal.
    unfold map2. by rewrite fmap_slice.
  - destruct (Head_forward_shape head_size n_embd block_size h Hwf Hembd false
                N T x Hx HT g) as (out & g' & Hout' & Hshape).
    rewrite Hout in Hout'. by injection Hout' as <- _.
Qed.
End Head.

(** *** Blocks and the model on a range of rows *)

Lemma rows_slice {A B} (f : A → result B) x y i j :
  comprehension (comprehension f) x = Ok y →
  comprehension (comprehension f) (slice x i j) = Ok (slice y i j).
Proof. apply comprehension_slice. Qed.

Lemma add3_slice i j (a b : tensor3) :
  add3 (slice a i j) (slice b i j) = slice (add3 a b) i j.
Proof. apply zip_with_slice. Qed.

Section Forward.
Context `{Random rng}.
Variables vocab_size n_embd block_size n_head : nat.
Hypothesis Hdiv : heads_divide n_embd n_head.

Lemma MultiHeadAttention_forward_slice (m : MultiHeadAttention)
    (N T i j : nat) (x : tensor3) :
  MultiHeadAttention_wf n_head (n_embd / n_head) n_embd block_size m →
  has_shape3 N T n_embd x → T ≤ block_size → i < j → i < N →
  both_return (λ out out', has_shape3 N T n_embd out ∧ out' = slice out i j)
    (MultiHeadAttention_forward false m x)
    (MultiHeadAttention_forward false m (slice x i j)).
Proof using Hdiv.
  intros Hm Hx HT Hij HiN.
  eapply both_return_mono.
  - apply (both_return_returns (λ out out', out' = slice out i j)
             (has_shape3 N T n_embd)).
    + destruct Hm as (Hlen & Hheads & Hproj). unfold MultiHeadAttention_forward.
      eapply both_return_bind.
      { apply (both_return_for_each
                 (λ out out', has_shape3 N T (n_embd / n_head) out ∧
                              out' = slice out i j)).
        eapply Forall_impl; [exact Hheads|]. simpl. intros h Hh.
        eapply Head_forward_slice; [exact Hh|apply Hdiv|done..]. }
      intros outs outs' [Hlo Houts]. rewrite Hlen in Hlo.
      apply Forall2_slice in Houts as [Houts ->].
      destruct (cat_last_shape N T (n_embd / n_head) outs) as (out & Hout & Hos);
        [|done|].
      { destruct Hdiv as (_ & Hpos & _). intros ->. simpl in Hlo. lia. }
      rewrite Hlo in Hos. destruct Hdiv as (_ & _ & Heq). rewrite Heq in Hos.
      lifted_alike out (slice out i j) Hout (cat_last_slice i j _ _ Hout).
      destruct (Linear_forward_shape _ _ N T _ out Hproj Hos) as (y & Hy & _).
      lifted_alike y (slice y i j) Hy (rows_slice _ _ _ i j Hy).
      by apply (both_return_ret (λ out out', out' = slice out i j)).
    + by apply (MultiHeadAttention_forward_shape n_embd block_size n_head Hdiv false).
  - intros out out' [-> Hs]. done.
Qed.

Lemma FeedFoward_forward_slice (f : FeedFoward) (N T i j : nat) (x : tensor3) :
  FeedFoward_wf n_embd f → has_shape3 N T n_embd x →
  both_return (λ out out', has_shape3 N T n_embd out ∧ out' = slice out i j)
    (FeedFoward_forward false f x) (FeedFoward_forward false f (slice x i j)).
Proof.
  intros Hf Hx.
  eapply both_return_mono.
  - apply (both_return_returns (λ out out', out' = slice out i j)
             (has_shape3 N T n_embd)).
    + destruct Hf as [H0 H2]. unfold FeedFoward_forward.
      destruct (Linear_forward_shape _ _ N T _ x H0 Hx) as (y & Hy & Hys).
      lifted_alike y (slice y i j) Hy (rows_slice _ _ _ i j Hy).
      destruct (Linear_forward_shape _ _ N T _ (ReLU_forward y) H2
                  (ReLU_forward_shape _ _ _ _ Hys)) as (z & Hz & _).
      eapply both_return_bind.
      { eapply (both_return_lift (λ a b, a = z ∧ b = slice z i j));
          [exact Hz| |done].
        unfold ReLU_forward, map3. rewrite fmap_slice.
        exact (rows_slice _ _ _ i j Hz). }
      intros ? ? [-> ->].
      by apply (both_return_ret (λ out out', out' = slice out i j)).
    + by apply (FeedFoward_forward_shape n_embd false).
  - intros out out' [-> Hs]. done.
Qed.

Lemma Block_forward_slice (b : Block) (N T i j : nat) (x : tensor3) :
  Block_wf n_embd n_head block_size b →
  has_shape3 N T n_embd x → T ≤ block_size → i < j → i < N →
  both_return (λ out out', has_shape3 N T n_embd out ∧ out' = slice out i j)
    (Block_forward false b x) (Block_forward false b (slice x i j)).
Proof using Hdiv.
  intros (Hsa & Hff & Hln1 & Hln2) Hx HT Hij HiN. unfold Block_forward.
  destruct (LayerNorm_forward_shape _ N T _ x Hln1 Hx) as (y & Hy & Hys).
  lifted_alike y (slice y i j) Hy (rows_slice _ _ _ i j Hy).
  eapply both_return_bind; [by apply (MultiHeadAttention_forward_slice _ N T i j)|].
  intros y' ? [Hy' ->]. rewrite add3_slice.
  pose proof (add3_shape _ _ _ _ _ Hx Hy') as Hx1.
  destruct (LayerNorm_forward_shape _ N T _ _ Hln2 Hx1) as (z & Hz & Hzs).
  lifted_alike z (slice z i j) Hz (rows_slice _ _ _ i j Hz).
  eapply both_return_bind; [by apply (FeedFoward_forward_slice _ N T i j)|].
  intros z' ? [Hz' ->]. apply both_return_ret.
  split; [by apply add3_shape|]. by rewrite add3_slice.
Qed.

Lemma Sequential_forward_slice (bs : list Block) (N T i j : nat) (x : tensor3) :
  Forall (Block_wf n_embd n_head block_size) bs →
  has_shape3 N T n_embd x → T ≤ block_size → i < j → i < N →
  both_return (λ out out', has_shape3 N T n_embd out ∧ out' = slice out i j)
    (Sequential_forward false bs x) (Sequential_forward false bs (slice x i j)).
Proof using Hdiv.
  intros Hbs. revert x.
  induction Hbs as [|b bs Hb _ IH]; intros x Hx HT Hij HiN; simpl.
  - by apply both_return_ret.
  - eapply both_return_bind; [by apply (Block_forward_slice _ N T i j)|].
    intros y ? [Hy ->]. by apply IH.
Qed.
End Forward.

Lemma slice_below (V i j : nat) (idx : list (list nat)) :
  entries_below V idx → entries_below V (slice idx i j).
Proof. apply EvalFacts.slice_Forall. Qed.

Section Model.
Context `{Random rng}.
Variables vocab_size n_embd block_size n_head : nat.
Variable m : LanguageModel.
Hypothesis Hdiv : heads_divide n_embd n_head.
Hypothesis Hwf : LanguageModel_wf vocab_size n_embd block_size n_head m.

Lemma forward_logits_slice (N T i j : nat) (idx : list (list nat)) :
  has_shape2 N T idx → T ≤ block_size → entries_below vocab_size idx →
  both_return (λ logits logits', has_shape3 N T vocab_size logits ∧
                                 logits' = slice logits i j)
    (forward_logits false m idx) (forward_logits false m (slice idx i j)).
Proof using Hdiv Hwf.
  intros Hidx HT Hbelow.
  destruct (decide (i < j ∧ i < N)) as [[Hij HiN]|Hempty].
  2:{ intros g.
      destruct (forward_logits_eval_returns vocab_size n_embd block_size n_head m
                  Hdiv Hwf N T idx g Hidx HT Hbelow) as (logits & Hl & Hs).
      destruct (forward_logits_eval_returns vocab_size n_embd block_size n_head m
                  Hdiv Hwf _ T (slice idx i j) g (slice_shape2 N T idx i j Hidx) HT
                  (slice_below _ i j idx Hbelow)) as (logits' & Hl' & Hs').
      exists logits, logits'. split; [done|]. split; [done|]. split; [done|].
      destruct Hs as [Hlen _], Hs' as [Hlen' _].
      assert (length (slice logits i j) = 0) as Hz
        by (rewrite slice_length_min; lia).
      destruct (slice logits i j); [|done].
      destruct logits'; [done|]. simpl in Hlen'. lia. }
  pose proof (slice_shape2 N T idx i j Hidx) as Hidx'.
  unfold forward_logits.
  assert (length (hd [] idx) = T) as ->.
  { destruct Hidx as [Hil Hrows]. destruct idx as [|r idx]; [simpl in Hil; lia|].
    by apply Forall_cons in Hrows as [? _]. }
  assert (length (hd [] (slice idx i j)) = T) as ->.
  { destruct Hidx' as [Hil Hrows].
    destruct (slice idx i j) as [|r idx']; [simpl in Hil; lia|].
    by apply Forall_cons in Hrows as [? _]. }
  destruct (token_embedding_shape vocab_size n_embd block_size n_head m Hwf
              N T idx Hidx Hbelow) as (e & He & Hes).
  lifted_alike e (slice e i j) He (rows_slice _ _ _ i j He).
  destruct (position_embedding_shape vocab_size n_embd block_size n_head m Hwf T HT)
    as (p & Hp & Hps).
  eapply both_return_bind.
  { eapply (both_return_lift (λ a b, a = p ∧ b = p)); [exact Hp|exact Hp|done]. }
  intros ? ? [-> ->].
  rewrite fmap_slice.
  set (x := (λ e0, zip_with (zip_with Rplus) e0 p) <$> e).
  assert (has_shape3 N T n_embd x) as Hx.
  { destruct Hes as [Hel Hems]. split; [unfold x; by rewrite length_fmap|].
    apply Forall_fmap. eapply Forall_impl; [exact Hems|]. simpl.
    intros em Hem. eapply zip_with_shape2; [|exact Hem|exact Hps].
    intros ra rb Hra Hrb. rewrite length_zip_with. lia. }
  destruct Hwf as (_ & _ & Hblocks & Hln & Hhead).
  eapply both_return_bind.
  { by apply (Sequential_forward_slice n_embd block_size n_head Hdiv
                (blocks m) N T i j). }
  intros y ? [Hy ->].
  destruct (LayerNorm_forward_shape _ N T _ y Hln Hy) as (z & Hz & Hzs).
  lifted_alike z (slice z i j) Hz (rows_slice _ _ _ i j Hz).
  destruct (Linear_forward_shape _ _ N T _ z Hhead Hzs) as (l & Hl & Hls).
  eapply both_return_lift; [exact Hl|exact (rows_slice _ _ _ i j Hl)|done].
Qed.
End Model.
End RowsFacts.

(** ** Uniform and independent draws *)

Module UniformFacts.
Import Torch Shapes Train BatchFacts EvalFacts.

(** Counting with [filter]: the number of items with a property does not
    depend on how the property is decided. *)
Lemma filter_fmap_length {A B} (f : A → B) (P : B → Prop) (Q : A → Prop)
    `{∀ b, Decision (P b)} `{∀ a, Decision (Q a)} (l : list A) :
  (∀ a, Q a ↔ P (f a)) →
  length (filter Q l) = length (filter P (f <$> l)).
Proof.
  intros HQ. induction l as [|a l IH]; [done|].
  rewrite fmap_cons, !filter_cons.
  destruct (decide (Q a)) as [Ha|Ha], (decide (P (f a))) as [Hb|Hb]; simpl;
    rewrite ?IH; try done; by apply HQ in Ha || apply HQ in Hb.
Qed.

Lemma filter_all_length {A} (P : A → Prop) `{∀ a, Decision (P a)} (l : list A) :
  (∀ a, P a) → length (filter P l) = length l.
Proof.
  intros HP. induction l as [|a l IH]; [done|].
  rewrite filter_cons. rewrite decide_True by done. simpl. by rewrite IH.
Qed.

Section Uniform.
Context `{Random rng}.

(** Among the pairs of one state with the values from [s] up to [s + k],
    the pairs with the value [i] and a state with the property [P]. *)
Lemma filter_value_and_state (PP : nat * rng → Prop) (P : rng → Prop)
    `{∀ p, Decision (PP p)} `{∀ g, Decision (P g)} (i s k : nat) (g' : rng) :
  (∀ j g, PP (j, g) ↔ j = i ∧ P g) →
  length (filter PP ((λ j, (j, g')) <$> seq s k))
  = if decide (s ≤ i < s + k ∧ P g') then 1 else 0.
Proof.
  intros HPP. revert s. induction k as [|k IH]; intros s.
  - simpl. by rewrite decide_False by lia.
  - simpl seq. rewrite fmap_cons, filter_cons.
    destruct (decide (PP (s, g'))) as [Hyes|Hno].
    + apply HPP in Hyes as [-> HP].
      simpl. rewrite IH. rewrite decide_False by lia.
      by rewrite decide_True by (split; [lia|done]).
    + rewrite IH.
      destruct (decide (S s ≤ i < S s + k ∧ P g')) as [[Hi HP]|Hno'].
      * by rewrite decide_True by (split; [lia|done]).
      * rewrite decide_False; [done|]. intros [Hi HP].
        destruct (decide (s = i)) as [->|Hne]; [apply Hno; by apply HPP|].
        apply Hno'. split; [lia|done].
Qed.

(** In the pairs of every value below [high] with every state of a list,
    the pairs with the value [i] and a state with the property [P] are as
    many as the states with this property. *)
Lemma filter_product (PP : nat * rng → Prop) (P : rng → Prop)
    `{∀ p, Decision (PP p)} `{∀ g, Decision (P g)}
    (i high : nat) (states : list rng) :
  i < high →
  (∀ j g, PP (j, g) ↔ j = i ∧ P g) →
  length (filter PP (g' ← states; (λ j, (j, g')) <$> seq 0 high))
  = length (filter P states).
Proof.
  intros Hi HPP. induction states as [|g' states IH]; [done|].
  rewrite bind_cons, filter_app, length_app, IH, filter_cons.
  rewrite (filter_value_and_state PP P i 0 high g' HPP).
  destruct (decide (P g')) as [HP|HP].
  - by rewrite decide_True by (split; [lia|done]).
  - rewrite decide_False; [done|]. by intros [_ ?].
Qed.

Lemma product_length (high : nat) (states : list rng) :
  length (g' ← states; (λ j, (j, g')) <$> seq 0 high) = length states * high.
Proof.
  induction states as [|g' states IH]; [done|].
  rewrite bind_cons, length_app, IH, length_fmap, length_seq. simpl. lia.
Qed.

Lemma randints_length (high n : nat) g : length (randints high n g).1 = n.
Proof.
  revert g. induction n as [|n IH]; intros g; [done|].
  simpl. destruct (randint high g) as [i g1]. specialize (IH g1).
  destruct (randints high n g1) as [ix g2]. simpl in *. by rewrite IH.
Qed.

(** [torch.randint] with a positive bound returns the values of [n]
    draws in a row. *)
Lemma torch_randint_randints (high n : nat) g :
  0 < high → torch_randint high n g = Ok (randints high n g).
Proof.
  intros Hhigh. unfold torch_randint. rewrite decide_False by lia.
  generalize 0 as s. revert g. induction n as [|n IH]; intros g s; [done|].
  simpl seq. cbn [for_each randints].
  unfold mbind at 1. unfold M_bind at 1. unfold draw at 1.
  destruct (randint high g) as [i g1].
  unfold mbind at 1. unfold M_bind at 1. rewrite IH.
  by destruct (randints high n g1) as [ix g2].
Qed.

Lemma randints_cons (high n : nat) g (i : nat) (ix : list nat) :
  (randints high (S n) g).1 = i :: ix
  ↔ (randint high g).1 = i ∧ (randints high n (randint high g).2).1 = ix.
Proof.
  simpl. destruct (randint high g) as [j g1]. simpl.
  destruct (randints high n g1) as [jx g2]. simpl.
  split; [by intros [= -> ->]|by intros [-> ->]].
Qed.

(** Draws that are uniform and independent take every list of [n] values
    below [high] at the same number of states: at one in [high ^ n]. *)
Lemma uniform_draws_count (high n : nat) (states : list rng) :
  uniform_draws high n states →
  ∀ ix, length ix = n → Forall (λ i, i < high) ix →
    length (filter (λ g, (randints high n g).1 = ix) states) * high ^ n
    = length states.
Proof.
  induction 1 as [states Hne|n states states' Hperm Hrest IH]; intros ix Hlen Hix.
  - destruct ix; [|done].
    rewrite filter_all_length by done. simpl. lia.
  - destruct ix as [|i ix]; [done|].
    apply Forall_cons in Hix as [Hi Hix]. injection Hlen as Hlen.
    assert (length (filter (λ g, (randints high (S n) g).1 = i :: ix) states)
            = length (filter (λ g', (randints high n g').1 = ix) states')) as ->.
    { etrans.
      - apply (filter_fmap_length (randint high)
                 (λ p : nat * rng, p.1 = i ∧ (randints high n p.2).1 = ix)).
        intros g. apply randints_cons.
      - rewrite Hperm. by apply (filter_product _ _ i high states' Hi). }
    specialize (IH ix Hlen Hix).
    assert (length states = length states' * high) as ->.
    { rewrite <- (length_fmap (randint high)), Hperm. apply product_length. }
    rewrite <- IH. simpl. lia.
Qed.
End Uniform.
End UniformFacts.

(** ** [generate] and the steps of the specification *)

Module SamplingFacts.
Import Torch NN Net Shapes.

Section Sampling.
Context `{Random rng}.

Lemma bind_ok_inv {A B} (m : M rng A) (k : A → M rng B) g b g' :
  (m ≫= k) g = Ok (b, g') → ∃ a g1, m g = Ok (a, g1) ∧ k a g1 = Ok (b, g').
Proof.
  unfold mbind, M_bind. destruct (m g) as [[a g1]|e]; [|done].
  intros Hk. by exists a, g1.
Qed.

Lemma lift_ok_inv {A} (r : result A) g a g' :
  lift (rng:=rng) r g = Ok (a, g') → r = Ok a ∧ g' = g.
Proof. destruct r; simpl; [|done]. by intros [= -> ->]. Qed.

(** [forward] without targets returns the logits and no loss. *)
Lemma forward_None_inv (training : bool) (m : LanguageModel) (idx : list (list nat))
    g out g' :
  forward training m idx None g = Ok (out, g') →
  ∃ logits, out = (T3 logits, None).
Proof.
  unfold forward. intros Hf.
  apply bind_ok_inv in Hf as (logits & g1 & _ & Hret).
  injection Hret as <- _. by exists logits.
Qed.

Lemma last_step_inv (logits : tensor3) (final : matrix) :
  last_step (T3 logits) = Ok final →
  Forall2 (λ steps row, last steps = Some row) logits final.
Proof.
  simpl. revert final. induction logits as [|steps logits IH]; intros final.
  - intros [= <-]. constructor.
  - rewrite comprehension_cons.
    destruct (last steps) as [row|] eqn:Hlast; [|done].
    destruct (comprehension _ logits) as [rows|e] eqn:Hrows; [|done].
    intros [= <-]. constructor; [done|]. by apply IH.
Qed.

(** [torch.multinomial], when it returns, has drawn one token per row. *)
Lemma torch_multinomial_inv (probs : matrix) g next g' :
  torch_multinomial probs g = Ok (next, g') → sample_rows probs g = (next, g').
Proof.
  unfold torch_multinomial. revert g next.
  induction probs as [|row probs IH]; intros g next.
  - by intros [= <- <-].
  - cbn [for_each]. intros Hrun.
    apply bind_ok_inv in Hrun as (t & g1 & Ht & Hrun).
    apply bind_ok_inv in Hrun as (ts & g2 & Hts & Hret).
    injection Hret as <- <-.
    destruct row as [|p row]; [done|].
    unfold draw in Ht. injection Ht as Ht.
    cbn [sample_rows]. rewrite Ht. by rewrite (IH _ _ Hts).
Qed.

Variable block_size : nat.

(** A turn of the loop of [generate] that returns is a step of the
    specification. *)
Lemma generate_step_sampling_step (training : bool) (m : LanguageModel)
    (idx : list (list nat)) g idx' g' :
  generate_step block_size training m idx g = Ok (idx', g') →
  sampling_step block_size training m idx g idx' g'.
Proof.
  unfold generate_step. intros Hrun.
  apply bind_ok_inv in Hrun as ([out loss] & g1 & Hf & Hrun).
  destruct (forward_None_inv _ _ _ _ _ _ Hf) as (logits & [= -> ->]).
  apply bind_ok_inv in Hrun as (final & g2 & Hlast & Hrun).
  apply lift_ok_inv in Hlast as [Hlast ->].
  apply bind_ok_inv in Hrun as (next & g3 & Hnext & Hret).
  injection Hret as <- <-.
  exists logits, g1, final, next. split; [exact Hf|].
  split; [by apply last_step_inv|]. split; [by apply torch_multinomial_inv|done].
Qed.

Lemma generate_sampling_steps (training : bool) (m : LanguageModel)
    (n : nat) (idx : list (list nat)) g idx' g' :
  generate block_size training m idx n g = Ok (idx', g') →
  sampling_steps block_size training m n idx g idx' g'.
Proof.
  revert idx g. induction n as [|n IH]; intros idx g.
  - intros [= <- <-]. constructor.
  - cbn [generate]. intros Hrun.
    apply bind_ok_inv in Hrun as (idx1 & g1 & Hstep & Hrun).
    eapply sampling_next; [by apply generate_step_sampling_step|by apply IH].
Qed.
End Sampling.
End SamplingFacts.

(** * The claims *)

(** ** Vocabulary and tokenizer *)

Module VocabClaims.
Import Vocab VocabFacts.

Lemma encode_known train_df s :
  Forall (λ c, c ∈ train_df) s →
  ∃ ids, encode train_df s = Ok ids ∧ decode train_df ids = Ok s.
Proof.
  induction 1 as [|c s Hc _ (ids & He & Hd)].
  - by exists [].
  - destruct (char_to_int_known train_df c Hc) as (i & Hci & Hic).
    exists (i :: ids). unfold encode, decode, getitem in *. simpl.
    by rewrite Hci, He, Hic, Hd.
Qed.

(** C4. For a string made of training-corpus characters only, decoding
    its encoding gives the string back; the vocabulary has one id per
    distinct training character, every training character has an id below
    [vocab_size], every id below [vocab_size] names a training character,
    and the two dictionaries are inverse to each other. *)
Theorem decode_encode_bijection (train_df s : list N) :
  Forall (λ c, c ∈ train_df) s →
  (encode train_df s ≫= decode train_df) = Ok s
  ∧ vocab_size train_df = size (list_to_set train_df : gset N)
  ∧ (∀ c, c ∈ train_df →
       ∃ i, i < vocab_size train_df ∧ char_to_int train_df !! c = Some i)
  ∧ (∀ i, i < vocab_size train_df →
       ∃ c, c ∈ train_df ∧ int_to_char train_df !! i = Some c)
  ∧ (∀ c i, char_to_int train_df !! c = Some i ↔
            int_to_char train_df !! i = Some c).
Proof.
  intros Hs. repeat split.
  - destruct (encode_known train_df s Hs) as (ids & -> & Hd). exact Hd.
  - unfold vocab_size. by rewrite used_chars_perm.
  - intros c Hc. destruct (char_to_int_known train_df c Hc) as (i & Hi & _).
    exists i. split; [|done]. apply char_to_int_spec in Hi.
    by eapply lookup_lt_Some.
  - intros i Hi. apply lookup_lt_is_Some_2 in Hi as [c Hc].
    exists c. split.
    + apply used_chars_elem. by eapply list_elem_of_lookup_2.
    + by rewrite int_to_char_spec.
  - rewrite int_to_char_spec. apply char_to_int_spec.
  - rewrite int_to_char_spec. apply char_to_int_spec.
Qed.

(** The corpus "abca" and the string "cab". *)
Lemma decode_encode_bijection_witness :
  (encode [97; 98; 99; 97] [99; 97; 98] ≫= decode [97; 98; 99; 97])%N
    = Ok [99; 97; 98]%N
  ∧ vocab_size [97; 98; 99; 97]%N = 3.
Proof.
  destruct (decode_encode_bijection [97; 98; 99; 97]%N [99; 97; 98]%N)
    as (Hrt & Hsz & _).
  - repeat constructor.
  - split; [exact Hrt|]. rewrite Hsz. vm_compute. reflexivity.
Defined.

(** C9, as the code has it. [encode] either returns the id of every
    character, in order, or raises the dictionary's [KeyError] for the
    first character of the string that the training corpus lacks; it
    raises exactly when there is such a character, and then returns no
    list at all. *)
Theorem encode_ids_or_KeyError (train_df s : list N) :
  match encode train_df s with
  | Ok ids =>
      Forall (λ c, c ∈ train_df) s ∧ length ids = length s ∧
      ∀ i c, s !! i = Some c →
        ∃ id, ids !! i = Some id ∧ char_to_int train_df !! c = Some id
  | Raise e =>
      ∃ known c rest, s = known ++ c :: rest ∧
        Forall (λ c, c ∈ train_df) known ∧ (c ∉ train_df) ∧
        e = KeyError (KChr c)
  end.
Proof.
  induction s as [|c s IH].
  - simpl. split; [constructor|]. split; [done|]. intros i c. by rewrite lookup_nil.
  - unfold encode in *. rewrite comprehension_cons. unfold getitem at 1.
    destruct (char_to_int train_df !! c) as [id|] eqn:Hc.
    + assert (c ∈ train_df) as Hin.
      { apply char_to_int_spec in Hc. apply used_chars_elem.
        by eapply list_elem_of_lookup_2. }
      destruct (comprehension _ s) as [ids|e]; simpl.
      * destruct IH as (Hall & Hlen & Hids). split; [by constructor|].
        split; [by rewrite Hlen|]. intros [|i] c'; simpl.
        -- intros [= <-]. eauto.
        -- apply Hids.
      * destruct IH as (known & c' & rest & -> & Hk & Hc' & ->).
        exists (c :: known), c', rest. split; [done|].
        split; [by constructor|]. done.
    + exists [], c, s. split; [done|]. split; [constructor|]. split; [|done].
      intros Hin. apply char_to_int_known in Hin as (i & Hi & _). congruence.
Qed.

(** C9, as the specification words it, fails: over the corpus "ab" the
    string "abc" makes [encode] raise [KeyError] for 'c', which is not
    the [UnknownCharacter] error. *)
Lemma encode_not_UnknownCharacter :
  encode [97; 98]%N [97; 98; 99]%N = Raise (KeyError (KChr 99%N))
  ∧ encode [97; 98]%N [97; 98; 99]%N ≠ Raise UnknownCharacter.
Proof. split; [vm_compute; reflexivity | vm_compute; discriminate]. Qed.

End VocabClaims.

(** ** Batch sampler *)

Module SamplerClaims.
Import Torch Shapes Train BatchFacts EvalFacts UniformFacts.
Import Counter Digits Examples ExampleFacts DigitsFacts.

(** C5. For a split whose token sequence is longer than [block_size]
    (and a positive [batch_size]), [get_batch] takes its [batch_size]
    start offsets from one [torch.randint] call with the exclusive bound
    [len(data) - block_size]: they are a function [offsets] of the
    generator's state. Over any sample space of states on which the
    library's draws are uniform and independent ([uniform_draws]), every
    list of [batch_size] offsets in [0, len(data) - block_size) is drawn at
    the same number of states, one in [(len(data) - block_size) ^
    batch_size]: the offsets are uniform on the product, which is to say
    each is uniform on [0, len(data) - block_size) and they are
    independent. At every state each offset lies in
    [0, len(data) - block_size); the input rows are the windows
    [data[i : i+block_size]] and the target rows the windows
    [data[i+1 : i+block_size+1]] of these offsets, all of length
    [block_size]: position [t] of an input row holds [data[i+t]], position
    [t] of its target row holds [data[i+t+1]], which is the input row's
    position [t+1] wherever the input row has one. *)
Theorem get_batch_windows `{Random rng} (hp : hyperparameters)
    (train_encoded dev_encoded test_encoded data : list nat) (split : string) :
  RandomRange rng →
  split_data train_encoded dev_encoded test_encoded split = Ok data →
  block_size hp < length data →
  0 < batch_size hp →
  ∃ offsets : rng → list nat,
    (∀ states, uniform_draws (length data - block_size hp) (batch_size hp) states →
       ∀ ix, length ix = batch_size hp →
             Forall (λ i, i < length data - block_size hp) ix →
         length (filter (λ g, offsets g = ix) states)
           * (length data - block_size hp) ^ batch_size hp
         = length states)
    ∧ ∀ g, ∃ g',
        torch_randint (length data - block_size hp) (batch_size hp) g
          = Ok (offsets g, g') ∧
        length (offsets g) = batch_size hp ∧
        Forall (λ i, i < length data - block_size hp) (offsets g) ∧
        get_batch hp train_encoded dev_encoded test_encoded split g
          = Ok (((λ i, slice data i (i + block_size hp)) <$> offsets g,
                 (λ i, slice data (i + 1) (i + block_size hp + 1)) <$> offsets g), g') ∧
        Forall (λ i,
            let x := slice data i (i + block_size hp) in
            let y := slice data (i + 1) (i + block_size hp + 1) in
            length x = block_size hp ∧ length y = block_size hp ∧
            ∀ t, t < block_size hp →
              x !! t = data !! (i + t) ∧ y !! t = data !! (i + t + 1) ∧
              (t + 1 < block_size hp → y !! t = x !! (t + 1))) (offsets g).
Proof.
  intros Hrange Hsplit Hlen Hbatch.
  exists (λ g, (randints (length data - block_size hp) (batch_size hp) g).1).
  split; [intros states Hstates; by apply uniform_draws_count|].
  intros g.
  destruct (get_batch_draws Hrange hp train_encoded dev_encoded test_encoded data split g
              Hsplit Hlen Hbatch) as (ix & g' & Hix & Hixl & Hixb & Hg).
  rewrite torch_randint_randints in Hix by lia.
  destruct (randints (length data - block_size hp) (batch_size hp) g) as [ix0 g0] eqn:Hr.
  injection Hix as -> ->. simpl.
  exists g'. split; [by rewrite torch_randint_randints, Hr by lia|].
  split; [done|]. split; [done|]. split; [done|].
  eapply Forall_impl; [exact Hixb|]. simpl. intros i Hi.
  replace (i + block_size hp + 1) with ((i + 1) + block_size hp) by lia.
  split; [apply slice_length; lia|]. split; [apply slice_length; lia|].
  intros t Ht. rewrite !slice_lookup by lia.
  split; [done|]. split; [f_equal; lia|].
  intros Ht1. rewrite slice_lookup by lia. f_equal. lia.
Qed.

(** Batches of two rows of the corpus "aabb", over the four states of
    the digits 00, 01, 10 and 11 in base 2: the offsets 1 and 0, in this
    order, are drawn at one state in four. *)
Lemma get_batch_windows_witness :
  ∃ offsets : digits → list nat,
    length (filter (λ g, offsets g = [1; 0]) (Digits <$> [0; 1; 2; 3])) * 2 ^ 2 = 4
    ∧ ∀ g, ∃ g',
        get_batch (rng:=digits) aabb_two_rows [0; 0; 1; 1] [] [] "train" g
          = Ok (((λ i, slice [0; 0; 1; 1] i (i + 2)) <$> offsets g,
                 (λ i, slice [0; 0; 1; 1] (i + 1) (i + 2 + 1)) <$> offsets g), g') ∧
        Forall (λ i, i < 2) (offsets g).
Proof.
  destruct (get_batch_windows (rng:=digits) aabb_two_rows [0; 0; 1; 1] [] []
              [0; 0; 1; 1] "train"
              digits_range eq_refl ltac:(simpl; lia) ltac:(simpl; lia))
    as (offsets & Huniform & Hbatch).
  exists offsets. split.
  - refine (Huniform (Digits <$> [0; 1; 2; 3]) _ [1; 0] eq_refl _).
    + apply (one_more_draw 2 1 _ (Digits <$> [0; 1])); [reflexivity|].
      apply (one_more_draw 2 0 _ [Digits 0]); [reflexivity|].
      by apply no_draw.
    + repeat constructor.
  - intros g. destruct (Hbatch g) as (g' & _ & _ & Hb & Hg & _).
    exists g'. split; [exact Hg|exact Hb].
Defined.
End SamplerClaims.

(** ** Attention head *)

Module HeadClaims.
Import Torch NN Net Shapes LayerFacts HeadFacts LongWindowFacts.
Import Counter Examples ExampleFacts.

(** What [Head.forward] computes as scores on an input with positions: the
    products of queries and keys, scaled by the inverse square root of the
    last size of the input, which is the embedding size. *)
Lemma Head_scores_scaled_by_n_embd (head_size n_embd block_size : nat) (h : Head)
    (N T : nat) (x : tensor3) :
  Head_wf head_size n_embd block_size h →
  has_shape3 N T n_embd x → 0 < N * T → 0 < n_embd →
  ∃ k q, Linear_forward (key h) x = Ok k ∧ Linear_forward (query h) x = Ok q ∧
    Head_scores h x
      = Ok (map3 (λ s, (s * / sqrt (INR n_embd))%R) (zip_with matmul_transposed q k)).
Proof.
  intros (Hk & Hq & _) Hx HNT Hembd.
  destruct (Linear_forward_shape _ _ N T _ x Hk Hx) as (k & Hkeq & _).
  destruct (Linear_forward_shape _ _ N T _ x Hq Hx) as (q & Hqeq & _).
  exists k, q. split; [done|]. split; [done|].
  unfold Head_scores. rewrite (shape3_exact x Hx HNT), Hkeq, Hqeq. simpl.
  rewrite decide_False by lia. unfold pow_neg_half.
  by rewrite decide_False by lia.
Qed.

(** C1, at a head of size 1 over embeddings of size 4 and an input of one
    position whose query and key are both 1: the code scales the product 1
    by [4**-0.5] and returns the score 1/2, where the scaling by the head
    size of the claim gives 1. *)
Theorem Head_scores_narrow_head :
  Head_scores narrow_head one_position = Ok [[[(1 / 2)%R]]] ∧
  Head_scores_by_head_size narrow_head one_position = Ok [[[1%R]]] ∧
  Head_scores narrow_head one_position
    ≠ Head_scores_by_head_size narrow_head one_position.
Proof.
  assert (Head_scores narrow_head one_position = Ok [[[(1 / 2)%R]]]) as Hcode.
  { unfold Head_scores, narrow_head, one_position, first_coordinate. simpl.
    unfold matmul_transposed, dot, sum. simpl.
    do 4 f_equal.
    replace (1 + 1 + 1 + 1)%R with (2 * 2)%R by lra.
    rewrite sqrt_square by lra. lra. }
  assert (Head_scores_by_head_size narrow_head one_position = Ok [[[1%R]]]) as Hspec.
  { unfold Head_scores_by_head_size, narrow_head, one_position, first_coordinate.
    simpl. unfold matmul_transposed, dot, sum. simpl.
    do 4 f_equal. rewrite sqrt_1. lra. }
  split; [done|]. split; [done|].
  rewrite Hcode, Hspec. intros [= Heq]. lra.
Qed.

(** C2, as the code has it. In every head (of any layer: the heads of
    all blocks are built alike, over a positive embedding size), in
    training and in evaluation mode and whatever the dropout draws: for
    every input of a window that fits the head's buffer of [block_size]
    positions, which are the windows [LanguageModel.forward] hands to its
    heads, the weights that [Head.forward] multiplies the values with,
    after the mask, the softmax and the dropout, have the shape (B, T, T)
    and are zero at every position [t' > t] of row [t]; for a batch with a
    longer window the head returns no weights, the mask of a buffer of
    [block_size ≠ 1] positions cannot be broadcast to the scores and
    [masked_fill] raises [RuntimeError]. *)
Theorem Head_weights_causal `{Random rng} (training : bool)
    (head_size n_embd block_size : nat) (h : Head) (N T : nat) (x : tensor3) :
  Head_wf head_size n_embd block_size h →
  0 < n_embd →
  has_shape3 N T n_embd x →
  (T ≤ block_size →
   returns (Head_weights training h x) (λ wei, has_shape3 N T T wei ∧ causal wei))
  ∧ (block_size < T → 0 < N → block_size ≠ 1 →
     ∀ g, Head_weights training h x g = Raise RuntimeError).
Proof.
  intros Hwf Hembd Hx. split.
  - intros HT. by eapply Head_weights_returns.
  - intros HT HN Hone g. by eapply Head_weights_long_window.
Qed.

(** A window of three positions, in a buffer of three and in a buffer of
    two positions. *)
Lemma Head_weights_causal_witness :
  returns (Head_weights (rng:=nat) true (head 1 2 3) [zeros 3 2])
    (λ wei, has_shape3 1 3 3 wei ∧ causal wei)
  ∧ Head_weights (rng:=nat) true (head 1 2 2) [zeros 3 2] 0 = Raise RuntimeError.
Proof.
  split.
  - apply (Head_weights_causal (rng:=nat) true 1 2 3 (head 1 2 3) 1 3 [zeros 3 2]).
    + apply head_wf.
    + lia.
    + split; [reflexivity|]. repeat constructor.
    + lia.
  - apply (Head_weights_causal (rng:=nat) true 1 2 2 (head 1 2 2) 1 3 [zeros 3 2]).
    + apply head_wf.
    + lia.
    + split; [reflexivity|]. repeat constructor.
    + lia.
    + lia.
    + lia.
Defined.

(** C2, as the specification words it, for every input, fails: the head
    with a buffer of one position, in evaluation mode on one window of
    three positions, masks nothing (its mask of one entry is broadcast to
    the scores) and returns weights that are all positive, among them the
    weight from position 0 to the later position 1. *)
Lemma Head_weights_not_causal :
  ∃ wei g',
    Head_weights (rng:=nat) false (head 1 2 1) [zeros 3 2] 0 = Ok (wei, g') ∧
    ¬ causal wei.
Proof.
  destruct (Head_weights_one_position_buffer (rng:=nat) 1 2 1 (head 1 2 1)
              (head_wf 1 2 1) ltac:(lia) 1 3 [zeros 3 2]
              ltac:(split; [reflexivity|repeat constructor]) ltac:(lia) eq_refl 0)
    as (wei & g' & Hw & [Hl Hm] & Hpos).
  exists wei, g'. split; [exact Hw|]. intros Hc.
  destruct wei as [|m wei]; [done|].
  apply Forall_cons in Hm as [[Hml Hmr] _].
  apply Forall_cons in Hpos as [Hpos _].
  destruct m as [|row m]; [done|].
  apply Forall_cons in Hmr as [Hrow _].
  apply Forall_cons in Hpos as [Hpos _].
  destruct row as [|w0 [|w1 row]]; [done|done|].
  apply Forall_cons in Hpos as [_ Hpos].
  apply Forall_cons in Hpos as [Hpos _].
  specialize (Hc 0 ((w0 :: w1 :: row) :: m) 0 (w0 :: w1 :: row) 1 w1
                eq_refl eq_refl eq_refl ltac:(lia)).
  lra.
Qed.
End HeadClaims.

(** ** Transformer block *)

Module BlockClaims.
Import Torch NN Net Shapes InitFacts Counter.

(** C3, as the code has it. [Block.__init__] does not compare the
    embedding size with the head count. Called with the embedding size,
    the head count and the block size, and with any widening: with the
    head count 0 the division raises [ZeroDivisionError]; with a head
    count other than 0 and dropout rates in [0, 1] (those left out are
    1/10) it returns a block whose heads have the floor of the quotient
    as their size, whether or not the division is exact; with a head count
    other than 0 and a dropout rate outside [0, 1] the constructor of
    [nn.Dropout] raises [ValueError]. *)
Theorem Block_init_floor_division `{Random rng} (n_embd n_head block_size : nat)
    (widen : option nat)
    (head_dropout multi_dropout ff_dropout block_dropout : option Q) :
  let rates := default (1 # 10)%Q
                 <$> [head_dropout; multi_dropout; ff_dropout; block_dropout] in
  match n_head with
  | 0 => ∀ g, Block_init (Some n_embd) (Some 0) (Some block_size) widen
                head_dropout multi_dropout ff_dropout block_dropout g
              = Raise ZeroDivisionError
  | S _ =>
      (Forall probability rates →
       returns (Block_init (Some n_embd) (Some n_head) (Some block_size) widen
                  head_dropout multi_dropout ff_dropout block_dropout)
         (Block_wf n_embd n_head block_size))
      ∧ (¬ Forall probability rates →
         ∀ g, Block_init (Some n_embd) (Some n_head) (Some block_size) widen
                head_dropout multi_dropout ff_dropout block_dropout g
              = Raise ValueError)
  end.
Proof.
  intros rates. destruct n_head as [|n].
  - intros g. apply Block_init_no_heads.
  - split.
    + intros Hrates. eapply returns_mono.
      * by apply Block_init_rates_return.
      * by intros b [Hb _].
    + intros Hrates g. by apply Block_init_refuses.
Qed.

(** Sixteen heads over embeddings of size 65, and a block dropout
    rate of 2. *)
Lemma Block_init_floor_division_witness :
  returns (Block_init (rng:=nat) (Some 65) (Some 16) (Some 64) None None None None None)
    (Block_wf 65 16 64)
  ∧ Block_init (rng:=nat) (Some 64) (Some 16) (Some 64) None
      None None None (Some 2%Q) 0 = Raise ValueError.
Proof.
  split.
  - apply (Block_init_floor_division (rng:=nat) 65 16 64 None None None None None).
    repeat constructor.
  - apply (Block_init_floor_division (rng:=nat) 64 16 64 None None None None (Some 2%Q)).
    intros Hrates. do 3 apply Forall_cons in Hrates as [_ Hrates].
    apply Forall_cons in Hrates as [Hrate _]. discriminate Hrate.
Defined.

(** C3, as the specification words it, fails: the block of embedding size
    65 with 16 heads is constructed, with 16 heads of size 4. *)
Lemma Block_init_65_16 :
  ∃ b g', Block_init (rng:=nat) (Some 65) (Some 16) (Some 64)
            None None None None None 0 = Ok (b, g') ∧
          length (heads (sa b)) = 16 ∧
          Forall (λ h, out_features (key h) = 4) (heads (sa b)).
Proof.
  destruct (Block_init_returns (rng:=nat) 65 16 64 ltac:(done) 0)
    as (b & g' & Hb & (Hlen & Hheads & _) & _).
  exists b, g'. split; [done|]. split; [done|].
  eapply Forall_impl; [exact Hheads|]. simpl.
  intros h ((_ & Ho & _) & _). exact Ho.
Qed.
End BlockClaims.

(** ** Language model *)

Module ModelClaims.
Import Torch NN Net Shapes LayerFacts ForwardFacts GenerateFacts SamplingFacts.
Import Counter Examples ExampleFacts.

(** C6, as the code has it. For an input of shape (B, T) with
    [T <= block_size] and entries below [vocab_size]: without targets
    [forward] returns logits of shape (B, T, vocab_size) and the loss
    [None]; with targets of the same shape and range it returns the logits
    flattened to shape (B*T, vocab_size) and, as loss, the mean
    cross-entropy of these rows against the flattened targets, which is a
    non-negative number when B*T is positive and NaN when the input has no
    position. *)
Theorem forward_shapes_and_loss `{Random rng} (training : bool)
    (vocab_size n_embd block_size n_head : nat) (m : LanguageModel)
    (N T : nat) (idx : list (list nat)) :
  heads_divide n_embd n_head →
  LanguageModel_wf vocab_size n_embd block_size n_head m →
  has_shape2 N T idx →
  T ≤ block_size →
  entries_below vocab_size idx →
  returns (forward training m idx None)
    (λ out, ∃ logits, out = (T3 logits, None) ∧ has_shape3 N T vocab_size logits)
  ∧ ∀ targets, has_shape2 N T targets → entries_below vocab_size targets →
      returns (forward training m idx (Some targets))
        (λ out, ∃ logits loss, out = (T2 logits, Some loss) ∧
           has_shape2 (N * T) vocab_size logits ∧
           cross_entropy logits (concat targets) = Ok loss ∧
           (N * T = 0 → loss = NaN) ∧
           (0 < N * T → ∃ r, loss = Real r ∧ (0 <= r)%R)).
Proof.
  intros Hdiv Hwf Hidx HT Hbelow. split.
  - by eapply forward_None_returns.
  - intros targets Htg Htb. by eapply forward_Some_returns.
Qed.

Lemma one_head_divides (n_embd : nat) : 0 < n_embd → heads_divide n_embd 1.
Proof. intros Hn. split; [done|]. split; [lia|]. rewrite Nat.div_1_r. lia. Qed.

Lemma forward_shapes_and_loss_witness :
  returns (forward (rng:=nat) true (model 2 2 2 1 1) [[0; 1]] None)
    (λ out, ∃ logits, out = (T3 logits, None) ∧ has_shape3 1 2 2 logits).
Proof.
  apply (forward_shapes_and_loss (rng:=nat) true 2 2 2 1 (model 2 2 2 1 1) 1 2 [[0; 1]]).
  - apply one_head_divides. lia.
  - apply model_wf.
  - split; [reflexivity|]. repeat constructor.
  - lia.
  - repeat constructor.
Defined.

(** C6, as the specification words it, fails: with targets, the logits
    that [forward] returns are a rank-2 tensor of shape (B*T, vocab_size),
    not one of shape (B, T, vocab_size); and on an input without
    positions the loss is NaN, not a non-negative number. *)
Lemma forward_with_targets_flattens :
  (∃ logits loss g',
     forward (rng:=nat) true (model 2 2 2 1 1) [[0; 1]] (Some [[1; 0]]) 0
       = Ok ((T2 logits, Some loss), g') ∧ has_shape2 2 2 logits) ∧
  (¬ ∃ logits loss g',
     forward (rng:=nat) true (model 2 2 2 1 1) [[0; 1]] (Some [[1; 0]]) 0
       = Ok ((T3 logits, loss), g')) ∧
  (∃ logits g',
     forward (rng:=nat) true (model 2 2 2 1 1) [[]] (Some [[]]) 0
       = Ok ((T2 logits, Some NaN), g')).
Proof.
  destruct (forward_Some_returns 2 2 2 1 (model 2 2 2 1 1) (one_head_divides 2 ltac:(lia))
              (model_wf 2 2 2 1 1) true 1 2 [[0; 1]] [[1; 0]]
              ltac:(split; [reflexivity|repeat constructor]) ltac:(lia)
              ltac:(repeat constructor)
              ltac:(split; [reflexivity|repeat constructor])
              ltac:(repeat constructor) 0)
    as (out & g' & Hout & logits & loss & -> & Hshape & _).
  destruct (forward_Some_returns 2 2 2 1 (model 2 2 2 1 1) (one_head_divides 2 ltac:(lia))
              (model_wf 2 2 2 1 1) true 1 0 [[]] [[]]
              ltac:(split; [reflexivity|repeat constructor]) ltac:(lia)
              ltac:(repeat constructor)
              ltac:(split; [reflexivity|repeat constructor])
              ltac:(repeat constructor) 0)
    as (out0 & g0 & Hout0 & logits0 & loss0 & -> & _ & _ & Hnan & _).
  split; [by exists logits, loss, g'|]. split.
  - intros (l3 & loss3 & g3 & H3). rewrite Hout in H3. discriminate.
  - exists logits0, g0. by rewrite Hout0, (Hnan eq_refl).
Qed.

(** C7, as the code has it. For a model with a positive [block_size], a
    batch of seeds of one positive length [L] with ids below [vocab_size],
    and every [max_new_tokens]: [generate] returns, and what it returns is
    reached from the seeds by [max_new_tokens] steps, each of which crops
    the running rows to their last [block_size] ids, runs [forward] on
    them without targets, takes the logits of the final time step and
    appends to each row one id sampled from their softmax
    ([sampling_steps]); for each seed the result has a row of length
    [L + max_new_tokens] whose first [L] ids are the seed and whose other
    ids, the generated ones, are below [vocab_size]. *)
Theorem generate_length_and_range `{Random rng} (training : bool)
    (vocab_size n_embd block_size n_head : nat) (m : LanguageModel)
    (N L : nat) (idx : list (list nat)) (max_new_tokens : nat) :
  RandomRange rng →
  heads_divide n_embd n_head →
  LanguageModel_wf vocab_size n_embd block_size n_head m →
  0 < block_size →
  has_shape2 N L idx →
  0 < L →
  entries_below vocab_size idx →
  ∀ g, ∃ out g',
    generate block_size training m idx max_new_tokens g = Ok (out, g') ∧
    sampling_steps block_size training m max_new_tokens idx g out g' ∧
    Forall2
      (λ row row', length row' = length row + max_new_tokens ∧
                   take (length row) row' = row ∧
                   Forall (λ t, t < vocab_size) (drop (length row) row'))
      idx out.
Proof.
  intros Hrange Hdiv Hwf Hblock Hidx HL Hbelow g.
  destruct (generate_returns block_size Hrange vocab_size n_embd n_head m
              Hdiv Hwf Hblock training max_new_tokens N L idx Hidx HL Hbelow g)
    as (out & g' & Hrun & Hout).
  exists out, g'. split; [exact Hrun|]. split; [by apply generate_sampling_steps|].
  destruct Hidx as [_ Hrows].
  apply Forall2_same_length_lookup. split; [by eapply Forall2_length|].
  intros i row row' Hrow Hrow'.
  rewrite (Forall_lookup_1 _ _ _ _ Hrows Hrow).
  by destruct (Forall2_lookup_lr _ _ _ _ _ _ Hout Hrow Hrow').
Qed.

Lemma generate_length_and_range_witness :
  ∃ out g',
    generate (rng:=nat) 2 true (model 2 2 2 1 1) [[0]] 3 0 = Ok (out, g') ∧
    sampling_steps 2 true (model 2 2 2 1 1) 3 [[0]] 0 out g' ∧
    Forall2
      (λ row row', length row' = length row + 3 ∧
                   take (length row) row' = row ∧
                   Forall (λ t, t < 2) (drop (length row) row'))
      [[0]] out.
Proof.
  apply (generate_length_and_range (rng:=nat) true 2 2 2 1 (model 2 2 2 1 1) 1 1).
  - apply counter_range.
  - apply one_head_divides. lia.
  - apply model_wf.
  - lia.
  - split; [reflexivity|]. repeat constructor.
  - lia.
  - repeat constructor.
Defined.
(** On an empty seed the last position does not exist. *)
Lemma generate_empty_seed `{Random rng} (training : bool)
    (vocab_size n_embd block_size n_head : nat) (m : LanguageModel) (n : nat) g :
  heads_divide n_embd n_head →
  LanguageModel_wf vocab_size n_embd block_size n_head m →
  generate block_size training m [[]] (S n) g = Raise IndexError.
Proof.
  intros Hdiv Hwf. simpl. apply bind_raises. unfold generate_step.
  assert (last_items block_size <$> [[]] = [[]] :> list (list nat)) as ->.
  { simpl. unfold last_items. by destruct (decide (block_size = 0)). }
  destruct (forward_None_returns vocab_size n_embd block_size n_head m Hdiv Hwf
              training 1 0 [[]]
              ltac:(split; [reflexivity|repeat constructor]) ltac:(lia)
              ltac:(repeat constructor) g)
    as (out & g' & Hout & logits & -> & Hl).
  rewrite (bind_returns _ _ _ _ _ Hout). simpl.
  apply bind_raises.
  destruct Hl as [Hlen Hms]. destruct logits as [|l0 [|l1 logits]]; try done.
  apply Forall_cons in Hms as [[Hl0 _] _]. destruct l0; [|done]. done.
Qed.

(** C7, as the specification words it, fails: on the empty seed and one
    new token [generate] raises [IndexError] and returns no sequence. *)
Lemma generate_empty_seed_raises :
  generate (rng:=nat) 2 true (model 2 2 2 1 1) [[]] 1 0 = Raise IndexError.
Proof.
  apply (generate_empty_seed (rng:=nat) true 2 2 2 1).
  - apply one_head_divides. lia.
  - apply model_wf.
Qed.

(** C10. Whatever the model, the seeds and [max_new_tokens]: every row
    that [generate] returns begins with the seed of its position,
    unchanged; and for a model with a positive [block_size] and a batch of
    seeds of one positive length with ids below [vocab_size], [generate]
    does return, one such row for every seed. *)
Theorem generate_keeps_seed `{Random rng} (training : bool)
    (vocab_size n_embd block_size n_head : nat) (m : LanguageModel)
    (N L : nat) (idx : list (list nat)) (max_new_tokens : nat) :
  (∀ g out g',
     generate block_size training m idx max_new_tokens g = Ok (out, g') →
     ∀ i row', out !! i = Some row' →
       ∃ row, idx !! i = Some row ∧ take (length row) row' = row)
  ∧ (RandomRange rng →
     heads_divide n_embd n_head →
     LanguageModel_wf vocab_size n_embd block_size n_head m →
     0 < block_size →
     has_shape2 N L idx →
     0 < L →
     entries_below vocab_size idx →
     returns (generate block_size training m idx max_new_tokens)
       (Forall2 (λ row row', take (length row) row' = row) idx)).
Proof.
  split.
  - intros g out g' Hgen i row' Hi.
    destruct (generate_prefix block_size training m max_new_tokens idx out g g'
                Hgen i row' Hi) as (row & Hrow & [rest ->]).
    exists row. split; [done|]. by rewrite take_app_length.
  - intros Hrange Hdiv Hwf Hblock Hidx HL Hbelow.
    eapply returns_mono.
    + by eapply (generate_returns block_size Hrange vocab_size n_embd n_head m
                   Hdiv Hwf Hblock training max_new_tokens N L).
    + intros out Hout. destruct Hidx as [_ Hrows].
      apply Forall2_same_length_lookup. split; [by eapply Forall2_length|].
      intros i row row' Hrow Hrow'.
      rewrite (Forall_lookup_1 _ _ _ _ Hrows Hrow).
      by destruct (Forall2_lookup_lr _ _ _ _ _ _ Hout Hrow Hrow') as (_ & ? & _).
Qed.

Lemma generate_keeps_seed_witness :
  returns (generate (rng:=nat) 2 true (model 2 2 2 1 1) [[1; 0]] 2)
    (Forall2 (λ row row', take (length row) row' = row) [[1; 0]]).
Proof.
  apply (generate_keeps_seed (rng:=nat) true 2 2 2 1 (model 2 2 2 1 1) 1 2).
  - apply counter_range.
  - apply one_head_divides. lia.
  - apply model_wf.
  - lia.
  - split; [reflexivity|]. repeat constructor.
  - lia.
  - repeat constructor.
Defined.
End ModelClaims.

(** ** Training loop *)

Module TrainClaims.
Import Torch NN Net Train TrainFacts.

(** C8, on the notebook's own hyperparameters (cell 14), whatever the
    corpora, the optimizer, the generator and the loss file so far: cell 24
    ends with [TypeError] while it constructs the model, whose blocks are
    built without a [block_size]; and the loop itself, started on any
    model, ends with [TypeError] in its first turn, where the evaluation is
    due and [estimate_loss] is called without the model. In both cases no
    row is appended to the loss file. *)
Theorem training_loop_raises_TypeError `{Random rng} (vocab_size : nat)
    (train_encoded dev_encoded test_encoded : list nat)
    (optimizer_step : LanguageModel → list (list nat) → list (list nat) → LanguageModel) :
  (∀ loss_file0 g,
     cell_24 cell_14 vocab_size train_encoded dev_encoded test_encoded optimizer_step
       loss_file0 g = (loss_file0, Some TypeError))
  ∧ (∀ s : run_state,
       training_loop cell_14 train_encoded dev_encoded test_encoded optimizer_step s
       = (s, Some TypeError)).
Proof.
  split.
  - intros loss_file0 g. apply cell_24_raises. simpl. lia.
  - intros s. apply training_loop_raises; simpl; lia.
Qed.
End TrainClaims.

(** * Further properties of the code *)

(** ** Vocabulary and tokenizer *)

Module VocabExtras.
Import Vocab VocabFacts.

Lemma StronglySorted_lookup_lt {A} (R : relation A) (l : list A) i j x y :
  StronglySorted R l → l !! i = Some x → l !! j = Some y → i < j → R x y.
Proof.
  intros Hs. revert i j. induction Hs as [|a l Hs IH Hall]; intros i j; [done|].
  destruct i as [|i], j as [|j]; simpl; try lia.
  - intros [= <-] Hj _. eapply (Forall_lookup_1 _ _ _ _ Hall Hj).
  - intros Hi Hj Hij. apply (IH i j); [done|done|lia].
Qed.

Lemma used_chars_lt train_df i j ci cj :
  used_chars train_df !! i = Some ci → used_chars train_df !! j = Some cj →
  i < j → (ci < cj)%N.
Proof.
  intros Hi Hj Hij.
  assert (ci ≠ cj) as Hne.
  { intros ->. pose proof (NoDup_lookup _ _ _ _ (used_chars_NoDup train_df) Hi Hj). lia. }
  pose proof (StronglySorted_lookup_lt _ _ _ _ _ _ (used_chars_sorted train_df) Hi Hj Hij).
  lia.
Qed.

(** X1. The ids follow the order of the code points: of two characters
    of the vocabulary, the smaller one has the smaller id. *)
Theorem char_to_int_monotone (train_df : list N) (c1 c2 : N) (i1 i2 : nat) :
  char_to_int train_df !! c1 = Some i1 →
  char_to_int train_df !! c2 = Some i2 →
  (c1 < c2)%N ↔ i1 < i2.
Proof.
  intros H1 H2. apply char_to_int_spec in H1, H2. split.
  - intros Hc. destruct (decide (i1 < i2)) as [|Hge]; [done|].
    destruct (decide (i1 = i2)) as [->|Hne].
    + assert (c1 = c2) by congruence. lia.
    + pose proof (used_chars_lt train_df i2 i1 c2 c1 H2 H1 ltac:(lia)). lia.
  - intros Hlt. by apply (used_chars_lt train_df i1 i2).
Qed.

(** The corpus "abca": 'a' has the id 0 and 'c' the id 2. *)
Lemma char_to_int_monotone_witness :
  char_to_int [97; 98; 99; 97]%N !! 97%N = Some 0 ∧
  char_to_int [97; 98; 99; 97]%N !! 99%N = Some 2 ∧
  ((97 < 99)%N ↔ 0 < 2).
Proof.
  split; [vm_compute; reflexivity|]. split; [vm_compute; reflexivity|].
  apply (char_to_int_monotone [97; 98; 99; 97]%N 97%N 99%N 0 2);
    vm_compute; reflexivity.
Defined.


(** X3. Cell 7 on the training corpus: [encode(train_df)] does not raise;
    it returns one id per character, each below [vocab_size], every id
    below [vocab_size] occurs among them, and [decode] gives the corpus
    back. *)
Theorem encode_train_df (train_df : list N) :
  ∃ ids, encode train_df train_df = Ok ids ∧
    length ids = length train_df ∧
    Forall (λ i, i < vocab_size train_df) ids ∧
    (∀ i, i < vocab_size train_df → i ∈ ids) ∧
    decode train_df ids = Ok train_df.
Proof.
  assert (∀ s, Forall (λ c, c ∈ train_df) s →
    ∃ ids, encode train_df s = Ok ids ∧ decode train_df ids = Ok s ∧
      Forall2 (λ c i, used_chars train_df !! i = Some c) s ids) as Hknown.
  { induction 1 as [|c s Hc _ (ids & He & Hd & HF)].
    - exists []. by repeat split.
    - destruct (char_to_int_known train_df c Hc) as (i & Hci & Hic).
      exists (i :: ids). unfold encode, decode, getitem in *. simpl.
      rewrite Hci, He, Hic, Hd. split; [done|]. split; [done|].
      constructor; [|done]. by apply char_to_int_spec. }
  destruct (Hknown train_df) as (ids & He & Hd & HF).
  { by apply Forall_forall. }
  exists ids. split; [done|]. split; [symmetry; by eapply Forall2_length|].
  split; [|split; [|done]].
  - apply Forall_forall. intros i Hi. apply list_elem_of_lookup in Hi as [k Hk].
    destruct (Forall2_lookup_r _ _ _ _ _ HF Hk) as (c & _ & Hc).
    by eapply lookup_lt_Some.
  - intros i Hi. apply lookup_lt_is_Some_2 in Hi as [c Hc].
    assert (c ∈ train_df) as Hin.
    { apply used_chars_elem. by eapply list_elem_of_lookup_2. }
    apply list_elem_of_lookup in Hin as [k Hk].
    destruct (Forall2_lookup_l _ _ _ _ _ HF Hk) as (j & Hj & Hcj).
    assert (j = i) as ->.
    { eapply NoDup_lookup; [apply used_chars_NoDup|exact Hcj|exact Hc]. }
    by eapply list_elem_of_lookup_2.
Qed.
End VocabExtras.

(** ** Cell 14: the average length of a line *)

Module CorpusExtras.
Import Train.

Lemma str_split_nonempty (sep : N) (s : list N) : str_split sep s ≠ [].
Proof.
  destruct s as [|c s]; [done|]. simpl.
  destruct (decide (c = sep)); [done|]. by destruct (str_split sep s).
Qed.

Lemma str_split_lengths (sep : N) (s : list N) :
  length (str_split sep s) = S (length (filter (λ c, c = sep) s)) ∧
  length (concat (str_split sep s)) + length (filter (λ c, c = sep) s) = length s.
Proof.
  induction s as [|c s [IH1 IH2]]; [done|]. simpl.
  destruct (decide (c = sep)) as [->|Hne].
  - rewrite filter_cons_True by done. simpl. split; [by rewrite IH1|lia].
  - rewrite filter_cons_False by done.
    destruct (str_split sep s) as [|piece pieces]; [done|].
    simpl in *. split; [done|lia].
Qed.

Lemma sentence_loop (pieces : list (list N)) (total count : nat) :
  foldl (λ '(avg_length, sentence_count) (element : list N),
           (avg_length + length element, sentence_count + 1))
        (total, count) pieces
  = (total + length (concat pieces), count + length pieces).
Proof.
  revert total count. induction pieces as [|p pieces IH]; intros total count; simpl.
  - f_equal; lia.
  - rewrite IH, length_app. f_equal; lia.
Qed.

(** X4. The loop of cell 14 on any training corpus: the number of
    elements it counts is one more than the number of newline characters,
    so at least 1 even on the empty corpus, and the division
    [avg_length / sentence_count] never raises [ZeroDivisionError]; the
    lengths it sums are those of the corpus without its newlines. *)
Theorem avg_length_returns (train_df : list N) :
  let newlines := length (filter (λ c, c = 10%N) train_df) in
  sentence_lengths train_df = (length train_df - newlines, S newlines) ∧
  avg_length train_df
    = Ok (Z.of_nat (length train_df - newlines) # Pos.of_nat (S newlines))%Q.
Proof.
  intros newlines.
  assert (sentence_lengths train_df = (length train_df - newlines, S newlines)) as Hl.
  { unfold sentence_lengths. rewrite sentence_loop.
    destruct (str_split_lengths 10%N train_df) as [H1 H2].
    fold newlines in H1, H2. f_equal; lia. }
  split; [done|]. unfold avg_length. rewrite Hl. done.
Qed.
End CorpusExtras.

(** ** The batch sampler *)

Module SamplerExtras.
Import Torch Shapes Train BatchFacts EvalFacts Counter Examples ExampleFacts.

(** X5. What [get_batch] does on every input, given that [torch.randint]
    keeps to its range. A split name other than "train", "dev" and "test"
    leaves [data] unbound ([UnboundLocalError]). On a known split the call
    returns a pair of tensors of shape (batch_size, block_size) when the
    split has more than [block_size] tokens and [batch_size] is positive;
    otherwise it raises [RuntimeError], from [torch.randint] on a bound
    that is not positive or from [torch.stack] on an empty list. It raises
    nothing else. *)
Theorem get_batch_outcome `{Random rng} (hp : hyperparameters)
    (train_encoded dev_encoded test_encoded : list nat) (split : string) g :
  RandomRange rng →
  match split_data train_encoded dev_encoded test_encoded split with
  | Raise e =>
      e = UnboundLocalError ∧
      get_batch hp train_encoded dev_encoded test_encoded split g
        = Raise UnboundLocalError
  | Ok data =>
      if decide (block_size hp < length data ∧ 0 < batch_size hp) then
        ∃ x y g',
          get_batch hp train_encoded dev_encoded test_encoded split g
            = Ok ((x, y), g') ∧
          has_shape2 (batch_size hp) (block_size hp) x ∧
          has_shape2 (batch_size hp) (block_size hp) y
      else
        get_batch hp train_encoded dev_encoded test_encoded split g
          = Raise RuntimeError
  end.
Proof.
  intros Hrange.
  destruct (split_data train_encoded dev_encoded test_encoded split)
    as [data|e] eqn:Hsplit.
  - destruct (decide (block_size hp < length data ∧ 0 < batch_size hp))
      as [[Hlen Hbatch]|Hno].
    + destruct (get_batch_returns Hrange hp train_encoded dev_encoded test_encoded
                  (S (list_max data)) data split Hsplit Hlen Hbatch) with g
        as ([x y] & g' & Hg & Hx & Hy & _).
      { apply Forall_forall. intros t Ht.
        pose proof (proj1 (list_max_le data (list_max data)) (le_n _)) as Hmax.
        pose proof (proj1 (Forall_forall _ _) Hmax t Ht). simpl in *. lia. }
      by exists x, y, g'.
    + unfold get_batch. rewrite Hsplit.
      unfold mbind at 1. unfold M_bind. simpl.
      destruct (decide (block_size hp < length data)) as [Hlen|Hshort].
      * assert (batch_size hp = 0) as Hb by lia.
        unfold torch_randint. rewrite decide_False by lia. rewrite Hb. reflexivity.
      * apply bind_raises. unfold torch_randint. by rewrite decide_True by lia.
  - assert (e = UnboundLocalError) as ->.
    { unfold split_data in Hsplit. repeat case_decide; congruence. }
    split; [done|]. unfold get_batch. by rewrite Hsplit.
Qed.

(** The corpus "aabb" has more than two tokens. *)
Lemma get_batch_outcome_witness :
  ∃ x y g',
    get_batch (rng:=nat) aabb [0; 0; 1; 1] [] [] "train" 1 = Ok ((x, y), g') ∧
    has_shape2 1 2 x ∧ has_shape2 1 2 y.
Proof.
  exact (get_batch_outcome (rng:=nat) aabb [0; 0; 1; 1] [] [] "train" 1 counter_range).
Defined.
End SamplerExtras.

(** ** The modules of the network *)

Module NetExtras.
Import Torch NN Net Shapes LayerFacts HeadFacts ModelFacts PureFacts PrefixFacts.
Import LongWindowFacts.
Import Counter Examples ExampleFacts.

(** X6. [Head.forward], in training and in evaluation mode: on an input
    of shape (B, T, n_embd) with [T <= block_size], a head with the
    constructor's shapes returns a tensor of shape (B, T, head_size). *)
Theorem Head_forward_returns_shape `{Random rng} (training : bool)
    (head_size n_embd block_size : nat) (h : Head) (N T : nat) (x : tensor3) :
  Head_wf head_size n_embd block_size h →
  0 < n_embd →
  has_shape3 N T n_embd x →
  T ≤ block_size →
  returns (Head_forward training h x) (has_shape3 N T head_size).
Proof. intros Hwf Hembd Hx HT. by eapply Head_forward_shape. Qed.

Lemma Head_forward_returns_shape_witness :
  returns (Head_forward (rng:=nat) true (head 1 2 3) [zeros 3 2]) (has_shape3 1 3 1).
Proof.
  apply (Head_forward_returns_shape (rng:=nat) true 1 2 3).
  - apply head_wf.
  - lia.
  - split; [reflexivity|]. repeat constructor.
  - lia.
Defined.

(** X7. The attention weights in evaluation mode, where dropout does
    nothing: every row of the weights that [Head.forward] multiplies the
    values with is a probability distribution over the positions: no
    weight is negative and the weights of a row sum to 1. *)
Theorem Head_weights_eval_rows_sum_to_1 `{Random rng}
    (head_size n_embd block_size : nat) (h : Head) (N T : nat) (x : tensor3) :
  Head_wf head_size n_embd block_size h →
  0 < n_embd →
  has_shape3 N T n_embd x →
  T ≤ block_size →
  returns (Head_weights false h x)
    (λ wei, has_shape3 N T T wei ∧ Forall (Forall distribution) wei).
Proof. intros Hwf Hembd Hx HT. by eapply Head_weights_eval_distribution. Qed.

Lemma Head_weights_eval_rows_sum_to_1_witness :
  returns (Head_weights (rng:=nat) false (head 1 2 3) [zeros 3 2])
    (λ wei, has_shape3 1 3 3 wei ∧ Forall (Forall distribution) wei).
Proof.
  apply (Head_weights_eval_rows_sum_to_1 (rng:=nat) 1 2 3).
  - apply head_wf.
  - lia.
  - split; [reflexivity|]. repeat constructor.
  - lia.
Defined.

(** X8. [MultiHeadAttention.forward]: with [n_head] heads of size
    [n_embd // n_head], where [n_head] divides [n_embd], on an input of a
    window of at most [block_size] positions, the concatenated heads have
    the width the projection expects, and the module returns a tensor of
    the shape (B, T, n_embd) of its input. *)
Theorem MultiHeadAttention_forward_returns_shape `{Random rng} (training : bool)
    (n_embd block_size n_head : nat) (m : MultiHeadAttention)
    (N T : nat) (x : tensor3) :
  heads_divide n_embd n_head →
  MultiHeadAttention_wf n_head (n_embd / n_head) n_embd block_size m →
  has_shape3 N T n_embd x →
  T ≤ block_size →
  returns (MultiHeadAttention_forward training m x) (has_shape3 N T n_embd).
Proof. intros Hdiv Hm Hx HT. by eapply MultiHeadAttention_forward_shape. Qed.

Lemma MultiHeadAttention_forward_returns_shape_witness :
  returns (MultiHeadAttention_forward (rng:=nat) true (sa (block 4 2 3)) [zeros 3 4])
    (has_shape3 1 3 4).
Proof.
  apply (MultiHeadAttention_forward_returns_shape (rng:=nat) true 4 3 2).
  - unfold heads_divide. simpl. lia.
  - apply block_wf.
  - split; [reflexivity|]. repeat constructor.
  - lia.
Defined.

(** X9. [FeedFoward.forward]: the two linear layers widen the embedding
    by the factor [wide] and narrow it again, so that the module returns a
    tensor of the shape (B, T, n_embd) of its input, whatever the number
    of positions. *)
Theorem FeedFoward_forward_returns_shape `{Random rng} (training : bool)
    (n_embd : nat) (f : FeedFoward) (N T : nat) (x : tensor3) :
  FeedFoward_wf n_embd f →
  has_shape3 N T n_embd x →
  returns (FeedFoward_forward training f x) (has_shape3 N T n_embd).
Proof. intros Hf Hx. by eapply FeedFoward_forward_shape. Qed.

Lemma FeedFoward_forward_returns_shape_witness :
  returns (FeedFoward_forward (rng:=nat) true (ffwd (block 4 2 3)) [zeros 5 4])
    (has_shape3 1 5 4).
Proof.
  apply (FeedFoward_forward_returns_shape (rng:=nat) true 4).
  - apply block_wf.
  - split; [reflexivity|]. repeat constructor.
Defined.

(** X10. [Block.forward] of a block whose head count divides the
    embedding size, on an input of a window of at most [block_size]
    positions: it returns a tensor of the shape (B, T, n_embd) of its
    input, so that blocks can be chained. *)
Theorem Block_forward_returns_shape `{Random rng} (training : bool)
    (n_embd block_size n_head : nat) (b : Block) (N T : nat) (x : tensor3) :
  heads_divide n_embd n_head →
  Block_wf n_embd n_head block_size b →
  has_shape3 N T n_embd x →
  T ≤ block_size →
  returns (Block_forward training b x) (has_shape3 N T n_embd).
Proof. intros Hdiv Hb Hx HT. by eapply Block_forward_shape. Qed.

Lemma Block_forward_returns_shape_witness :
  returns (Block_forward (rng:=nat) true (block 4 2 3) [zeros 3 4]) (has_shape3 1 3 4).
Proof.
  apply (Block_forward_returns_shape (rng:=nat) true 4 3 2).
  - unfold heads_divide. simpl. lia.
  - apply block_wf.
  - split; [reflexivity|]. repeat constructor.
  - lia.
Defined.

(** X11. Constructor and [forward] fit together: for a head count
    that divides the embedding size, every block that
    [Block(n_embd, n_head, block_size)] returns, whatever values its
    parameters were initialised with, maps an input of shape
    (B, T, n_embd) with [T <= block_size] to a tensor of that shape. *)
Theorem Block_init_then_forward `{Random rng} (training : bool)
    (n_embd n_head block_size : nat) (N T : nat) (x : tensor3) :
  heads_divide n_embd n_head →
  has_shape3 N T n_embd x →
  T ≤ block_size →
  returns (b ← Block_init (Some n_embd) (Some n_head) (Some block_size)
                 None None None None None;
           Block_forward training b x)
    (has_shape3 N T n_embd).
Proof.
  intros Hdiv Hx HT.
  eapply returns_bind.
  - apply InitFacts.Block_init_returns. destruct Hdiv as (_ & Hhead & _). lia.
  - intros b Hb. by eapply Block_forward_shape.
Qed.

Lemma Block_init_then_forward_witness :
  returns (b ← Block_init (rng:=nat) (Some 4) (Some 2) (Some 3)
                 None None None None None;
           Block_forward true b [zeros 3 4])
    (has_shape3 1 3 4).
Proof.
  apply (Block_init_then_forward (rng:=nat) true 4 2 3 1 3).
  - unfold heads_divide. simpl. lia.
  - split; [reflexivity|]. repeat constructor.
  - lia.
Defined.


(** X13. [Head.forward] on a window longer than the head's buffer of
    [block_size] positions (which [LanguageModel.forward] never passes
    on, see the position embedding): the mask [tril[:T, :T]] then has only
    [block_size] rows and columns. Unless [block_size] is 1 it cannot be
    broadcast to the scores, and [forward] raises [RuntimeError]. With
    [block_size = 1] the mask is the single entry [False], which
    broadcasts and masks nothing: in evaluation mode every weight is
    positive, also those of later positions. *)
Theorem Head_forward_window_longer_than_buffer `{Random rng}
    (head_size n_embd block_size : nat) (h : Head) (N T : nat) (x : tensor3) :
  Head_wf head_size n_embd block_size h →
  0 < n_embd →
  has_shape3 N T n_embd x →
  0 < N →
  block_size < T →
  (block_size ≠ 1 →
   ∀ training g, Head_forward training h x g = Raise RuntimeError)
  ∧ (block_size = 1 →
     returns (Head_weights false h x)
       (λ wei, has_shape3 N T T wei ∧
               Forall (Forall (Forall (λ w, (0 < w)%R))) wei)).
Proof.
  intros Hwf Hembd Hx HN HT. split.
  - intros Hone training g. unfold Head_forward. apply bind_raises.
    by eapply Head_weights_long_window.
  - intros Hone. eapply Head_weights_one_position_buffer; [done..|lia|done].
Qed.

(** Three positions for a buffer of two. *)
Lemma Head_forward_window_longer_than_buffer_witness :
  Head_forward (rng:=nat) true (head 1 2 2) [zeros 3 2] 0 = Raise RuntimeError.
Proof.
  destruct (Head_forward_window_longer_than_buffer (rng:=nat) 1 2 2 (head 1 2 2) 1 3
              [zeros 3 2]) as [Hraise _].
  - apply head_wf.
  - lia.
  - split; [reflexivity|]. repeat constructor.
  - lia.
  - lia.
  - apply Hraise. lia.
Defined.
End NetExtras.

(** ** The language model *)

Module ForwardExtras.
Import Torch NN Net Shapes LayerFacts HeadFacts ModelFacts LossFacts ForwardFacts.
Import PureFacts PrefixFacts RowsFacts Counter Examples ExampleFacts.

(** A comprehension whose body can only raise [e0] raises [e0] as soon
    as its body raises on one item. *)
Lemma comprehension_raises_only {A B} (f : A → result B) (e0 : exn) l :
  (∀ x e, f x = Raise e → e = e0) →
  (∃ x e, x ∈ l ∧ f x = Raise e) →
  comprehension f l = Raise e0.
Proof.
  intros Honly (x & e & Hx & Hfx).
  destruct (comprehension f l) as [ys|e'] eqn:Hl.
  - apply list_elem_of_lookup in Hx as [i Hi].
    destruct (comprehension_ok_lookup _ _ _ _ _ Hl Hi) as (y & _ & Hy). congruence.
  - apply comprehension_raise in Hl as (x' & _ & Hx'). by rewrite (Honly _ _ Hx').
Qed.

Section Refusals.
Context `{Random rng}.

(** A token id that is not below [vocab_size] is refused by the token
    embedding. *)
Lemma forward_logits_unknown_token (training : bool) (vocab_size n_embd : nat)
    (m : LanguageModel) (idx : list (list nat)) g :
  Embedding_wf vocab_size n_embd (token_embedding_table m) →
  0 < vocab_size →
  ¬ entries_below vocab_size idx →
  forward_logits training m idx g = Raise IndexError.
Proof.
  intros (_ & _ & Htl & _) Hv Hnot. unfold forward_logits.
  apply bind_raises.
  assert (comprehension (comprehension (Embedding_row (token_embedding_table m))) idx
          = Raise IndexError) as ->; [|done].
  apply not_Forall_Exists in Hnot; [|apply _].
  apply Exists_exists in Hnot as (row & Hrow & Hbad).
  apply not_Forall_Exists in Hbad; [|apply _].
  apply Exists_exists in Hbad as (i & Hi & Hge). simpl in Hge.
  assert (comprehension (Embedding_row (token_embedding_table m)) row
          = Raise IndexError) as Hr.
  { apply comprehension_raises_only.
    - intros j e. apply Embedding_row_raises_only. lia.
    - exists i, IndexError. split; [done|].
      apply Embedding_row_out_of_range; lia. }
  apply comprehension_raises_only.
  - intros r e He. apply comprehension_raise in He as (j & _ & Hj).
    eapply Embedding_row_raises_only; [|exact Hj]. lia.
  - by exists row, IndexError.
Qed.
End Refusals.

(** X14. What [forward] refuses before any block runs, in both modes
    and with or without targets, for a model whose two embedding tables
    have rows ([0 < vocab_size] and [0 < block_size]): an input with a
    token id that is not below [vocab_size], and an input whose rows are
    longer than [block_size], which has no position embedding for the
    positions from [block_size] on. Both end in [IndexError], the
    exception of an embedding lookup out of range on the CPU. *)
Theorem forward_raises_IndexError `{Random rng} (training : bool)
    (vocab_size n_embd block_size : nat) (m : LanguageModel)
    (idx : list (list nat)) (targets : option (list (list nat))) g :
  Embedding_wf vocab_size n_embd (token_embedding_table m) →
  Embedding_wf block_size n_embd (position_embedding_table m) →
  0 < vocab_size → 0 < block_size →
  ¬ entries_below vocab_size idx ∨ block_size < length (hd [] idx) →
  forward training m idx targets g = Raise IndexError.
Proof.
  intros Htok Hpos Hv Hb Hbad. unfold forward. apply bind_raises.
  destruct Hbad as [Hbad|Hlong].
  - by eapply forward_logits_unknown_token.
  - destruct idx as [|row idx]; [simpl in Hlong; lia|].
    by eapply forward_logits_long_window.
Qed.

(** The id 2 in a vocabulary of two characters. *)
Lemma forward_raises_IndexError_witness :
  forward (rng:=nat) false (model 2 2 2 1 1) [[0; 2]] None 0 = Raise IndexError.
Proof.
  apply (forward_raises_IndexError (rng:=nat) false 2 2 2 (model 2 2 2 1 1)).
  - apply embedding_wf.
  - apply embedding_wf.
  - lia.
  - lia.
  - left. intros Hb. apply Forall_cons in Hb as [Hrow _].
    apply Forall_cons in Hrow as [_ Hrow]. apply Forall_cons in Hrow as [H2 _]. lia.
Defined.

(** X15. The targets of [forward], for an input that the model accepts
    (shape (B, T), [T <= block_size], ids below [vocab_size]): targets
    whose number of entries is not B*T are refused by [view] with
    [RuntimeError]; targets with B*T entries one of which is not below
    [vocab_size] are refused by the cross-entropy with [IndexError] (on
    the CPU). The shape of the targets is not compared with that of the
    input beyond the number of entries. *)
Theorem forward_refuses_targets `{Random rng} (training : bool)
    (vocab_size n_embd block_size n_head : nat) (m : LanguageModel)
    (N T : nat) (idx targets : list (list nat)) g :
  heads_divide n_embd n_head →
  LanguageModel_wf vocab_size n_embd block_size n_head m →
  has_shape2 N T idx →
  T ≤ block_size →
  entries_below vocab_size idx →
  (length (concat targets) ≠ N * T →
   forward training m idx (Some targets) g = Raise RuntimeError)
  ∧ (length (concat targets) = N * T →
     ¬ Forall (λ t, t < vocab_size) (concat targets) →
     forward training m idx (Some targets) g = Raise IndexError).
Proof.
  intros Hdiv Hwf Hidx HT Hbelow.
  destruct (forward_logits_shape vocab_size n_embd block_size n_head m Hdiv Hwf
              training N T idx Hidx HT Hbelow g) as (logits & g' & Hl & Hs).
  assert (length logits * length (hd [] logits) = N * T) as HBT.
  { destruct Hs as [Hll Hlm]. destruct logits as [|l0 logits]; simpl in *.
    - subst N. lia.
    - apply Forall_cons in Hlm as [[-> _] _]. subst N. simpl. lia. }
  unfold forward. rewrite (bind_returns _ _ _ _ _ Hl). simpl. rewrite HBT.
  split.
  - intros Hne. apply bind_raises. unfold view1. by rewrite decide_False.
  - intros Heq Hbad. unfold view1. rewrite decide_True by done.
    unfold mbind at 1. unfold M_bind. simpl. apply bind_raises.
    pose proof (concat_shape _ _ _ _ Hs) as [Hcl Hrows].
    unfold cross_entropy. rewrite decide_True by congruence.
    rewrite (comprehension_raises_only _ IndexError); [done| |].
    + intros [row t] e. by destruct (decide (t < length row)); [|intros [= <-]].
    + apply not_Forall_Exists in Hbad; [|apply _].
      apply Exists_exists in Hbad as (t & Ht & Hge). simpl in Hge.
      apply list_elem_of_lookup in Ht as [i Hi].
      destruct (lookup_lt_is_Some_2 (concat logits) i) as [row Hrow].
      { rewrite Hcl, <- Heq. by eapply lookup_lt_Some. }
      exists (row, t), IndexError. split.
      * apply list_elem_of_lookup. exists i. by apply lookup_zip_Some.
      * rewrite decide_False; [done|].
        rewrite (Forall_lookup_1 _ _ _ _ Hrows Hrow). lia.
Qed.

(** Three targets for an input of two positions. *)
Lemma forward_refuses_targets_witness :
  forward (rng:=nat) true (model 2 2 2 1 1) [[0; 1]] (Some [[1; 0; 1]]) 0
  = Raise RuntimeError.
Proof.
  apply (forward_refuses_targets (rng:=nat) true 2 2 2 1 (model 2 2 2 1 1) 1 2
           [[0; 1]] [[1; 0; 1]] 0).
  - unfold heads_divide. simpl. lia.
  - apply model_wf.
  - split; [reflexivity|]. repeat constructor.
  - lia.
  - repeat constructor.
  - simpl. lia.
Defined.

(** X16. [forward] in evaluation mode (the mode of [estimate_loss],
    between [model.eval()] and [model.train()]) draws no random number:
    whatever the model, the input and the targets, its outcome, a value or
    an exception, is the same for every generator, and a call that returns
    hands the generator back as it got it. *)
Theorem forward_eval_ignores_generator `{Random rng} (m : LanguageModel)
    (idx : list (list nat)) (targets : option (list (list nat))) :
  ∃ r : result (tensor * option scalar),
    ∀ g, forward false m idx targets g
         = match r with
           | Ok out => Ok (out, g)
           | Raise e => Raise e
           end.
Proof. apply forward_eval_draws_nothing. Qed.

(** X17. [forward] is autoregressive. In evaluation mode, over
    real-valued entries, for a model with the constructors' shapes and an
    input of shape (B, T) that it accepts: the logits of the first [n]
    positions are the logits of the input cut to its first [n] positions,
    for every [n <= T]; so the logits at a position do not depend on the
    tokens after it, and two inputs that agree on their first [n]
    positions get the same logits there. *)
Theorem forward_eval_autoregressive `{Random rng}
    (vocab_size n_embd block_size n_head : nat) (m : LanguageModel)
    (n N T : nat) (idx : list (list nat)) g :
  heads_divide n_embd n_head →
  LanguageModel_wf vocab_size n_embd block_size n_head m →
  has_shape2 N T idx →
  T ≤ block_size →
  entries_below vocab_size idx →
  n ≤ T →
  ∃ logits,
    forward false m idx None g = Ok ((T3 logits, None), g) ∧
    has_shape3 N T vocab_size logits ∧
    forward false m (first_positions n idx) None g
      = Ok ((T3 (first_positions n logits), None), g) ∧
    ∀ idx', has_shape2 N T idx' → entries_below vocab_size idx' →
      first_positions n idx' = first_positions n idx →
      ∃ logits',
        forward false m idx' None g = Ok ((T3 logits', None), g) ∧
        first_positions n logits' = first_positions n logits.
Proof.
  intros Hdiv Hwf Hidx HT Hbelow HnT.
  destruct (forward_logits_first_positions vocab_size n_embd block_size n_head m
              Hdiv Hwf n N T idx Hidx HT Hbelow HnT g)
    as (logits & ? & Hl & Hl' & Hs & ->).
  exists logits. split_and!.
  - unfold forward. by rewrite (bind_returns _ _ _ _ _ Hl).
  - done.
  - unfold forward. by rewrite (bind_returns _ _ _ _ _ Hl').
  - intros idx' Hidx' Hbelow' Hsame.
    destruct (forward_logits_first_positions vocab_size n_embd block_size n_head m
                Hdiv Hwf n N T idx' Hidx' HT Hbelow' HnT g)
      as (logits' & ? & Hk & Hk' & _ & ->).
    exists logits'. split.
    + unfold forward. by rewrite (bind_returns _ _ _ _ _ Hk).
    + rewrite Hsame, Hl' in Hk'. by injection Hk' as ->.
Qed.

Lemma forward_eval_autoregressive_witness :
  ∃ logits,
    forward (rng:=nat) false (model 2 2 3 1 1) [[0; 1; 1]] None 0
      = Ok ((T3 logits, None), 0) ∧
    forward (rng:=nat) false (model 2 2 3 1 1) [[0; 1]] None 0
      = Ok ((T3 (first_positions 2 logits), None), 0).
Proof.
  destruct (forward_eval_autoregressive (rng:=nat) 2 2 3 1 (model 2 2 3 1 1) 2 1 3
              [[0; 1; 1]] 0) as (logits & Hl & _ & Hl' & _).
  - unfold heads_divide. simpl. lia.
  - apply model_wf.
  - split; [reflexivity|]. repeat constructor.
  - lia.
  - repeat constructor.
  - lia.
  - exists logits. split; [exact Hl|exact Hl'].
Defined.
(** X18. [forward] treats the rows of a batch independently. In
    evaluation mode, for a model with the constructors' shapes and an
    input of shape (B, T) that it accepts: the logits of the rows
    [idx[i:j]] alone are the rows [i] to [j] of the logits of the whole
    batch; so the logits of a sequence do not depend on the sequences it
    is batched with. *)
Theorem forward_eval_rows_independent `{Random rng}
    (vocab_size n_embd block_size n_head : nat) (m : LanguageModel)
    (N T i j : nat) (idx : list (list nat)) g :
  heads_divide n_embd n_head →
  LanguageModel_wf vocab_size n_embd block_size n_head m →
  has_shape2 N T idx →
  T ≤ block_size →
  entries_below vocab_size idx →
  ∃ logits,
    forward false m idx None g = Ok ((T3 logits, None), g) ∧
    has_shape3 N T vocab_size logits ∧
    forward false m (slice idx i j) None g = Ok ((T3 (slice logits i j), None), g).
Proof.
  intros Hdiv Hwf Hidx HT Hbelow.
  destruct (forward_logits_slice vocab_size n_embd block_size n_head m
              Hdiv Hwf N T i j idx Hidx HT Hbelow g)
    as (logits & ? & Hl & Hl' & Hs & ->).
  exists logits. split_and!.
  - unfold forward. by rewrite (bind_returns _ _ _ _ _ Hl).
  - done.
  - unfold forward. by rewrite (bind_returns _ _ _ _ _ Hl').
Qed.

(** The second of three rows. *)
Lemma forward_eval_rows_independent_witness :
  ∃ logits,
    forward (rng:=nat) false (model 2 2 3 1 1) [[0; 1]; [1; 1]; [0; 0]] None 0
      = Ok ((T3 logits, None), 0) ∧
    forward (rng:=nat) false (model 2 2 3 1 1) [[1; 1]] None 0
      = Ok ((T3 (slice logits 1 2), None), 0).
Proof.
  destruct (forward_eval_rows_independent (rng:=nat) 2 2 3 1 (model 2 2 3 1 1) 3 2 1 2
              [[0; 1]; [1; 1]; [0; 0]] 0) as (logits & Hl & _ & Hl').
  - unfold heads_divide. simpl. lia.
  - apply model_wf.
  - split; [reflexivity|]. repeat constructor.
  - lia.
  - repeat constructor.
  - exists logits. split; [exact Hl|exact Hl'].
Defined.
End ForwardExtras.

(** ** Generation *)

Module GenerateExtras.
Import Torch NN Net Shapes WindowFacts Counter.

(** X19. [generate] composes: generating [n + k] tokens is generating
    [n] tokens and then [k] more from the result, with the generator in
    the state the first call left it in; an exception of either part is
    the exception of the whole. *)
Theorem generate_add `{Random rng} (block_size : nat) (training : bool)
    (m : LanguageModel) (n k : nat) (idx : list (list nat)) g :
  generate block_size training m idx (n + k) g
  = (idx' ← generate block_size training m idx n;
     generate block_size training m idx' k) g.
Proof.
  revert idx g. induction n as [|n IH]; intros idx g; [done|].
  simpl. unfold mbind, M_bind.
  destruct (generate_step block_size training m idx g) as [[idx1 g1]|e]; [|done].
  rewrite IH. done.
Qed.
(** X20. [generate] looks at the last [block_size] tokens only. Two
    batches of seeds whose rows agree on their last [block_size] tokens
    (for instance a batch of long prompts and the same prompts cut to
    their last [block_size] tokens) are continued alike from one state of
    the generator, whatever the model: either both calls raise the same
    exception, or both return, with the same [max_new_tokens] new tokens
    appended to each row and the same generator. *)
Theorem generate_context_window `{Random rng} (block_size : nat) (training : bool)
    (m : LanguageModel) (n : nat) (idx1 idx2 : list (list nat)) g :
  Forall2 (λ r1 r2, last_items block_size r1 = last_items block_size r2) idx1 idx2 →
  match generate block_size training m idx1 n g,
        generate block_size training m idx2 n g with
  | Ok (out1, g1), Ok (out2, g2) =>
      g1 = g2 ∧
      ∃ news, Forall (λ new, length new = n) news ∧
              out1 = zip_with app idx1 news ∧ out2 = zip_with app idx2 news
  | Raise e1, Raise e2 => e1 = e2
  | _, _ => False
  end.
Proof.
  revert idx1 idx2 g. induction n as [|n IH]; intros idx1 idx2 g Hsame.
  - simpl. split; [done|]. exists ((λ _, []) <$> idx1). split_and!.
    + apply Forall_fmap, Forall_forall. by intros.
    + clear. induction idx1 as [|r idx1 IH]; [done|].
      simpl. f_equal; [by rewrite app_nil_r|exact IH].
    + induction Hsame as [|r1 r2 idx1 idx2 _ _ IH]; [done|].
      simpl. f_equal; [by rewrite app_nil_r|exact IH].
  - simpl. unfold mbind, M_bind.
    pose proof (generate_step_window block_size training m idx1 idx2 g Hsame) as Hstep.
    destruct (generate_step block_size training m idx1 g) as [[o1 g1]|e1],
             (generate_step block_size training m idx2 g) as [[o2 g2]|e2];
      try done.
    destruct Hstep as (-> & ts & -> & ->).
    assert (Forall2 (λ r1 r2, last_items block_size r1 = last_items block_size r2)
              (zip_with (λ row t, row ++ [t]) idx1 ts)
              (zip_with (λ row t, row ++ [t]) idx2 ts)) as Hnext.
    { clear IH. revert ts. induction Hsame as [|r1 r2 idx1 idx2 Hr _ IH];
        intros [|t ts]; simpl; try constructor.
      - by apply last_items_snoc_same.
      - apply IH. }
    specialize (IH _ _ g2 Hnext).
    destruct (generate block_size training m (zip_with _ idx1 ts) n g2)
      as [[out1 g1']|e1],
             (generate block_size training m (zip_with _ idx2 ts) n g2)
      as [[out2 g2']|e2]; try done.
    destruct IH as (-> & news & Hlen & -> & ->). split; [done|].
    exists (zip_with cons ts news). split_and!.
    + apply Forall_forall. intros new Hnew.
      apply elem_of_lookup_zip_with in Hnew as (i & t & new' & -> & _ & Hn').
      simpl. by rewrite (Forall_lookup_1 _ _ _ _ Hlen Hn').
    + clear. revert ts news. induction idx1 as [|r idx1 IH]; intros [|t ts] [|new news];
        simpl; try done.
      f_equal; [by rewrite <- app_assoc|apply IH].
    + clear. revert ts news. induction idx2 as [|r idx2 IH]; intros [|t ts] [|new news];
        simpl; try done.
      f_equal; [by rewrite <- app_assoc|apply IH].
Qed.

(** A seed of three tokens and its last two, for a window of two. *)
Lemma generate_context_window_witness :
  match generate (rng:=nat) 2 true (Examples.model 2 2 2 1 1) [[0; 1; 0]] 1 0,
        generate (rng:=nat) 2 true (Examples.model 2 2 2 1 1) [[1; 0]] 1 0 with
  | Ok (out1, g1), Ok (out2, g2) =>
      g1 = g2 ∧
      ∃ news, Forall (λ new, length new = 1) news ∧
              out1 = zip_with app [[0; 1; 0]] news ∧
              out2 = zip_with app [[1; 0]] news
  | Raise e1, Raise e2 => e1 = e2
  | _, _ => False
  end.
Proof.
  apply (generate_context_window (rng:=nat) 2 true (Examples.model 2 2 2 1 1) 1
           [[0; 1; 0]] [[1; 0]] 0).
  repeat constructor.
Defined.
End GenerateExtras.

(** ** Loss estimation *)

Module EstimateExtras.
Import Torch NN Net Shapes Train BatchFacts EvalFacts ForwardFacts.
Import Counter Examples ExampleFacts.

Lemma mean_scalars_reals (v : vector) : mean_scalars (Real <$> v) = mean v.
Proof.
  unfold mean_scalars.
  assert (mapM (λ s, match s with Real r => Some r | NaN => None end) (Real <$> v)
          = Some v) as Hv.
  { induction v as [|a v IH]; [done|]. unfold fmap in IH. simpl. by rewrite IH. }
  by rewrite Hv.
Qed.

Lemma batch_losses_length `{Random rng} (hp : hyperparameters)
    (train_encoded dev_encoded test_encoded : list nat) (m : LanguageModel)
    (split : string) (k : nat) g losses g' :
  batch_losses hp train_encoded dev_encoded test_encoded m split k g losses g' →
  length losses = k.
Proof. induction 1 as [|? ? ? ? ? ? ? ? ? ? ? ? ? IH]; [done|]. simpl. by rewrite IH. Qed.

Lemma mean_no_entry_or_nonneg (v : vector) :
  Forall (λ r, (0 <= r)%R) v →
  (0 < length v → ∃ r, mean v = Real r ∧ (0 <= r)%R) ∧ (length v = 0 → mean v = NaN).
Proof.
  intros Hv. split.
  - intros Hlen. apply LossFacts.mean_nonneg; [|done]. intros ->. simpl in Hlen. lia.
  - intros Hlen. by destruct v.
Qed.

Section Estimate.
Context `{Random rng}.
Hypothesis Hrange : RandomRange rng.
Variable hp : hyperparameters.
Variable vocab_size : nat.
Variables train_encoded dev_encoded test_encoded : list nat.
Variable m : LanguageModel.
Hypothesis Hdiv : heads_divide (n_embd hp) (n_head hp).
Hypothesis Hwf : LanguageModel_wf vocab_size (n_embd hp) (block_size hp) (n_head hp) m.
Hypothesis Hbatch : 0 < batch_size hp.
Hypothesis Hblock : 0 < block_size hp.

(** The inner loop of [estimate_loss] on one split: the losses of
    [eval_iters] batches, none of them negative. *)
Lemma split_losses (data : list nat) (split : string) (k s : nat) g :
  split_data train_encoded dev_encoded test_encoded split = Ok data →
  block_size hp < length data →
  Forall (λ t, t < vocab_size) data →
  ∃ (losses : list R) g',
    for_each
      (λ _, '(X, Y) ← get_batch hp train_encoded dev_encoded test_encoded split;
            '(logits, loss) ← model_call false m X (Some Y);
            lift (not_None loss))
      (seq s k) g = Ok (Real <$> losses, g') ∧
    batch_losses hp train_encoded dev_encoded test_encoded m split k g
      (Real <$> losses) g' ∧
    Forall (λ r, (0 <= r)%R) losses.
Proof using Hrange Hdiv Hwf Hbatch Hblock.
  intros Hs Hl Hb. revert s g. induction k as [|k IH]; intros s g.
  - exists [], g. split; [done|]. split; [constructor|constructor].
  - destruct (get_batch_returns Hrange hp train_encoded dev_encoded test_encoded
                vocab_size data split Hs Hl Hbatch Hb g)
      as ([X Y] & g1 & Hxy & HX & HY & HXb & HYb). simpl in *.
    destruct (forward_Some_returns vocab_size (n_embd hp) (block_size hp) (n_head hp) m
                Hdiv Hwf false (batch_size hp) (block_size hp) X Y HX ltac:(lia)
                HXb HY HYb g1)
      as (out & g2 & Hout & l2 & loss & -> & _ & _ & _ & Hreal).
    destruct Hreal as (r & -> & Hr); [nia|].
    destruct (IH (S s) g2) as (losses & g' & Hrest & Hbl & Hpos).
    exists (r :: losses), g'. split; [|split].
    + change (seq s (S k)) with (s :: seq (S s) k). cbn [for_each].
      erewrite bind_returns.
      * erewrite bind_returns; [|exact Hrest]. done.
      * erewrite bind_returns; [|exact Hxy]. cbv beta iota.
        unfold model_call. erewrite bind_returns; [|exact Hout]. done.
    + simpl. by eapply batch_losses_cons.
    + by constructor.
Qed.

Lemma estimate_loss_train_means g :
  block_size hp < length train_encoded →
  block_size hp < length dev_encoded →
  Forall (λ t, t < vocab_size) train_encoded →
  Forall (λ t, t < vocab_size) dev_encoded →
  ∃ (train_losses dev_losses : list R) g1 g',
    batch_losses hp train_encoded dev_encoded test_encoded m "train" (eval_iters hp) g
      (Real <$> train_losses) g1 ∧
    batch_losses hp train_encoded dev_encoded test_encoded m "dev" (eval_iters hp) g1
      (Real <$> dev_losses) g' ∧
    Forall (λ r, (0 <= r)%R) (train_losses ++ dev_losses) ∧
    estimate_loss hp train_encoded dev_encoded test_encoded (Some "train") (Some m) g
    = Ok ({["train" := mean train_losses; "dev" := mean dev_losses]}, g').
Proof using Hrange Hdiv Hwf Hbatch Hblock.
  intros Htl Hdl Htb Hdb.
  destruct (split_losses train_encoded "train" (eval_iters hp) 0 g eq_refl Htl Htb)
    as (ltr & g1 & Htr & Hbtr & Hptr).
  destruct (split_losses dev_encoded "dev" (eval_iters hp) 0 g1 eq_refl Hdl Hdb)
    as (ldv & g' & Hdv & Hbdv & Hpdv).
  exists ltr, ldv, g1, g'. split; [done|]. split; [done|].
  split; [by apply Forall_app|].
  unfold estimate_loss.
  unfold mbind at 1. unfold M_bind at 1. simpl lift.
  unfold mbind at 1. unfold M_bind at 1. simpl lift.
  cbv zeta. rewrite decide_True by done.
  simpl for_each.
  unfold mbind at 1. unfold M_bind at 1.
  unfold mbind at 1. unfold M_bind at 1.
  unfold mbind at 1. unfold M_bind at 1. rewrite Htr.
  unfold mret at 1. unfold M_ret at 1.
  unfold mbind at 1. unfold M_bind at 1.
  unfold mbind at 1. unfold M_bind at 1.
  unfold mbind at 1. unfold M_bind at 1. rewrite Hdv.
  simpl. rewrite !mean_scalars_reals.
  unfold Vocab.dict_of. simpl. by f_equal.
Qed.

Lemma estimate_loss_test_means g :
  block_size hp < length test_encoded →
  Forall (λ t, t < vocab_size) test_encoded →
  ∃ (test_losses : list R) g',
    batch_losses hp train_encoded dev_encoded test_encoded m "test" (eval_iters hp) g
      (Real <$> test_losses) g' ∧
    Forall (λ r, (0 <= r)%R) test_losses ∧
    estimate_loss hp train_encoded dev_encoded test_encoded (Some "test") (Some m) g
    = Ok ({["test" := mean test_losses]}, g').
Proof using Hrange Hdiv Hwf Hbatch Hblock.
  intros Htl Htb.
  destruct (split_losses test_encoded "test" (eval_iters hp) 0 g eq_refl Htl Htb)
    as (lts & g' & Hts & Hbts & Hpts).
  exists lts, g'. split; [done|]. split; [done|].
  unfold estimate_loss.
  unfold mbind at 1. unfold M_bind at 1. simpl lift.
  unfold mbind at 1. unfold M_bind at 1. simpl lift.
  cbv zeta. rewrite decide_False by done. rewrite decide_True by done.
  simpl for_each.
  unfold mbind at 1. unfold M_bind at 1.
  unfold mbind at 1. unfold M_bind at 1.
  unfold mbind at 1. unfold M_bind at 1. rewrite Hts.
  simpl. rewrite !mean_scalars_reals.
  unfold Vocab.dict_of. simpl. by f_equal.
Qed.
End Estimate.

(** X21. [estimate_loss("train", model)], called as its signature asks,
    with positive [batch_size] and [block_size], on a model with the
    constructors' shapes and corpora "train" and "dev" of more than
    [block_size] tokens with ids below [vocab_size]. [eval_iters] batches
    of the training split and then [eval_iters] batches of the validation
    split are drawn, one after another, and each is evaluated by [forward]
    in evaluation mode on the batch and its targets; none of these losses
    is negative. The call returns the dictionary whose entry "train" is
    the mean of the losses of the first series and whose entry "dev" is
    the mean of the losses of the second, with the generator the last
    batch left. For [0 < eval_iters] both means are non-negative numbers;
    for [eval_iters = 0] both are NaN, the mean of no loss. *)
Theorem estimate_loss_train_mode `{Random rng} (hp : hyperparameters) (vocab_size : nat)
    (train_encoded dev_encoded test_encoded : list nat) (m : LanguageModel) :
  RandomRange rng →
  heads_divide (n_embd hp) (n_head hp) →
  LanguageModel_wf vocab_size (n_embd hp) (block_size hp) (n_head hp) m →
  0 < batch_size hp → 0 < block_size hp →
  block_size hp < length train_encoded →
  block_size hp < length dev_encoded →
  Forall (λ t, t < vocab_size) train_encoded →
  Forall (λ t, t < vocab_size) dev_encoded →
  ∀ g, ∃ (train_losses dev_losses : list R) g1 g',
    batch_losses hp train_encoded dev_encoded test_encoded m "train" (eval_iters hp) g
      (Real <$> train_losses) g1 ∧
    batch_losses hp train_encoded dev_encoded test_encoded m "dev" (eval_iters hp) g1
      (Real <$> dev_losses) g' ∧
    Forall (λ r, (0 <= r)%R) (train_losses ++ dev_losses) ∧
    estimate_loss hp train_encoded dev_encoded test_encoded (Some "train") (Some m) g
    = Ok ({["train" := mean train_losses; "dev" := mean dev_losses]}, g') ∧
    (0 < eval_iters hp →
     ∃ tr dv, mean train_losses = Real tr ∧ mean dev_losses = Real dv ∧
              (0 <= tr)%R ∧ (0 <= dv)%R) ∧
    (eval_iters hp = 0 → mean train_losses = NaN ∧ mean dev_losses = NaN).
Proof.
  intros Hrange Hdiv Hwf Hbatch Hblock Htl Hdl Htb Hdb g.
  destruct (estimate_loss_train_means Hrange hp vocab_size train_encoded dev_encoded
              test_encoded m Hdiv Hwf Hbatch Hblock g Htl Hdl Htb Hdb)
    as (ltr & ldv & g1 & g' & Hbtr & Hbdv & Hpos & Hout).
  exists ltr, ldv, g1, g'. split; [exact Hbtr|]. split; [exact Hbdv|].
  split; [exact Hpos|]. split; [exact Hout|].
  apply batch_losses_length in Hbtr, Hbdv. rewrite length_fmap in Hbtr, Hbdv.
  apply Forall_app in Hpos as [Hptr Hpdv].
  destruct (mean_no_entry_or_nonneg ltr Hptr) as [Htr1 Htr0].
  destruct (mean_no_entry_or_nonneg ldv Hpdv) as [Hdv1 Hdv0].
  split.
  - intros Hiters.
    destruct Htr1 as (tr & Htr & ?); [lia|]. destruct Hdv1 as (dv & Hdv & ?); [lia|].
    by exists tr, dv.
  - intros Hiters. split; [apply Htr0|apply Hdv0]; lia.
Qed.

Lemma aabb_divides : heads_divide (n_embd aabb) (n_head aabb).
Proof. unfold heads_divide. simpl. lia. Qed.

Lemma estimate_loss_train_mode_witness :
  ∃ (tr dv : R) (g' : nat),
    estimate_loss (rng:=nat) aabb [0; 0; 1; 1] [1; 1; 0; 0] []
      (Some "train") (Some (model 2 2 2 1 1)) 0
    = Ok ({["train" := Real tr; "dev" := Real dv]}, g') ∧ (0 <= tr)%R ∧ (0 <= dv)%R.
Proof.
  destruct (estimate_loss_train_mode (rng:=nat) aabb 2 [0; 0; 1; 1] [1; 1; 0; 0] []
              (model 2 2 2 1 1) counter_range aabb_divides (model_wf 2 2 2 1 1)
              ltac:(simpl; lia) ltac:(simpl; lia) ltac:(simpl; lia) ltac:(simpl; lia)
              ltac:(repeat constructor) ltac:(repeat constructor) 0)
    as (ltr & ldv & g1 & g' & _ & _ & _ & Hout & Hpos & _).
  destruct Hpos as (tr & dv & Htr & Hdv & Hptr & Hpdv); [simpl; lia|].
  exists tr, dv, g'. rewrite <- Htr, <- Hdv.
  split; [exact Hout|]. split; [exact Hptr|exact Hpdv].
Defined.

(** X22. The other modes of [estimate_loss], called with a model. With
    the mode "test", positive [batch_size] and [block_size], a model with
    the constructors' shapes and a test corpus of more than [block_size]
    tokens with ids below [vocab_size]: [eval_iters] batches of the test
    split are drawn, one after another, each is evaluated by [forward] in
    evaluation mode on the batch and its targets, and no loss is negative;
    the call returns the dictionary with the one entry "test", the mean of
    these losses (a non-negative number for [0 < eval_iters], NaN for
    [eval_iters = 0]), and no entry "train" or "dev". With any mode other
    than "train" and "test" no split is evaluated: the call returns the
    empty dictionary and leaves the generator as it was. *)
Theorem estimate_loss_other_modes `{Random rng} (hp : hyperparameters) (vocab_size : nat)
    (train_encoded dev_encoded test_encoded : list nat) (m : LanguageModel) :
  (RandomRange rng →
   heads_divide (n_embd hp) (n_head hp) →
   LanguageModel_wf vocab_size (n_embd hp) (block_size hp) (n_head hp) m →
   0 < batch_size hp → 0 < block_size hp →
   block_size hp < length test_encoded →
   Forall (λ t, t < vocab_size) test_encoded →
   ∀ g, ∃ (test_losses : list R) g',
     batch_losses hp train_encoded dev_encoded test_encoded m "test" (eval_iters hp) g
       (Real <$> test_losses) g' ∧
     Forall (λ r, (0 <= r)%R) test_losses ∧
     estimate_loss hp train_encoded dev_encoded test_encoded (Some "test") (Some m) g
     = Ok ({["test" := mean test_losses]}, g') ∧
     (0 < eval_iters hp → ∃ r, mean test_losses = Real r ∧ (0 <= r)%R) ∧
     (eval_iters hp = 0 → mean test_losses = NaN))
  ∧ (∀ mode g, mode ≠ "train" → mode ≠ "test" →
       estimate_loss hp train_encoded dev_encoded test_encoded (Some mode) (Some m) g
       = Ok (∅, g)).
Proof.
  split.
  - intros Hrange Hdiv Hwf Hbatch Hblock Htl Htb g.
    destruct (estimate_loss_test_means Hrange hp vocab_size train_encoded dev_encoded
                test_encoded m Hdiv Hwf Hbatch Hblock g Htl Htb)
      as (lts & g' & Hbts & Hpos & Hout).
    exists lts, g'. split; [exact Hbts|]. split; [exact Hpos|]. split; [exact Hout|].
    apply batch_losses_length in Hbts. rewrite length_fmap in Hbts.
    destruct (mean_no_entry_or_nonneg lts Hpos) as [Hts1 Hts0].
    split; intros Hiters; [apply Hts1|apply Hts0]; lia.
  - intros mode g Htrain Htest. unfold estimate_loss.
    unfold mbind at 1. unfold M_bind. simpl.
    rewrite !decide_False by done. reflexivity.
Qed.

Lemma estimate_loss_other_modes_witness :
  (∃ (r : R) (g' : nat),
     estimate_loss (rng:=nat) aabb [] [] [0; 1; 0; 1]
       (Some "test") (Some (model 2 2 2 1 1)) 0
     = Ok ({["test" := Real r]}, g') ∧ (0 <= r)%R)
  ∧ estimate_loss (rng:=nat) aabb [] [] [0; 1; 0; 1] (Some "dev")
      (Some (model 2 2 2 1 1)) 0 = Ok (∅, 0).
Proof.
  destruct (estimate_loss_other_modes (rng:=nat) aabb 2 [] [] [0; 1; 0; 1]
              (model 2 2 2 1 1)) as [Htest Hother].
  split.
  - destruct (Htest counter_range aabb_divides (model_wf 2 2 2 1 1)
                ltac:(simpl; lia) ltac:(simpl; lia) ltac:(simpl; lia)
                ltac:(repeat constructor) 0)
      as (lts & g' & _ & _ & Hout & Hpos & _).
    destruct Hpos as (r & Hr & Hpr); [simpl; lia|].
    exists r, g'. rewrite <- Hr. split; [exact Hout|exact Hpr].
  - by apply Hother.
Defined.
End EstimateExtras.

(** ** Construction of the model, the training loop *)

Module LoopExtras.
Import Torch NN Net Shapes Train InitFacts BatchFacts EvalFacts ForwardFacts TrainFacts.
Import Counter Examples ExampleFacts.

Section Notebook.
Context `{Random rng}.
Variable hp : hyperparameters.
Variable vocab_size : nat.
Variables train_encoded dev_encoded test_encoded : list nat.
Variable optimizer_step : LanguageModel → list (list nat) → list (list nat) → LanguageModel.

(** [LanguageModel()] with [n_layer = 0] has no block to build. *)
Lemma LanguageModel_init_no_layer (n_embd block_size n_head : nat) :
  returns (LanguageModel_init vocab_size n_embd block_size n_head 0)
    (λ m, LanguageModel_wf vocab_size n_embd block_size n_head m ∧ blocks m = []).
Proof.
  unfold LanguageModel_init.
  eapply returns_bind; [apply nn_Embedding_returns|]. intros tok Htok.
  eapply returns_bind; [apply nn_Embedding_returns|]. intros pos Hpos.
  simpl.
  eapply returns_bind; [apply (returns_ret _ (λ bs : list Block, bs = [])); done|].
  intros ? ->.
  eapply returns_bind; [apply nn_Linear_returns|]. intros lm Hlm.
  apply returns_ret. unfold LanguageModel_wf. simpl.
  split; [|done]. split_and!; try done. apply nn_LayerNorm_wf.
Qed.

(** The first turn of the loop when [eval_interval] is 0. *)
Lemma training_loop_zero_interval (s : run_state) :
  0 < max_iters hp → eval_interval hp = 0 →
  training_loop hp train_encoded dev_encoded test_encoded optimizer_step s
  = (s, Some ZeroDivisionError).
Proof.
  intros Hit Hz. unfold training_loop.
  destruct (max_iters hp) as [|n] eqn:Hn; [lia|].
  change (seq 0 (S n)) with (0 :: seq 1 n). cbn [for_iter].
  unfold iteration, modulo. by rewrite decide_True.
Qed.

End Notebook.

(** X23. [LanguageModel()] for every setting of the hyperparameters: with
    [n_layer = 0] it returns a model without blocks whose tables, final
    norm and output layer have the shapes [forward] needs; with any
    positive [n_layer] it raises [TypeError], because the blocks are built
    without their required [block_size]. *)
Theorem LanguageModel_init_outcome `{Random rng}
    (vocab_size n_embd block_size n_head n_layer : nat) :
  match n_layer with
  | 0 => returns (LanguageModel_init vocab_size n_embd block_size n_head 0)
           (λ m, LanguageModel_wf vocab_size n_embd block_size n_head m ∧
                 blocks m = [])
  | S _ => ∀ g, LanguageModel_init vocab_size n_embd block_size n_head n_layer g
                = Raise TypeError
  end.
Proof.
  destruct n_layer as [|n].
  - apply LanguageModel_init_no_layer.
  - intros g. apply LanguageModel_init_raises. lia.
Qed.

(** X24. The loop of cell 24 for every setting of the hyperparameters and
    every state it is started in: with [max_iters = 0] it does nothing;
    otherwise it stops in its first turn, with [ZeroDivisionError] when
    [eval_interval] is 0 and with [TypeError] (the call
    [estimate_loss("train")]) when it is not. In no case is the model
    updated or a row appended to the loss file. *)
Theorem training_loop_outcome `{Random rng} (hp : hyperparameters)
    (train_encoded dev_encoded test_encoded : list nat)
    (optimizer_step : LanguageModel → list (list nat) → list (list nat) → LanguageModel)
    (s : run_state) :
  training_loop hp train_encoded dev_encoded test_encoded optimizer_step s
  = (s, if decide (max_iters hp = 0) then None
        else if decide (eval_interval hp = 0) then Some ZeroDivisionError
        else Some TypeError).
Proof.
  destruct (decide (max_iters hp = 0)) as [Hz|Hnz].
  - unfold training_loop. by rewrite Hz.
  - destruct (decide (eval_interval hp = 0)) as [He|Hne].
    + apply training_loop_zero_interval; [lia|done].
    + apply training_loop_raises; [lia|done].
Qed.

(** X25. Cell 24 for every setting of the hyperparameters with a
    learning rate that is not negative (AdamW refuses a negative one),
    every corpus and every generator: it ends with an exception and leaves
    the loss file as it was. The exception is [TypeError] from
    [LanguageModel()] when [n_layer] is positive; else [ZeroDivisionError]
    from [len(train_encoded) // batch_size] when [batch_size] is 0; else
    [ValueError] from [OneCycleLR] when [max_iters] or the number of steps
    per epoch is 0; else the exception of the loop's first turn. *)
Theorem cell_24_outcome `{Random rng} (hp : hyperparameters) (vocab_size : nat)
    (train_encoded dev_encoded test_encoded : list nat)
    (optimizer_step : LanguageModel → list (list nat) → list (list nat) → LanguageModel)
    (loss_file0 : list LossRecord) g :
  (0 <= learning_rate hp)%Q →
  cell_24 hp vocab_size train_encoded dev_encoded test_encoded optimizer_step
    loss_file0 g
  = (loss_file0,
     Some (if decide (n_layer hp = 0) then
             if decide (batch_size hp = 0) then ZeroDivisionError
             else if decide (max_iters hp = 0 ∨
                             length train_encoded / batch_size hp = 0)
                  then ValueError
                  else if decide (eval_interval hp = 0) then ZeroDivisionError
                       else TypeError
           else TypeError)).
Proof.
  intros _.
  destruct (decide (n_layer hp = 0)) as [Hl|Hl].
  - unfold cell_24. rewrite Hl.
    destruct (LanguageModel_init_no_layer vocab_size (n_embd hp) (block_size hp)
                (n_head hp) g) as (m & g' & -> & _).
    unfold floordiv, OneCycleLR.
    destruct (decide (batch_size hp = 0)) as [Hb|Hb]; [done|]. simpl.
    destruct (decide (max_iters hp = 0 ∨ length train_encoded / batch_size hp = 0))
      as [Hv|Hv]; [done|].
    destruct (decide (eval_interval hp = 0)) as [He|He].
    + rewrite training_loop_zero_interval; [done|lia|done].
    + rewrite training_loop_raises; [done|lia|done].
  - apply cell_24_raises. lia.
Qed.

(** The hyperparameters of cell 14 on a corpus of four tokens. *)
Lemma cell_24_outcome_witness :
  cell_24 (rng:=nat) cell_14 2 [0; 0; 1; 1] [] [] (λ m _ _, m) [] 0
  = ([], Some TypeError).
Proof.
  apply (cell_24_outcome (rng:=nat) cell_14 2 [0; 0; 1; 1] [] [] (λ m _ _, m) [] 0).
  unfold Qle. simpl. lia.
Defined.


End LoopExtras.
